(** * WHIPTube: the room-scoped fan-out engine and its signaling synchronizer

    A shallow embedding of the Go sources

    - [webrtc/peer/connection.go]  (package [peer]: [DispatchKeyFrame],
      [SignalPeerConnections] and its closure [attemptSync]),
    - the [main] package (room registry, [getOrCreateRoom],
      [removePeerFromRoom], [websocketHandler] and its callbacks),

    together with the properties of the specification that concern them.

    The media library (pion) and the websocket library are external: a
    peer-connection is a record of what the program observes of it
    (connection state, senders, receivers, local description), and every
    library call that returns an [error] asks a fault oracle
    [fails : nat -> bool], indexed by the number of fallible calls made so
    far, whether it fails.  Effects are explicit: a [World] is threaded
    through every function, and everything the program does to the outside
    (locks, RTCP and websocket writes, spawned goroutines) is appended to
    the world's trace. *)

From Stdlib Require Import ZArith.
From stdpp Require Import base numbers option list gmap strings.

(** ** Go slices

    A slice value is a length over a backing array.  All slices of this
    program start at offset 0, so the capacity is the length of the
    backing array.  Passing a slice to a function copies the length and
    shares the array. *)
Module slice.
Section Slice.
Context {A : Type}.

Record t := Make { backing : list A; len : nat }.

(** The elements a holder of the slice sees: [s[0:len(s)]]. *)
Definition elems (s : t) : list A := take (len s) (backing s).

(** [make([]A, 0)]. *)
Definition empty : t := {| backing := []; len := 0 |}.

(** [append(s[:i], s[i+1:]...)] for [i < len(s)]: the result fits the
    capacity, so the tail [s[i+1:len]] is moved one slot down inside the
    backing array; slot [len-1] and everything after it keep their old
    contents. *)
Definition remove_at (i : nat) (s : t) : t :=
  {| backing := take i (backing s)
                ++ drop (S i) (take (len s) (backing s))
                ++ drop (len s - 1) (backing s);
     len := len s - 1 |}.

(** Growth of the capacity when [append] has to reallocate (the
    runtime doubles small slices; nothing below depends on the exact
    amount). *)
Definition growcap (c : nat) : nat := if decide (c = 0) then 1 else 2 * c.

(** [append(s, x)]: in place when there is room, otherwise into a fresh
    array of larger capacity holding a copy of the elements, the new
    element and zero values. *)
Definition append (zero : A) (s : t) (x : A) : t :=
  if decide (len s < length (backing s))
  then {| backing := <[len s := x]> (backing s); len := S (len s) |}
  else {| backing := elems s ++ x ::
                     replicate (growcap (length (backing s)) - S (len s)) zero;
          len := S (len s) |}.

(** What a caller that passed [mine] by value sees after the callee
    finished with [theirs]: its own length over the shared array. *)
Definition caller_view (mine theirs : t) : t :=
  {| backing := backing theirs; len := len mine |}.
End Slice.
Arguments t : clear implicits.
End slice.

(** ** The media library as the program observes it *)
Module webrtc.

Inductive PeerConnectionState :=
| PeerConnectionStateNew
| PeerConnectionStateConnecting
| PeerConnectionStateConnected
| PeerConnectionStateDisconnected
| PeerConnectionStateFailed
| PeerConnectionStateClosed.

#[global] Instance PeerConnectionState_eq_dec : EqDecision PeerConnectionState.
Proof. solve_decision. Defined.

(** [*webrtc.TrackLocalStaticRTP]: the forwarding track. *)
Record TrackLocalStaticRTP := { tl_id : string; tl_streamID : string }.

(** [*webrtc.TrackRemote]: an inbound track.  [SSRC()] is a [uint32]. *)
Record TrackRemote := { tr_id : string; tr_streamID : string; tr_ssrc : Z }.

Definition uint32 (z : Z) : Z := z mod 2 ^ 32.
Definition SSRC (t : TrackRemote) : Z := uint32 (tr_ssrc t).

(** [sender.Track()] and [receiver.Track()] may be nil. *)
Definition RTPSender := option TrackLocalStaticRTP.
Definition RTPReceiver := option TrackRemote.

Inductive SDPType := SDPTypeOffer | SDPTypeAnswer.

(** A session description, reduced to what the program can influence:
    the identifiers of the tracks it announces. *)
Record SessionDescription := { sd_type : SDPType; sd_tracks : list string }.

(** What the program observes of a [*webrtc.PeerConnection]:
    [ConnectionState()], [GetSenders()], [GetReceivers()] and the two
    descriptions.  [AddTrack] adds a sender for the track at the end of
    the list; [RemoveTrack] leaves the sender without a track (the
    program skips senders whose track is nil, so whether the library keeps
    such a sender in the list makes no difference to it). *)
Record PeerConnection := {
  connectionState : PeerConnectionState;
  senders : list RTPSender;
  receivers : list RTPReceiver;
  localDescription : option SessionDescription;
  remoteDescription : option SessionDescription;
}.

Definition set_senders (s : list RTPSender) (pc : PeerConnection) :=
  {| connectionState := connectionState pc; senders := s;
     receivers := receivers pc; localDescription := localDescription pc;
     remoteDescription := remoteDescription pc |}.
Definition set_localDescription (d : SessionDescription) (pc : PeerConnection) :=
  {| connectionState := connectionState pc; senders := senders pc;
     receivers := receivers pc; localDescription := Some d;
     remoteDescription := remoteDescription pc |}.
Definition set_remoteDescription (d : SessionDescription) (pc : PeerConnection) :=
  {| connectionState := connectionState pc; senders := senders pc;
     receivers := receivers pc; localDescription := localDescription pc;
     remoteDescription := Some d |}.
Definition set_connectionState (c : PeerConnectionState) (pc : PeerConnection) :=
  {| connectionState := c; senders := senders pc;
     receivers := receivers pc; localDescription := localDescription pc;
     remoteDescription := remoteDescription pc |}.

(** [webrtc.NewPeerConnection]. *)
Definition newPeerConnection : PeerConnection :=
  {| connectionState := PeerConnectionStateNew; senders := []; receivers := [];
     localDescription := None; remoteDescription := None |}.

#[global] Instance PeerConnection_inhabited : Inhabited PeerConnection :=
  populate newPeerConnection.

(** Identifiers of the tracks attached as senders / received. *)
Definition sender_ids (pc : PeerConnection) : gset string :=
  list_to_set (omap (fmap tl_id) (senders pc)).
Definition receiver_ids (pc : PeerConnection) : gset string :=
  list_to_set (omap (fmap tr_id) (receivers pc)).
End webrtc.

Module rtcp.
(** [rtcp.PictureLossIndication]. *)
Record PictureLossIndication := { SenderSSRC : Z; MediaSSRC : Z }.
End rtcp.

(** ** Package [rtp]: the packet the ingest loop handles *)
Module rtp.
Record Extension := { ext_id : Z; ext_payload : list Z }.

Record Header := {
  Version : Z;
  Padding : bool;
  Extension_ : bool;               (* the field [Extension] *)
  Marker : bool;
  PayloadType : Z;
  SequenceNumber : Z;
  Timestamp : Z;
  SSRC : Z;
  CSRC : list Z;
  ExtensionProfile : Z;
  Extensions : list Extension;
}.

Record Packet := { Header_ : Header; Payload : list Z; PaddingSize : Z }.
End rtp.

(** ** Peer records

    [peer.PeerConnectionState]: the peer-connection handle, the serialized
    message writer bound to the client, and the display name.  The first
    two are pointers: addresses in the heap of peer-connections and of
    websocket connections. *)
Record PeerConnectionState := {
  PeerConnection : nat;
  Websocket : nat;
  Name : string;
}.

Definition zeroPeerConnectionState : PeerConnectionState :=
  {| PeerConnection := 0; Websocket := 0; Name := "" |}.

(** ** Effects *)

Inductive LockId :=
| roomsLock
| roomLock (room : nat).

(** The decoded content of the [Data] string of an outgoing message. *)
Inductive MessageData :=
| DataOffer (offer : webrtc.SessionDescription)
            (trackNames streamNames : gmap string string)
| DataText (s : string).

(** Work handed to a new goroutine. *)
Inductive Goroutine :=
| GoResync (delay : Z) (listLock : LockId)
           (trackLocals : gmap string webrtc.TrackLocalStaticRTP)
           (peerConnections : slice.t PeerConnectionState)
           (trackNames streamNames : gmap string string).

Inductive Event :=
| EvLock (l : LockId)
| EvUnlock (l : LockId)
| EvRLock (l : LockId)
| EvRUnlock (l : LockId)
| EvAttemptSync (syncAttempt : nat) (tryAgain : bool)   (* [attemptSync] returned *)
| EvRemoveTrack (pc : nat) (sender : nat) (ok : bool)
| EvAddTrack (pc : nat) (track : webrtc.TrackLocalStaticRTP) (ok : bool)
| EvCreateOffer (pc : nat) (ok : bool)
| EvSetLocalDescription (pc : nat) (ok : bool)
| EvWriteJSON (ws : nat) (event : string) (data : MessageData) (ok : bool)
| EvWriteRTCP (pc : nat) (pkts : list rtcp.PictureLossIndication) (ok : bool)
| EvUnmarshal (pkt : rtp.Packet)       (* a packet read and decoded by an ingest loop *)
| EvWriteRTP (track : webrtc.TrackLocalStaticRTP) (pkt : rtp.Packet) (ok : bool)
| EvNewPeerConnection (pc : nat) (ok : bool)
| EvClosePeerConnection (pc : nat)
| EvCloseWebsocket (ws : nat)
| EvGo (g : Goroutine).

Definition time_Second : Z := 1000000000.

Record World := {
  pcs : gmap nat webrtc.PeerConnection;   (* the heap of [*webrtc.PeerConnection] *)
  tick : nat;                             (* fallible calls made so far *)
  trace : list Event;                     (* oldest first *)
}.

Definition emit (e : Event) (w : World) : World :=
  {| pcs := pcs w; tick := tick w; trace := trace w ++ [e] |}.
Definition next_tick (w : World) : World :=
  {| pcs := pcs w; tick := S (tick w); trace := trace w |}.
Definition set_pc (h : nat) (pc : webrtc.PeerConnection) (w : World) : World :=
  {| pcs := <[h := pc]> (pcs w); tick := tick w; trace := trace w |}.
Definition pc_at (w : World) (h : nat) : webrtc.PeerConnection := pcs w !!! h.

(** ** Package [peer] ([webrtc/peer/connection.go]) *)
Module peer.
Section Peer.
(** The fault oracle: [fails n] says whether the [n]-th fallible library
    call returns an error. *)
Variable fails : nat -> bool.

(** A fallible library call: ask the oracle, count the call. *)
Definition fallible (w : World) : bool * World :=
  (fails (tick w), next_tick w).

(** [pc.WriteRTCP(pkts)]. *)
Definition WriteRTCP (h : nat) (pkts : list rtcp.PictureLossIndication)
    (w : World) : bool * World :=
  let '(err, w) := fallible w in
  (err, emit (EvWriteRTCP h pkts (negb err)) w).

(** The inner loop of [DispatchKeyFrame] (lines 22-32). *)
Definition keyFrameReceivers (h : nat) (rs : list webrtc.RTPReceiver)
    (w : World) : World :=
  foldl (fun w receiver =>
           match receiver with
           | None => w                                   (* continue *)
           | Some t =>
               (* the error of WriteRTCP is assigned to _ *)
               snd (WriteRTCP h
                      [{| rtcp.SenderSSRC := 0;
                          rtcp.MediaSSRC := webrtc.uint32 (webrtc.SSRC t) |}] w)
           end) w rs.

(** [DispatchKeyFrame] (lines 17-34). *)
Definition DispatchKeyFrame (listLock : LockId)
    (peerConnections : slice.t PeerConnectionState) (w : World) : World :=
  let w := emit (EvLock listLock) w in
  let w := foldl (fun w p =>
                    keyFrameReceivers (PeerConnection p)
                      (webrtc.receivers (pc_at w (PeerConnection p))) w)
                 w (slice.elems peerConnections) in
  emit (EvUnlock listLock) w.

(** *** [attemptSync] (lines 44-130) *)

(** Lines 55-69: the scan of the senders.  [j] is the position of the
    sender in the list [GetSenders] returned.  The result is
    [(retry, existingSenders, world)]. *)
Fixpoint scanSenders (trackLocals : gmap string webrtc.TrackLocalStaticRTP)
    (h : nat) (j : nat) (ss : list webrtc.RTPSender)
    (existingSenders : gset string) (w : World)
    : bool * gset string * World :=
  match ss with
  | [] => (false, existingSenders, w)
  | None :: ss => scanSenders trackLocals h (S j) ss existingSenders w
  | Some t :: ss =>
      let existingSenders := {[ webrtc.tl_id t ]} ∪ existingSenders in
      match trackLocals !! webrtc.tl_id t with
      | Some _ => scanSenders trackLocals h (S j) ss existingSenders w
      | None =>
          (* RemoveTrack(sender) *)
          let '(err, w) := fallible w in
          let w := emit (EvRemoveTrack h j (negb err)) w in
          if err then (true, existingSenders, w)
          else
            let pc := pc_at w h in
            let w := set_pc h (webrtc.set_senders (<[j := None]> (webrtc.senders pc)) pc) w in
            scanSenders trackLocals h (S j) ss existingSenders w
      end
  end.

(** Lines 72-78. *)
Definition scanReceivers (rs : list webrtc.RTPReceiver)
    (existingSenders : gset string) : gset string :=
  foldl (fun ex receiver =>
           match receiver with
           | None => ex
           | Some t => {[ webrtc.tr_id t ]} ∪ ex
           end) existingSenders rs.

(** Lines 81-88: [for trackID := range trackLocals]. *)
Fixpoint addTracks (h : nat) (existingSenders : gset string)
    (todo : list (string * webrtc.TrackLocalStaticRTP)) (w : World)
    : bool * World :=
  match todo with
  | [] => (false, w)
  | (trackID, t) :: todo =>
      if decide (trackID ∈ existingSenders) then addTracks h existingSenders todo w
      else
        (* AddTrack(trackLocals[trackID]) *)
        let '(err, w) := fallible w in
        let w := emit (EvAddTrack h t (negb err)) w in
        if err then (true, w)
        else
          let pc := pc_at w h in
          let w := set_pc h (webrtc.set_senders (webrtc.senders pc ++ [Some t]) pc) w in
          addTracks h existingSenders todo w
  end.

(** [pc.CreateOffer(nil)]: the offer announces the tracks attached as
    senders at that moment. *)
Definition offerOf (pc : webrtc.PeerConnection) : webrtc.SessionDescription :=
  {| webrtc.sd_type := webrtc.SDPTypeOffer;
     webrtc.sd_tracks := omap (fmap webrtc.tl_id) (webrtc.senders pc) |}.

(** Lines 90-126: create, install, wrap and send the offer. *)
Definition sendOffer (p : PeerConnectionState)
    (trackNames streamNames : gmap string string) (w : World) : bool * World :=
  let h := PeerConnection p in
  (* CreateOffer *)
  let '(err, w) := fallible w in
  let w := emit (EvCreateOffer h (negb err)) w in
  if err then (true, w) else
  let offer := offerOf (pc_at w h) in
  (* SetLocalDescription *)
  let '(err, w) := fallible w in
  let w := emit (EvSetLocalDescription h (negb err)) w in
  if err then (true, w) else
  let w := set_pc h (webrtc.set_localDescription offer (pc_at w h)) w in
  (* json.Marshal(offer) *)
  let '(err, w) := fallible w in
  if err then (true, w) else
  (* json.Marshal(offerData) *)
  let '(err, w) := fallible w in
  if err then (true, w) else
  (* Websocket.WriteJSON *)
  let '(err, w) := fallible w in
  let w := emit (EvWriteJSON (Websocket p) "offer"
                   (DataOffer offer trackNames streamNames) (negb err)) w in
  (err, w).

(** The body of the loop over the peers for a peer that is not closed
    (lines 52-126). *)
Definition syncPeer (trackLocals : gmap string webrtc.TrackLocalStaticRTP)
    (trackNames streamNames : gmap string string)
    (p : PeerConnectionState) (w : World) : bool * World :=
  let h := PeerConnection p in
  let '(retry, existingSenders, w) :=
    scanSenders trackLocals h 0 (webrtc.senders (pc_at w h)) ∅ w in
  if retry then (true, w) else
  let existingSenders :=
    scanReceivers (webrtc.receivers (pc_at w h)) existingSenders in
  let '(retry, w) := addTracks h existingSenders (map_to_list trackLocals) w in
  if retry then (true, w) else
  sendOffer p trackNames streamNames w.

(** [for i := range peerConnections]: [todo] is what is left of the
    slice from index [i] on. *)
Fixpoint scanPeers (trackLocals : gmap string webrtc.TrackLocalStaticRTP)
    (trackNames streamNames : gmap string string)
    (peerConnections : slice.t PeerConnectionState)
    (i : nat) (todo : list PeerConnectionState) (w : World)
    : bool * slice.t PeerConnectionState * World :=
  match todo with
  | [] => (false, peerConnections, w)       (* return tryAgain, never set *)
  | p :: todo =>
      if decide (webrtc.connectionState (pc_at w (PeerConnection p))
                 = webrtc.PeerConnectionStateClosed)
      then (true, slice.remove_at i peerConnections, w)
      else
        let '(retry, w) := syncPeer trackLocals trackNames streamNames p w in
        if retry then (true, peerConnections, w)
        else scanPeers trackLocals trackNames streamNames peerConnections (S i) todo w
  end.

Definition attemptSync (trackLocals : gmap string webrtc.TrackLocalStaticRTP)
    (trackNames streamNames : gmap string string)
    (peerConnections : slice.t PeerConnectionState) (w : World)
    : bool * slice.t PeerConnectionState * World :=
  scanPeers trackLocals trackNames streamNames peerConnections 0
    (slice.elems peerConnections) w.

(** *** [SignalPeerConnections] (lines 37-147) *)

Inductive SyncExit := SyncDone | SyncRescheduled.

(** The loop of lines 132-146.  [fuel] bounds the iterations of the
    model; [None] means the fuel ran out. *)
Fixpoint syncLoop (fuel : nat) (listLock : LockId)
    (trackLocals : gmap string webrtc.TrackLocalStaticRTP)
    (trackNames streamNames : gmap string string)
    (syncAttempt : nat) (peerConnections : slice.t PeerConnectionState)
    (w : World) : option (SyncExit * slice.t PeerConnectionState * World) :=
  match fuel with
  | 0 => None
  | S fuel =>
      if decide (syncAttempt = 25) then
        let w := emit (EvGo (GoResync (time_Second * 3) listLock trackLocals
                               peerConnections trackNames streamNames)) w in
        Some (SyncRescheduled, peerConnections, w)
      else
        let '(tryAgain, peerConnections, w) :=
          attemptSync trackLocals trackNames streamNames peerConnections w in
        let w := emit (EvAttemptSync syncAttempt tryAgain) w in
        if tryAgain
        then syncLoop fuel listLock trackLocals trackNames streamNames
               (S syncAttempt) peerConnections w
        else Some (SyncDone, peerConnections, w)
  end.

(** The whole call: lock, loop, and on return the deferred function
    (unlock, then [DispatchKeyFrame] over the slice as the loop left
    it). *)
Definition SignalPeerConnections (fuel : nat) (listLock : LockId)
    (trackLocals : gmap string webrtc.TrackLocalStaticRTP)
    (peerConnections : slice.t PeerConnectionState)
    (trackNames streamNames : gmap string string) (w : World)
    : option (SyncExit * slice.t PeerConnectionState * World) :=
  let w := emit (EvLock listLock) w in
  match syncLoop fuel listLock trackLocals trackNames streamNames 0 peerConnections w with
  | None => None
  | Some (exit, peerConnections, w) =>
      let w := emit (EvUnlock listLock) w in
      Some (exit, peerConnections, DispatchKeyFrame listLock peerConnections w)
  end.
End Peer.
End peer.

(** ** Package [ws] *)
Module ws.
Record WebsocketMessage := { Event : string; Data : string }.
Definition zero : WebsocketMessage := {| Event := ""; Data := "" |}.
End ws.

(** ** Package [main]

    The read deadlines and the ping goroutine of [websocketHandler] (lines
    178-194) are about real time and are left out, and so is the logging. *)
Module main.

(** [RoomState] without its lock, which is named by the address of the
    room. *)
Record RoomState := {
  PeerConnections : slice.t PeerConnectionState;
  TrackLocals : gmap string webrtc.TrackLocalStaticRTP;
  TrackNames : gmap string string;
  StreamNames : gmap string string;
}.

Definition set_PeerConnections (s : slice.t PeerConnectionState) (r : RoomState) :=
  {| PeerConnections := s; TrackLocals := TrackLocals r;
     TrackNames := TrackNames r; StreamNames := StreamNames r |}.
Definition set_TrackLocals (m : gmap string webrtc.TrackLocalStaticRTP) (r : RoomState) :=
  {| PeerConnections := PeerConnections r; TrackLocals := m;
     TrackNames := TrackNames r; StreamNames := StreamNames r |}.
Definition set_TrackNames (m : gmap string string) (r : RoomState) :=
  {| PeerConnections := PeerConnections r; TrackLocals := TrackLocals r;
     TrackNames := m; StreamNames := StreamNames r |}.
Definition set_StreamNames (m : gmap string string) (r : RoomState) :=
  {| PeerConnections := PeerConnections r; TrackLocals := TrackLocals r;
     TrackNames := TrackNames r; StreamNames := m |}.

(** The room [getOrCreateRoom] builds (lines 125-130). *)
Definition newRoom : RoomState :=
  {| PeerConnections := slice.empty; TrackLocals := ∅;
     TrackNames := ∅; StreamNames := ∅ |}.

#[global] Instance RoomState_inhabited : Inhabited RoomState := populate newRoom.

(** The process: the registry [rooms] (room identifier to [*RoomState]),
    the room objects, the allocation counters and the world. *)
Record Server := {
  rooms : gmap string nat;
  heap : gmap nat RoomState;
  nextRoom : nat;
  nextPC : nat;
  world : World;
}.

(** [main] (line 60): an empty registry. *)
Definition boot : Server :=
  {| rooms := ∅; heap := ∅; nextRoom := 0; nextPC := 0;
     world := {| pcs := ∅; tick := 0; trace := [] |} |}.

Definition set_rooms (m : gmap string nat) (sv : Server) : Server :=
  {| rooms := m; heap := heap sv; nextRoom := nextRoom sv;
     nextPC := nextPC sv; world := world sv |}.
Definition set_world (w : World) (sv : Server) : Server :=
  {| rooms := rooms sv; heap := heap sv; nextRoom := nextRoom sv;
     nextPC := nextPC sv; world := w |}.
Definition set_room (ptr : nat) (r : RoomState) (sv : Server) : Server :=
  {| rooms := rooms sv; heap := <[ptr := r]> (heap sv); nextRoom := nextRoom sv;
     nextPC := nextPC sv; world := world sv |}.
Definition room_at (sv : Server) (ptr : nat) : RoomState := heap sv !!! ptr.
Definition log (es : list Event) (sv : Server) : Server :=
  set_world (foldl (fun w e => emit e w) (world sv) es) sv.

(** [getOrCreateRoom] (lines 117-133). *)
Definition getOrCreateRoom (roomID : string) (sv : Server) : nat * Server :=
  let sv := log [EvLock roomsLock] sv in
  match rooms sv !! roomID with
  | Some room => (room, log [EvUnlock roomsLock] sv)
  | None =>
      let room := nextRoom sv in
      let sv := {| rooms := <[roomID := room]> (rooms sv);
                   heap := <[room := newRoom]> (heap sv);
                   nextRoom := S room; nextPC := nextPC sv;
                   world := world sv |} in
      (room, log [EvUnlock roomsLock] sv)
  end.

(** The loop of lines 148-153: splice out the first record whose
    peer-connection is [peerConnection]. *)
Definition splicePeer (peerConnection : nat)
    (s : slice.t PeerConnectionState) : slice.t PeerConnectionState :=
  match list_find (fun pc => PeerConnection pc = peerConnection) (slice.elems s) with
  | Some (i, _) => slice.remove_at i s
  | None => s
  end.

(** [removePeerFromRoom] (lines 136-161). *)
Definition removePeerFromRoom (roomID : string) (peerConnection : nat)
    (sv : Server) : Server :=
  let sv := log [EvRLock roomsLock; EvRUnlock roomsLock] sv in
  match rooms sv !! roomID with
  | None => sv
  | Some ptr =>
      let sv := log [EvLock (roomLock ptr)] sv in
      let room := room_at sv ptr in
      let room := set_PeerConnections (splicePeer peerConnection (PeerConnections room)) room in
      let sv := set_room ptr room sv in
      let sv :=
        if decide (slice.len (PeerConnections room) = 0 ∧ size (TrackLocals room) = 0)
        then log [EvUnlock roomsLock]
               (set_rooms (delete roomID (rooms sv)) (log [EvLock roomsLock] sv))
        else sv in
      log [EvUnlock (roomLock ptr)] sv
  end.

(** The handler of ["/"] (lines 73-88): the WebSocket URL the page
    template is executed with.  [host] is [r.Host]. *)
Definition wsURL (host : string) : string :=
  let protocol := "wss://" in
  let protocol :=
    if orb (String.prefix "localhost" host) (String.prefix "127.0.0.1" host)
    then "ws://" else protocol in
  String.append protocol (String.append host "/websocket").

(** [joinData] (lines 221-224). *)
Module joinData.
Record t := { RoomID : string; Name : string }.
End joinData.

(** The local variables of one [websocketHandler] call that its deferred
    functions and its callbacks capture. *)
Record Session := {
  c : nat;                      (* the websocket *)
  roomID : string;
  userName : string;
  room : nat;                   (* [*RoomState] *)
  peerConnection : nat;         (* [*webrtc.PeerConnection] *)
}.

#[global] Instance Session_eq_dec : EqDecision Session.
Proof. solve_decision. Defined.

Inductive Handshake :=
| Returned (sv : Server)              (* the handler returned *)
| Joined (s : Session) (sv : Server). (* it reached line 282 *)

Section Main.
Variable fails : nat -> bool.

(** [encoding/json], external: decoding a message into the (reused)
    message struct, and decoding the join payload. *)
Variable json_Unmarshal_message : ws.WebsocketMessage -> string -> option ws.WebsocketMessage.
Variable json_Unmarshal_joinData : string -> option joinData.t.

(** Decoding a remote ICE candidate (kept as text) and an answer. *)
Variable json_Unmarshal_candidate : string -> option string.
Variable json_Unmarshal_answer : string -> option webrtc.SessionDescription.

Definition fallible (sv : Server) : bool * Server :=
  let '(err, w) := peer.fallible fails (world sv) in (err, set_world w sv).

(** [peer.SignalPeerConnections(&room.Lock, room.TrackLocals,
    room.PeerConnections, room.TrackNames, room.StreamNames)]: the maps
    are shared, the slice is passed by value, so afterwards the room
    still has its own length over the array the callee worked on.  The
    fuel is enough for the loop of the callee, which makes at most 25
    attempts, so the last branch is never taken. *)
Definition signalRoom (ptr : nat) (sv : Server) : Server :=
  let room := room_at sv ptr in
  match peer.SignalPeerConnections fails 26 (roomLock ptr) (TrackLocals room)
          (PeerConnections room) (TrackNames room) (StreamNames room) (world sv) with
  | Some (_, theirs, w) =>
      set_world w
        (set_room ptr
           (set_PeerConnections (slice.caller_view (PeerConnections room) theirs) room) sv)
  | None => sv
  end.

(** [peerConnection.Close()]. *)
Definition closePeerConnection (peerConnection : nat) (sv : Server) : Server :=
  let w := world sv in
  let w := set_pc peerConnection
             (webrtc.set_connectionState webrtc.PeerConnectionStateClosed
                (pc_at w peerConnection)) w in
  set_world (emit (EvClosePeerConnection peerConnection) w) sv.

(** The deferred function of lines 259-262, then the one of line 176. *)
Definition teardown (roomID : string) (peerConnection c : nat) (sv : Server) : Server :=
  let sv := closePeerConnection peerConnection sv in
  let sv := removePeerFromRoom roomID peerConnection sv in
  log [EvCloseWebsocket c] sv.

(** [websocketHandler] from the first read to the registration of the
    peer (lines 200-281).  [first] is what [c.ReadMessage] returns:
    [None] for an error. *)
Definition handshake (c : nat) (first : option string) (sv : Server) : Handshake :=
  match first with
  | None => Returned (log [EvCloseWebsocket c] sv)
  | Some raw =>
  match json_Unmarshal_message ws.zero raw with
  | None => Returned (log [EvCloseWebsocket c] sv)
  | Some message =>
  if negb (String.eqb (ws.Event message) "join")
  then Returned (log [EvCloseWebsocket c] sv) else
  match json_Unmarshal_joinData (ws.Data message) with
  | None => Returned (log [EvCloseWebsocket c] sv)
  | Some jd =>
  let roomID := joinData.RoomID jd in
  let userName := joinData.Name jd in
  if String.eqb roomID "" then Returned (log [EvCloseWebsocket c] sv) else
  let userName := if String.eqb userName "" then "Anonymous" else userName in
  let '(room, sv) := getOrCreateRoom roomID sv in
  (* webrtc.NewPeerConnection *)
  let '(err, sv) := fallible sv in
  if err then Returned (log [EvNewPeerConnection 0 false; EvCloseWebsocket c] sv) else
  let peerConnection := nextPC sv in
  let sv := {| rooms := rooms sv; heap := heap sv; nextRoom := nextRoom sv;
               nextPC := S peerConnection;
               world := emit (EvNewPeerConnection peerConnection true)
                          (set_pc peerConnection webrtc.newPeerConnection (world sv)) |} in
  (* AddTransceiverFromKind(audio, recvonly) *)
  let '(err, sv) := fallible sv in
  if err then Returned (teardown roomID peerConnection c sv) else
  let pc := pc_at (world sv) peerConnection in
  let sv := set_world
              (set_pc peerConnection
                 {| webrtc.connectionState := webrtc.connectionState pc;
                    webrtc.senders := webrtc.senders pc;
                    webrtc.receivers := webrtc.receivers pc ++ [None];
                    webrtc.localDescription := webrtc.localDescription pc;
                    webrtc.remoteDescription := webrtc.remoteDescription pc |}
                 (world sv)) sv in
  (* lines 276-281 *)
  let sv := log [EvLock (roomLock room)] sv in
  let r := room_at sv room in
  let sv := set_room room
              (set_PeerConnections
                 (slice.append zeroPeerConnectionState (PeerConnections r)
                    {| PeerConnection := peerConnection; Websocket := c;
                       Name := userName |}) r) sv in
  let sv := log [EvUnlock (roomLock room)] sv in
  Joined {| c := c; roomID := roomID; userName := userName; room := room;
            peerConnection := peerConnection |} sv
  end end end.

(** The read loop (lines 396-447).  [message] is the struct the decoder
    reuses; [reads] is what the successive [c.ReadMessage] return, and when
    it is exhausted the next read fails.  The result is the server when the
    loop returns. *)
Fixpoint readLoop (s : Session) (message : ws.WebsocketMessage)
    (reads : list (option string)) (sv : Server) : Server :=
  match reads with
  | [] => sv
  | None :: _ => sv
  | Some raw :: reads =>
      match json_Unmarshal_message message raw with
      | None => sv
      | Some message =>
          if String.eqb (ws.Event message) "candidate" then
            match json_Unmarshal_candidate (ws.Data message) with
            | None => sv
            | Some candidate =>
                (* AddICECandidate *)
                let '(err, sv) := fallible sv in
                if err then sv else readLoop s message reads sv
            end
          else if String.eqb (ws.Event message) "answer" then
            match json_Unmarshal_answer (ws.Data message) with
            | None => sv
            | Some answer =>
                (* SetRemoteDescription *)
                let '(err, sv) := fallible sv in
                if err then sv
                else
                  let w := world sv in
                  let sv := set_world
                              (set_pc (peerConnection s)
                                 (webrtc.set_remoteDescription answer
                                    (pc_at w (peerConnection s))) w) sv in
                  readLoop s message reads sv
            end
          else readLoop s message reads sv
      end
  end.

(** [websocketHandler] (lines 164-448), for a client whose messages are
    [reads], when nothing else runs in between. *)
Definition websocketHandler (c : nat) (reads : list (option string)) (sv : Server) : Server :=
  let first := match reads with [] => None | first :: _ => first end in
  match handshake c first sv with
  | Returned sv => sv
  | Joined s sv =>
      let message := default ws.zero (first ≫= json_Unmarshal_message ws.zero) in
      let sv := signalRoom (room s) sv in                        (* line 394 *)
      let sv := readLoop s message (tail reads) sv in
      teardown (roomID s) (peerConnection s) c sv
  end.

(** The callback of lines 284-305: a local candidate ([None] for nil) is
    sent to the client. *)
Definition onICECandidate (s : Session) (i : option string) (sv : Server) : Server :=
  match i with
  | None => sv
  | Some candidate =>
      (* json.Marshal(i.ToJSON()) *)
      let '(err, sv) := fallible sv in
      if err then sv
      else
        let '(err, sv) := fallible sv in
        log [EvWriteJSON (c s) "candidate" (DataText candidate) (negb err)] sv
  end.

(** The callback of lines 308-320. *)
Definition onConnectionStateChange (s : Session) (p : webrtc.PeerConnectionState)
    (sv : Server) : Server :=
  match p with
  | webrtc.PeerConnectionStateFailed => closePeerConnection (peerConnection s) sv
  | webrtc.PeerConnectionStateClosed => signalRoom (room s) sv
  | _ => sv
  end.

(** The first messages the claims about the join speak of: the message
    does not decode, its event is not ["join"], its data does not decode,
    or the room identifier is empty. *)
Inductive rejected (raw : string) : Prop :=
| rejected_message :
    json_Unmarshal_message ws.zero raw = None → rejected raw
| rejected_event m :
    json_Unmarshal_message ws.zero raw = Some m →
    ws.Event m ≠ "join" → rejected raw
| rejected_data m :
    json_Unmarshal_message ws.zero raw = Some m →
    json_Unmarshal_joinData (ws.Data m) = None → rejected raw
| rejected_room m jd :
    json_Unmarshal_message ws.zero raw = Some m →
    json_Unmarshal_joinData (ws.Data m) = Some jd →
    joinData.RoomID jd = "" → rejected raw.

(** A first message that asks to join the room [r] under the name [n]. *)
Definition joins (raw : string) (r n : string) : Prop :=
  ∃ m, json_Unmarshal_message ws.zero raw = Some m
       ∧ ws.Event m = "join"
       ∧ json_Unmarshal_joinData (ws.Data m)
         = Some {| joinData.RoomID := r; joinData.Name := n |}.

(** *** The [OnTrack] callback (lines 322-387) *)

(** Lines 325-334: the owner's name, looked up in the room's list. *)
Definition trackOwnerName (peerConnection : nat) (r : RoomState) : string :=
  match list_find (fun pc => PeerConnection pc = peerConnection)
          (slice.elems (PeerConnections r)) with
  | Some (_, pc) => Name pc
  | None => ""
  end.

(** The library, when an inbound track starts on a peer-connection: the
    first receiver that has no track yet takes it (a new receiver when
    there is none); the [OnTrack] handler is called after that. *)
Fixpoint takeTrack (t : webrtc.TrackRemote) (rs : list webrtc.RTPReceiver)
    : list webrtc.RTPReceiver :=
  match rs with
  | [] => [Some t]
  | None :: rs => Some t :: rs
  | Some t' :: rs => Some t' :: takeTrack t rs
  end.

Definition startReceiver (peerConnection : nat) (t : webrtc.TrackRemote)
    (sv : Server) : Server :=
  let pc := pc_at (world sv) peerConnection in
  set_world
    (set_pc peerConnection
       {| webrtc.connectionState := webrtc.connectionState pc;
          webrtc.senders := webrtc.senders pc;
          webrtc.receivers := takeTrack t (webrtc.receivers pc);
          webrtc.localDescription := webrtc.localDescription pc;
          webrtc.remoteDescription := webrtc.remoteDescription pc |}
       (world sv)) sv.

(** Lines 336-343. *)
Definition onTrack_label (s : Session) (t : webrtc.TrackRemote) (sv : Server)
    : string * Server :=
  let sv := log [EvRLock (roomLock (room s))] sv in
  let name := trackOwnerName (peerConnection s) (room_at sv (room s)) in
  let sv := log [EvRUnlock (roomLock (room s)); EvLock (roomLock (room s))] sv in
  let r := room_at sv (room s) in
  let r := set_TrackNames (<[webrtc.tr_id t := name]> (TrackNames r)) r in
  let r := set_StreamNames (<[webrtc.tr_streamID t := name]> (StreamNames r)) r in
  (name, log [EvUnlock (roomLock (room s))] (set_room (room s) r sv)).

(** Modelled from the spec: package [track] is not among the sources.
    [track.AddTrack] creates, under the room lock, a forwarding track
    with the parameters of the inbound track, reusing its identifier,
    inserts it into the room's tracks keyed by the inbound track's
    identifier, and invokes the synchronizer. *)
Definition track_AddTrack (t : webrtc.TrackRemote) (ptr : nat) (sv : Server)
    : webrtc.TrackLocalStaticRTP * Server :=
  let trackLocal := {| webrtc.tl_id := webrtc.tr_id t;
                       webrtc.tl_streamID := webrtc.tr_streamID t |} in
  let sv := log [EvLock (roomLock ptr)] sv in
  let r := room_at sv ptr in
  let sv := set_room ptr
              (set_TrackLocals (<[webrtc.tr_id t := trackLocal]> (TrackLocals r)) r) sv in
  let sv := log [EvUnlock (roomLock ptr)] sv in
  (trackLocal, signalRoom ptr sv).

(** Modelled from the spec: package [track] is not among the sources.
    [track.RemoveTrack] removes, under the room lock, the forwarding
    track from the room's tracks, where it is keyed by its identifier,
    and invokes the synchronizer. *)
Definition track_RemoveTrack (trackLocal : webrtc.TrackLocalStaticRTP) (ptr : nat)
    (sv : Server) : Server :=
  let sv := log [EvLock (roomLock ptr)] sv in
  let r := room_at sv ptr in
  let sv := set_room ptr
              (set_TrackLocals (delete (webrtc.tl_id trackLocal) (TrackLocals r)) r) sv in
  let sv := log [EvUnlock (roomLock ptr)] sv in
  signalRoom ptr sv.

(** Lines 348-355: the forwarding track's own identifier is labelled too
    when it differs from the identifier of the inbound track. *)
Definition onTrack_labelLocal (s : Session) (t : webrtc.TrackRemote) (name : string)
    (trackLocal : webrtc.TrackLocalStaticRTP) (sv : Server) : Server :=
  let localTrackID := webrtc.tl_id trackLocal in
  if negb (String.eqb localTrackID (webrtc.tr_id t)) then
    let sv := log [EvLock (roomLock (room s))] sv in
    let r := room_at sv (room s) in
    let sv := set_room (room s)
                (set_TrackNames (<[localTrackID := name]> (TrackNames r)) r) sv in
    log [EvUnlock (roomLock (room s))] sv
  else sv.

(** Lines 345-355. *)
Definition onTrack_add (s : Session) (t : webrtc.TrackRemote) (name : string)
    (sv : Server) : webrtc.TrackLocalStaticRTP * Server :=
  let '(trackLocal, sv) := track_AddTrack t (room s) sv in
  (trackLocal, onTrack_labelLocal s t name trackLocal sv).

(** The deferred function, lines 358-361 ... *)
Definition onTrack_unlabel (s : Session) (t : webrtc.TrackRemote) (sv : Server) : Server :=
  let sv := log [EvLock (roomLock (room s))] sv in
  let r := room_at sv (room s) in
  let r := set_TrackNames (delete (webrtc.tr_id t) (TrackNames r)) r in
  let r := set_StreamNames (delete (webrtc.tr_streamID t) (StreamNames r)) r in
  log [EvUnlock (roomLock (room s))] (set_room (room s) r sv).

(** ... and line 362. *)
Definition onTrack_remove (s : Session) (trackLocal : webrtc.TrackLocalStaticRTP)
    (sv : Server) : Server :=
  track_RemoveTrack trackLocal (room s) sv.

(** *** The ingest loop (lines 365-386) *)

(** [rtp.Packet.Unmarshal], external: decodes into the (reused) packet
    struct. *)
Variable rtp_Unmarshal : rtp.Packet -> list Z -> option rtp.Packet.



(** The zero packet of line 366. *)
Definition zeroPacket : rtp.Packet :=
  {| rtp.Header_ :=
       {| rtp.Version := 0; rtp.Padding := false; rtp.Extension_ := false;
          rtp.Marker := false; rtp.PayloadType := 0; rtp.SequenceNumber := 0;
          rtp.Timestamp := 0; rtp.SSRC := 0; rtp.CSRC := [];
          rtp.ExtensionProfile := 0; rtp.Extensions := [] |};
     rtp.Payload := []; rtp.PaddingSize := 0 |}.

(** *** The keyframe ticker (lines 92-106), one tick *)
Definition keyframeTick (sv : Server) : Server :=
  let sv := log [EvRLock roomsLock; EvRUnlock roomsLock] sv in
  foldl (fun sv kv =>
           let ptr := kv.2 in
           let sv := log [EvRLock (roomLock ptr); EvRUnlock (roomLock ptr)] sv in
           set_world (peer.DispatchKeyFrame fails (roomLock ptr)
                        (PeerConnections (room_at sv ptr)) (world sv)) sv)
        sv (map_to_list (rooms sv)).

(** *** The server as a transition system

    One step is one of the actions above, taken by a session's handler or
    by one of the callbacks it installed; the library calls the callbacks
    in goroutines of its own, at any time after they were installed.
    [reading] are the sessions in their read loop, [installed] the
    sessions whose callbacks exist, and [handlers] the running [OnTrack]
    callbacks with how far they got. *)
Inductive Phase :=
| Labelled (name : string)                                    (* after line 343 *)
| Ingesting (name : string) (trackLocal : webrtc.TrackLocalStaticRTP) (* after line 355 *)
| Unlabelled (trackLocal : webrtc.TrackLocalStaticRTP).       (* after line 361 *)

Record Sys := {
  server : Server;
  reading : list Session;
  installed : list Session;
  handlers : list (Session * webrtc.TrackRemote * Phase);
}.

Definition start : Sys :=
  {| server := boot; reading := []; installed := []; handlers := [] |}.

(** A client connects and sends its first message. *)
Inductive connects : Sys -> Sys -> Prop :=
| connect_returned y c first sv' :
    handshake c first (server y) = Returned sv' ->
    connects y {| server := sv'; reading := reading y;
                  installed := installed y; handlers := handlers y |}
| connect_joined y c first s sv' :
    handshake c first (server y) = Joined s sv' ->
    connects y {| server := signalRoom (room s) sv'; reading := s :: reading y;
                  installed := s :: installed y; handlers := handlers y |}.

(** Everything the server does without a new client. *)
Inductive internal : Sys -> Sys -> Prop :=
| session_ends y s message reads :        (* messages are read, the loop returns *)
    s ∈ reading y ->
    internal y {| server := teardown (roomID s) (peerConnection s) (c s)
                              (readLoop s message reads (server y));
                  reading := filter (fun s' => s' ≠ s) (reading y);
                  installed := installed y; handlers := handlers y |}
| candidate_found y s i :                 (* OnICECandidate is called *)
    s ∈ installed y ->
    internal y {| server := onICECandidate s i (server y); reading := reading y;
                  installed := installed y; handlers := handlers y |}
| connection_moves y s p :                (* the connection enters the state [p] *)
    s ∈ installed y ->
    internal y {| server :=
                    onConnectionStateChange s p
                      (set_world
                         (set_pc (peerConnection s)
                            (webrtc.set_connectionState p
                               (pc_at (world (server y)) (peerConnection s)))
                            (world (server y))) (server y));
                  reading := reading y;
                  installed := installed y; handlers := handlers y |}
| track_fires y s t name sv' :            (* a track starts, OnTrack is called *)
    s ∈ installed y ->
    onTrack_label s t (startReceiver (peerConnection s) t (server y)) = (name, sv') ->
    internal y {| server := sv'; reading := reading y; installed := installed y;
                  handlers := (s, t, Labelled name) :: handlers y |}
| track_added y s t name trackLocal sv' hs1 hs2 :
    handlers y = hs1 ++ (s, t, Labelled name) :: hs2 ->
    onTrack_add s t name (server y) = (trackLocal, sv') ->
    internal y {| server := sv'; reading := reading y; installed := installed y;
                  handlers := hs1 ++ (s, t, Ingesting name trackLocal) :: hs2 |}
| track_unlabelled y s t name trackLocal hs1 hs2 :
    handlers y = hs1 ++ (s, t, Ingesting name trackLocal) :: hs2 ->
    internal y {| server := onTrack_unlabel s t (server y); reading := reading y;
                  installed := installed y;
                  handlers := hs1 ++ (s, t, Unlabelled trackLocal) :: hs2 |}
| track_removed y s t trackLocal hs1 hs2 :
    handlers y = hs1 ++ (s, t, Unlabelled trackLocal) :: hs2 ->
    internal y {| server := onTrack_remove s trackLocal (server y); reading := reading y;
                  installed := installed y; handlers := hs1 ++ hs2 |}
| ticker y :
    internal y {| server := keyframeTick (server y); reading := reading y;
                  installed := installed y; handlers := handlers y |}.

Definition step (y y' : Sys) : Prop := connects y y' ∨ internal y y'.
Definition reachable (y : Sys) : Prop := rtc step start y.
End Main.
End main.

(** ** Observations used in the statements *)

(** The RTCP writes of a stretch of trace: target and packets, whatever
    the outcome of the write. *)
Definition rtcp_writes (es : list Event) : list (nat * list rtcp.PictureLossIndication) :=
  omap (fun e => match e with EvWriteRTCP h pkts _ => Some (h, pkts) | _ => None end) es.

Definition is_rtcp_write (e : Event) : Prop :=
  match e with EvWriteRTCP _ _ _ => True | _ => False end.

(** One Picture Loss Indication per receiver that has a track. *)
Definition pli_for (h : nat) (rs : list webrtc.RTPReceiver)
    : list (nat * list rtcp.PictureLossIndication) :=
  omap (fun r : webrtc.RTPReceiver =>
          (fun t => (h, [{| rtcp.SenderSSRC := 0; rtcp.MediaSSRC := webrtc.SSRC t |}])) <$> r) rs.

(** The attempts of a stretch of trace, with what each returned, and the
    goroutines it started. *)
Definition attempts (es : list Event) : list (nat * bool) :=
  omap (fun e => match e with EvAttemptSync k b => Some (k, b) | _ => None end) es.
Definition spawned (es : list Event) : list Goroutine :=
  omap (fun e => match e with EvGo g => Some g | _ => None end) es.

Definition is_lock_event (e : Event) : Prop :=
  match e with EvLock _ | EvUnlock _ | EvRLock _ | EvRUnlock _ => True | _ => False end.

(** What one attempt does to the outside: calls on peer-connections and
    websocket writes. *)
Definition is_sync_step (e : Event) : Prop :=
  match e with
  | EvRemoveTrack _ _ _ | EvAddTrack _ _ _ | EvCreateOffer _ _
  | EvSetLocalDescription _ _ | EvWriteJSON _ _ _ _ => True
  | _ => False
  end.

(** Identifiers of a list of senders; [webrtc.sender_ids pc] is
    [ids_of_senders (webrtc.senders pc)]. *)
Definition ids_of_senders (ss : list webrtc.RTPSender) : gset string :=
  list_to_set (omap (fmap webrtc.tl_id) ss).

(** Between two worlds, no peer-connection changed its connection state or
    its receivers. *)
Definition media_unchanged (w w' : World) : Prop :=
  ∀ h, webrtc.connectionState (pc_at w' h) = webrtc.connectionState (pc_at w h)
       ∧ webrtc.receivers (pc_at w' h) = webrtc.receivers (pc_at w h).

(** Between two worlds, only the peer-connection [h] may have changed its
    senders. *)
Definition senders_unchanged_but (h : nat) (w w' : World) : Prop :=
  ∀ h', h' ≠ h → webrtc.senders (pc_at w' h') = webrtc.senders (pc_at w h').

(** The forwarded tracks are keyed by their own identifier (what
    [track.AddTrack] establishes). *)
Definition keyed_by_id (trackLocals : gmap string webrtc.TrackLocalStaticRTP) : Prop :=
  ∀ k t, trackLocals !! k = Some t → webrtc.tl_id t = k.

(** A peer-connection sends no track of the room under an identifier that
    is also the identifier of a track it receives. *)
Definition loopback_free (trackLocals : gmap string webrtc.TrackLocalStaticRTP)
    (pc : webrtc.PeerConnection) : Prop :=
  ∀ id, id ∈ webrtc.sender_ids pc → id ∈ webrtc.receiver_ids pc → id ∉ dom trackLocals.

(** A peer-connection sends exactly the tracks of the room it does not
    itself upload. *)
Definition in_sync (trackLocals : gmap string webrtc.TrackLocalStaticRTP)
    (pc : webrtc.PeerConnection) : Prop :=
  webrtc.sender_ids pc = dom trackLocals ∖ webrtc.receiver_ids pc.

(** Only tracks were attached or detached. *)
Definition is_track_change (e : Event) : Prop :=
  match e with EvRemoveTrack _ _ _ | EvAddTrack _ _ _ => True | _ => False end.

(** What the holder of a slice of length [n] over the array of [s] sees of
    the peers that are not closed: they are all among the elements of the
    shorter slice [s] the synchronizer works on. *)
Definition view_inv (w : World) (n : nat) (s : slice.t PeerConnectionState) : Prop :=
  slice.len s ≤ n ∧ n ≤ length (slice.backing s)
  ∧ ∀ p, p ∈ take n (slice.backing s) →
         webrtc.connectionState (pc_at w (PeerConnection p))
           ≠ webrtc.PeerConnectionStateClosed →
         p ∈ slice.elems s.





(** The room is empty: no peers and no forwarded tracks. *)
Definition room_empty (r : main.RoomState) : Prop :=
  slice.len (main.PeerConnections r) = 0 ∧ main.TrackLocals r = ∅.

(** The offers written in a stretch of trace: the websocket, the tracks
    the offer announces and the labels sent along. *)
Definition offers (es : list Event)
    : list (nat * list string * gmap string string * gmap string string) :=
  omap (fun e => match e with
                 | EvWriteJSON c "offer" (DataOffer o tn sn) true =>
                     Some (c, webrtc.sd_tracks o, tn, sn)
                 | _ => None
                 end) es.

(** The registry names allocated rooms only, and no two identifiers
    name the same room. *)
Definition registry_wf (sv : main.Server) : Prop :=
  (∀ id ptr, main.rooms sv !! id = Some ptr → ptr < main.nextRoom sv)
  ∧ (∀ id1 id2 ptr, main.rooms sv !! id1 = Some ptr →
                     main.rooms sv !! id2 = Some ptr → id1 = id2).

(** The peers of a list whose connection is not closed, in order. *)
Definition open_peers (w : World) (l : list PeerConnectionState)
    : list PeerConnectionState :=
  filter (fun p => webrtc.connectionState (pc_at w (PeerConnection p))
                   ≠ webrtc.PeerConnectionStateClosed) l.

(** No peer-connection changed its senders between two worlds. *)
Definition senders_unchanged (w w' : World) : Prop :=
  ∀ h, webrtc.senders (pc_at w' h) = webrtc.senders (pc_at w h).

(** From [w] to [w'], every peer-connection kept the senders whose track
    is in the room, and every identifier it sends in [w'] it sent in [w]
    or is the key of a track of the room that it does not receive. *)
Definition senders_between (trackLocals : gmap string webrtc.TrackLocalStaticRTP)
    (w w' : World) : Prop :=
  ∀ h, webrtc.sender_ids (pc_at w h) ∩ dom trackLocals ⊆ webrtc.sender_ids (pc_at w' h)
       ∧ webrtc.sender_ids (pc_at w' h)
         ⊆ webrtc.sender_ids (pc_at w h)
           ∪ (dom trackLocals ∖ webrtc.receiver_ids (pc_at w h)).

(** A signaling step addresses the peer [p]: it is a call on the
    peer-connection of [p], or a message written to its websocket. *)
Definition addressed (p : PeerConnectionState) (e : Event) : Prop :=
  match e with
  | EvRemoveTrack h _ _ | EvAddTrack h _ _ | EvCreateOffer h _
  | EvSetLocalDescription h _ => h = PeerConnection p
  | EvWriteJSON c _ _ _ => c = Websocket p
  | _ => True
  end.

(** ** A room used in the examples

    Alice (peer-connection 1) uploads the track ["t-A"]; Bob
    (peer-connection 2) uploads nothing. *)
Module example.
Definition never : nat -> bool := fun _ => false.
Definition always : nat -> bool := fun _ => true.

Definition alice : PeerConnectionState :=
  {| PeerConnection := 1; Websocket := 11; Name := "Alice" |}.
Definition bob : PeerConnectionState :=
  {| PeerConnection := 2; Websocket := 12; Name := "Bob" |}.

Definition remote_tA : webrtc.TrackRemote :=
  {| webrtc.tr_id := "t-A"; webrtc.tr_streamID := "s-A"; webrtc.tr_ssrc := 4242 |}.
Definition local_tA : webrtc.TrackLocalStaticRTP :=
  {| webrtc.tl_id := "t-A"; webrtc.tl_streamID := "s-A" |}.
Definition local_copy : webrtc.TrackLocalStaticRTP :=
  {| webrtc.tl_id := "copy-of-t-A"; webrtc.tl_streamID := "s-A" |}.
Definition tracks : gmap string webrtc.TrackLocalStaticRTP := {[ "t-A" := local_tA ]}.
Definition names : gmap string string := {[ "t-A" := "Alice" ]}.
Definition streams : gmap string string := {[ "s-A" := "Alice" ]}.

Definition pc (st : webrtc.PeerConnectionState) (ss : list webrtc.RTPSender)
    (rs : list webrtc.RTPReceiver) : webrtc.PeerConnection :=
  {| webrtc.connectionState := st; webrtc.senders := ss; webrtc.receivers := rs;
     webrtc.localDescription := None; webrtc.remoteDescription := None |}.

Definition world_of (a b : webrtc.PeerConnection) : World :=
  {| pcs := {[ 1 := a; 2 := b ]}; tick := 0; trace := [] |}.

(** Both connected, nothing attached yet. *)
Definition fresh : World :=
  world_of (pc webrtc.PeerConnectionStateConnected [] [Some remote_tA])
           (pc webrtc.PeerConnectionStateConnected [] [None]).

(** Bob's connection is closed. *)
Definition bob_closed : World :=
  world_of (pc webrtc.PeerConnectionStateConnected [] [Some remote_tA])
           (pc webrtc.PeerConnectionStateClosed [] [None]).

Definition both : slice.t PeerConnectionState :=
  {| slice.backing := [alice; bob]; slice.len := 2 |}.

(** Stand-ins for [encoding/json] in the examples: a message is written
    [event:data] and the data of a join [roomId/name]. *)
Definition split_at (sep : string) (raw : string) : option (string * string) :=
  match String.index 0 sep raw with
  | Some i => Some (String.substring 0 i raw,
                    String.substring (S i) (String.length raw - S i) raw)
  | None => None
  end.
Definition decode_message (_ : ws.WebsocketMessage) (raw : string)
    : option ws.WebsocketMessage :=
  (fun ed => {| ws.Event := ed.1; ws.Data := ed.2 |}) <$> split_at ":" raw.
Definition decode_join (data : string) : option main.joinData.t :=
  (fun rn => {| main.joinData.RoomID := rn.1; main.joinData.Name := rn.2 |})
    <$> split_at "/" data.

Definition decode_candidate (data : string) : option string := Some data.
Definition decode_answer (data : string) : option webrtc.SessionDescription :=
  Some {| webrtc.sd_type := webrtc.SDPTypeAnswer; webrtc.sd_tracks := [data] |}.

(** Only the first fallible call fails. *)
Definition first_fails : nat -> bool := fun n => bool_decide (n = 0).

(** Alice's session once she has joined the room ["r"] as the first
    client of the server. *)
Definition alice_session : main.Session :=
  {| main.c := 11; main.roomID := "r"; main.userName := "Alice";
     main.room := 0; main.peerConnection := 0 |}.

(** A client joins the room ["r"] without a name, as the first client of
    the server. *)
Definition anonymous_session : main.Session :=
  {| main.c := 11; main.roomID := "r"; main.userName := "Anonymous";
     main.room := 0; main.peerConnection := 0 |}.
Definition after_anonymous_join : main.Server :=
  match main.handshake never decode_message decode_join 11 (Some "join:r/") main.boot with
  | main.Joined _ sv => sv
  | main.Returned sv => sv
  end.

(** The same client when Bob has joined the room before. *)
Definition bob_session : main.Session :=
  {| main.c := 12; main.roomID := "r"; main.userName := "Bob";
     main.room := 0; main.peerConnection := 0 |}.

(** Carol's session once she has joined the room ["r2"] as the first
    client of the server. *)
Definition carol_session : main.Session :=
  {| main.c := 11; main.roomID := "r2"; main.userName := "Carol";
     main.room := 0; main.peerConnection := 0 |}.

(** The transition system with the example decoders. *)
Definition connects (fails : nat -> bool) : main.Sys -> main.Sys -> Prop :=
  main.connects fails decode_message decode_join.
Definition internal (fails : nat -> bool) : main.Sys -> main.Sys -> Prop :=
  main.internal fails decode_message decode_candidate decode_answer.
Definition reachable (fails : nat -> bool) : main.Sys -> Prop :=
  main.reachable fails decode_message decode_join decode_candidate decode_answer.

(** Runs of the server: the steps of the transition system as functions,
    with the example decoders. *)
Definition connect (fails : nat -> bool) (c : nat) (raw : string) (y : main.Sys) : main.Sys :=
  match main.handshake fails decode_message decode_join c (Some raw) (main.server y) with
  | main.Returned sv' =>
      {| main.server := sv'; main.reading := main.reading y;
         main.installed := main.installed y; main.handlers := main.handlers y |}
  | main.Joined s sv' =>
      {| main.server := main.signalRoom fails (main.room s) sv';
         main.reading := s :: main.reading y;
         main.installed := s :: main.installed y; main.handlers := main.handlers y |}
  end.

Definition end_session (s : main.Session) (y : main.Sys) : main.Sys :=
  {| main.server := main.teardown (main.roomID s) (main.peerConnection s) (main.c s)
                      (main.readLoop never decode_message decode_candidate decode_answer
                         s ws.zero [] (main.server y));
     main.reading := filter (fun s' => s' ≠ s) (main.reading y);
     main.installed := main.installed y; main.handlers := main.handlers y |}.

Definition fire (s : main.Session) (t : webrtc.TrackRemote) (y : main.Sys) : main.Sys :=
  let sv := main.startReceiver (main.peerConnection s) t (main.server y) in
  {| main.server := (main.onTrack_label s t sv).2;
     main.reading := main.reading y; main.installed := main.installed y;
     main.handlers := (s, t, main.Labelled (main.onTrack_label s t sv).1)
                      :: main.handlers y |}.

(** The oldest handler goes one phase further. *)
Definition advance (fails : nat -> bool) (y : main.Sys) : main.Sys :=
  match main.handlers y with
  | (s, t, main.Labelled name) :: hs =>
      {| main.server := (main.onTrack_add fails s t name (main.server y)).2;
         main.reading := main.reading y; main.installed := main.installed y;
         main.handlers :=
           (s, t, main.Ingesting name (main.onTrack_add fails s t name (main.server y)).1)
           :: hs |}
  | (s, t, main.Ingesting name trackLocal) :: hs =>
      {| main.server := main.onTrack_unlabel s t (main.server y);
         main.reading := main.reading y; main.installed := main.installed y;
         main.handlers := (s, t, main.Unlabelled trackLocal) :: hs |}
  | (s, t, main.Unlabelled trackLocal) :: hs =>
      {| main.server := main.onTrack_remove fails s trackLocal (main.server y);
         main.reading := main.reading y; main.installed := main.installed y;
         main.handlers := hs |}
  | [] => y
  end.

(** Carol joins ["r2"], her track arrives and is forwarded, her session
    ends, and then the handler of the track tears the track down. *)
Definition carol_joined : main.Sys :=
  Eval vm_compute in connect never 11 "join:r2/Carol" main.start.
Definition carol_uploads : main.Sys :=
  Eval vm_compute in advance never (fire carol_session remote_tA carol_joined).
Definition carol_left : main.Sys :=
  Eval vm_compute in end_session carol_session carol_uploads.
Definition carol_gone : main.Sys :=
  Eval vm_compute in advance never (advance never carol_left).

(** Carol asks to join ["r2"] and her peer-connection cannot be
    constructed. *)
Definition carol_refused : main.Sys :=
  Eval vm_compute in connect first_fails 11 "join:r2/Carol" main.start.

(** Alice joins ["r"] and the handler of her track has recorded the
    label. *)
Definition alice_joined : main.Sys :=
  Eval vm_compute in connect never 11 "join:r/Alice" main.start.

(** Bob joins ["r"], a client without a name joins it, its session ends,
    and then the handler of its track runs. *)
Definition bob_joined : main.Sys :=
  Eval vm_compute in connect never 12 "join:r/Bob" main.start.

(** Bob and Alice are in ["r"]; Bob uploads a track with the identifier
    ["t"], which is forwarded to Alice; then Alice uploads a track with the
    same identifier. *)
Definition alice_second : main.Session :=
  {| main.c := 11; main.roomID := "r"; main.userName := "Alice";
     main.room := 0; main.peerConnection := 1 |}.
Definition bob_t : webrtc.TrackRemote :=
  {| webrtc.tr_id := "t"; webrtc.tr_streamID := "s-B"; webrtc.tr_ssrc := 1 |}.
Definition alice_t : webrtc.TrackRemote :=
  {| webrtc.tr_id := "t"; webrtc.tr_streamID := "s-A"; webrtc.tr_ssrc := 2 |}.
Definition pair_joined : main.Sys :=
  Eval vm_compute in connect never 11 "join:r/Alice" bob_joined.
Definition bob_uploads : main.Sys :=
  Eval vm_compute in advance never (fire bob_session bob_t pair_joined).
Definition same_identifier : main.Sys :=
  Eval vm_compute in advance never (fire alice_second alice_t bob_uploads).

(** Alice joins ["r"], Bob joins it, Alice uploads ["t-A"]; then Alice's
    session ends and the handler of her track tears the track down. *)
Definition fan_out : main.Sys :=
  Eval vm_compute in
    advance never (fire alice_session remote_tA (connect never 12 "join:r/Bob" alice_joined)).
Definition departed : main.Sys :=
  Eval vm_compute in advance never (advance never (end_session alice_session fan_out)).

(** The result of a synchronization of the room, without faults. *)
Definition synced (w : World) : slice.t PeerConnectionState * World :=
  match peer.SignalPeerConnections never 26 (roomLock 0) tracks both names streams w with
  | Some (_, s, w') => (s, w')
  | None => (both, w)
  end.
End example.

(** * Properties *)

Section PeerProperties.
Variable fails : nat -> bool.

(** ** [DispatchKeyFrame] *)

Lemma uint32_SSRC t : webrtc.uint32 (webrtc.SSRC t) = webrtc.SSRC t.
Proof. unfold webrtc.SSRC, webrtc.uint32. by rewrite Z.mod_mod. Qed.

Lemma keyFrameReceivers_trace h rs w :
  ∃ mid,
    trace (peer.keyFrameReceivers fails h rs w) = trace w ++ mid
    ∧ pcs (peer.keyFrameReceivers fails h rs w) = pcs w
    ∧ rtcp_writes mid = pli_for h rs
    ∧ Forall is_rtcp_write mid.
Proof.
  revert w. induction rs as [|[t|] rs IH]; intros w.
  - exists []. by rewrite app_nil_r.
  - destruct (IH (snd (peer.WriteRTCP fails h
               [{| rtcp.SenderSSRC := 0;
                   rtcp.MediaSSRC := webrtc.uint32 (webrtc.SSRC t) |}] w)))
      as (mid & Ht & Hp & Hw & Hall).
    eexists (_ :: mid). unfold peer.keyFrameReceivers in *. cbn [foldl].
    rewrite Ht, Hp. cbn. rewrite <- app_assoc. split_and!; try done.
    + unfold rtcp_writes, pli_for in *. cbn [omap list_omap fmap option_fmap option_map].
      rewrite Hw. cbn. by rewrite uint32_SSRC.
    + constructor; [exact I | done].
  - destruct (IH w) as (mid & ? & ? & ? & ?). exists mid. done.
Qed.

Lemma keyFramePeers_trace ps w :
  let w' := foldl (fun w p =>
              peer.keyFrameReceivers fails (PeerConnection p)
                (webrtc.receivers (pc_at w (PeerConnection p))) w) w ps in
  ∃ mid,
    trace w' = trace w ++ mid
    ∧ pcs w' = pcs w
    ∧ rtcp_writes mid
      = flat_map (fun p => pli_for (PeerConnection p)
                             (webrtc.receivers (pc_at w (PeerConnection p)))) ps
    ∧ Forall is_rtcp_write mid.
Proof.
  revert w. induction ps as [|p ps IH]; intros w; cbn.
  - exists []. by rewrite app_nil_r.
  - destruct (keyFrameReceivers_trace (PeerConnection p)
                (webrtc.receivers (pc_at w (PeerConnection p))) w)
      as (m1 & Ht1 & Hp1 & Hw1 & Ha1).
    destruct (IH (peer.keyFrameReceivers fails (PeerConnection p)
                (webrtc.receivers (pc_at w (PeerConnection p))) w))
      as (m2 & Ht2 & Hp2 & Hw2 & Ha2).
    exists (m1 ++ m2). split_and!.
    + by rewrite Ht2, Ht1, <- app_assoc.
    + by etrans.
    + unfold rtcp_writes in *. rewrite omap_app, Hw1, Hw2. f_equal.
      apply flat_map_ext. intros q. unfold pc_at in *. by rewrite Hp1.
    + by apply Forall_app.
Qed.

Lemma DispatchKeyFrame_frame listLock peerConnections w :
  ∃ scan,
    trace (peer.DispatchKeyFrame fails listLock peerConnections w)
      = trace w ++ [EvLock listLock] ++ scan ++ [EvUnlock listLock]
    ∧ Forall is_rtcp_write scan
    ∧ pcs (peer.DispatchKeyFrame fails listLock peerConnections w) = pcs w.
Proof.
  unfold peer.DispatchKeyFrame.
  destruct (keyFramePeers_trace (slice.elems peerConnections) (emit (EvLock listLock) w))
    as (mid & Ht & Hp & _ & Ha).
  exists mid. cbn in *. rewrite Ht, Hp. cbn. rewrite <- !app_assoc. done.
Qed.

(** C9.  A keyframe dispatch takes the write lock, then performs only
    RTCP writes until it releases the lock; these writes are, peer by
    peer and receiver by receiver, exactly one Picture Loss Indication
    per receiver whose track is not nil, carrying the SSRC of that track.
    This holds whatever the writes return (for every fault oracle): a
    failed write neither stops the scan nor changes anything else. *)
Theorem DispatchKeyFrame_one_PLI_per_receiver listLock peerConnections w :
  ∃ scan,
    trace (peer.DispatchKeyFrame fails listLock peerConnections w)
      = trace w ++ [EvLock listLock] ++ scan ++ [EvUnlock listLock]
    ∧ Forall is_rtcp_write scan
    ∧ rtcp_writes scan
      = flat_map (fun p => pli_for (PeerConnection p)
                             (webrtc.receivers (pc_at w (PeerConnection p))))
          (slice.elems peerConnections)
    ∧ pcs (peer.DispatchKeyFrame fails listLock peerConnections w) = pcs w.
Proof.
  unfold peer.DispatchKeyFrame.
  destruct (keyFramePeers_trace (slice.elems peerConnections) (emit (EvLock listLock) w))
    as (mid & Ht & Hp & Hw & Ha).
  exists mid. cbn in *. rewrite Ht, Hp. cbn. rewrite <- !app_assoc.
  split_and!; done.
Qed.
End PeerProperties.

Lemma sync_step_quiet es :
  Forall is_sync_step es →
  attempts es = [] ∧ spawned es = [] ∧ Forall (fun e => ¬ is_lock_event e) es.
Proof.
  induction 1 as [|e es He _ (IH1 & IH2 & IH3)]; [done|].
  unfold attempts, spawned in *. destruct e; try done; cbn; rewrite ?IH1, ?IH2;
    (split_and!; [done..|]); constructor; cbn; tauto.
Qed.

Lemma track_change_sync_step es : Forall is_track_change es → Forall is_sync_step es.
Proof. intros H. eapply Forall_impl; [exact H|]. by intros []. Qed.

Section SyncTrace.
Variable fails : nat -> bool.
Variable trackLocals : gmap string webrtc.TrackLocalStaticRTP.
Variables trackNames streamNames : gmap string string.

(** ** What an attempt adds to the trace *)

Lemma scanSenders_trace h ss j ex w :
  ∃ es, trace (peer.scanSenders fails trackLocals h j ss ex w).2 = trace w ++ es
        ∧ Forall is_track_change es.
Proof.
  revert j ex w. induction ss as [|[t|] ss IH]; intros j ex w; cbn.
  - exists []. by rewrite app_nil_r.
  - destruct (trackLocals !! webrtc.tl_id t); [apply IH|].
    destruct (fails (tick w)); cbn.
    + eexists [_]. split; [done|]. by repeat constructor.
    + edestruct IH as (es & -> & Hes). cbn. eexists (_ :: es).
      rewrite <- app_assoc. split; [done|]. by constructor.
  - apply IH.
Qed.

Lemma addTracks_trace h ex todo w :
  ∃ es, trace (peer.addTracks fails h ex todo w).2 = trace w ++ es
        ∧ Forall is_track_change es.
Proof.
  revert w. induction todo as [|[id t] todo IH]; intros w; cbn.
  - exists []. by rewrite app_nil_r.
  - case_decide; [apply IH|].
    destruct (fails (tick w)); cbn.
    + eexists [_]. split; [done|]. by repeat constructor.
    + edestruct IH as (es & -> & Hes). cbn. eexists (_ :: es).
      rewrite <- app_assoc. split; [done|]. by constructor.
Qed.

Lemma sendOffer_trace p w :
  ∃ es, trace (peer.sendOffer fails p trackNames streamNames w).2 = trace w ++ es
        ∧ Forall is_sync_step es.
Proof.
  unfold peer.sendOffer, peer.fallible. cbn.
  repeat (match goal with |- context [fails ?n] => destruct (fails n) end; cbn);
    rewrite <- ?app_assoc; eexists; (split; [reflexivity|]); by repeat constructor.
Qed.

Lemma syncPeer_trace p w :
  ∃ es, trace (peer.syncPeer fails trackLocals trackNames streamNames p w).2 = trace w ++ es
        ∧ Forall is_sync_step es.
Proof.
  unfold peer.syncPeer.
  destruct (scanSenders_trace (PeerConnection p)
              (webrtc.senders (pc_at w (PeerConnection p))) 0 ∅ w) as (e1 & H1 & F1).
  apply track_change_sync_step in F1.
  destruct (peer.scanSenders _ _ _ _ _ _ _) as [[r ex] w1]. cbn in H1.
  destruct r; [by exists e1|].
  destruct (addTracks_trace (PeerConnection p)
              (peer.scanReceivers (webrtc.receivers (pc_at w1 (PeerConnection p))) ex)
              (map_to_list trackLocals) w1) as (e2 & H2 & F2).
  destruct (peer.addTracks _ _ _ _ _) as [r w2]. cbn in H2.
  apply track_change_sync_step in F2.
  destruct r.
  - exists (e1 ++ e2). cbn. rewrite H2, H1, <- app_assoc. split; [done|]. by apply Forall_app.
  - destruct (sendOffer_trace p w2) as (e3 & H3 & F3).
    exists (e1 ++ e2 ++ e3). rewrite H3, H2, H1, <- !app_assoc. split; [done|].
    by rewrite !Forall_app.
Qed.

Lemma scanPeers_trace s i todo w :
  ∃ es, trace (peer.scanPeers fails trackLocals trackNames streamNames s i todo w).2
        = trace w ++ es ∧ Forall is_sync_step es.
Proof.
  revert i w. induction todo as [|p todo IH]; intros i w; cbn.
  - exists []. by rewrite app_nil_r.
  - case_decide; [exists []; by rewrite app_nil_r|].
    destruct (syncPeer_trace p w) as (e1 & H1 & F1).
    destruct (peer.syncPeer _ _ _ _ _ _) as [r w1]. cbn in H1.
    destruct r; [by exists e1|].
    destruct (IH (S i) w1) as (e2 & H2 & F2).
    exists (e1 ++ e2). rewrite H2, H1, <- app_assoc. split; [done|]. by apply Forall_app.
Qed.

End SyncTrace.

Section SyncLoop.
Variable fails : nat -> bool.
Variable listLock : LockId.
Variable trackLocals : gmap string webrtc.TrackLocalStaticRTP.
Variables trackNames streamNames : gmap string string.

(** ** The retry loop *)

Lemma attempts_app es1 es2 : attempts (es1 ++ es2) = attempts es1 ++ attempts es2.
Proof. apply omap_app. Qed.
Lemma spawned_app es1 es2 : spawned (es1 ++ es2) = spawned es1 ++ spawned es2.
Proof. apply omap_app. Qed.

(** The loop started at attempt number [k] with enough fuel returns, and
    its attempts are numbered [k], [k+1], ... and stop before 25. *)
Lemma syncLoop_returns fuel k s w :
  k ≤ 25 → 26 - k ≤ fuel →
  ∃ exit s' w' es outs,
    peer.syncLoop fails fuel listLock trackLocals trackNames streamNames k s w
      = Some (exit, s', w')
    ∧ trace w' = trace w ++ es
    ∧ Forall (fun e => ¬ is_lock_event e) es
    ∧ attempts es = zip (seq k (length outs)) outs
    ∧ k + length outs ≤ 25
    ∧ match exit with
      | peer.SyncDone =>
          (∃ n, outs = replicate n true ++ [false]) ∧ spawned es = []
      | peer.SyncRescheduled =>
          outs = replicate (25 - k) true
          ∧ spawned es = [GoResync 3000000000 listLock trackLocals s'
                            trackNames streamNames]
      end.
Proof.
  revert k s w. induction fuel as [|fuel IH]; intros k s w Hk Hfuel; [lia|].
  cbn [peer.syncLoop]. case_decide as Hk25.
  - subst k. eexists _, _, _, [_], []. cbn. split_and!; try done.
    repeat constructor. cbn. tauto.
  - unfold peer.attemptSync.
    destruct (scanPeers_trace fails trackLocals trackNames streamNames s 0
                (slice.elems s) w) as (e1 & H1 & F1).
    destruct (peer.scanPeers _ _ _ _ _ _ _ _) as [[again s1] w1]. cbn in H1.
    destruct (sync_step_quiet e1 F1) as (Ha1 & Hs1 & Hl1).
    destruct again.
    + destruct (IH (S k) s1 (emit (EvAttemptSync k true) w1))
        as (exit & s' & w' & es & outs & Heq & Ht & Hl & Ha & Hlen & Hex); [lia..|].
      exists exit, s', w', (e1 ++ EvAttemptSync k true :: es), (true :: outs).
      rewrite Heq, Ht. cbn. rewrite H1, <- !app_assoc.
      rewrite attempts_app, spawned_app, Ha1, Hs1. cbn.
      fold (attempts es). fold (spawned es). rewrite Ha.
      split_and!; try done; [|lia|].
      * apply Forall_app. split; [done|]. constructor; [cbn; tauto|done].
      * destruct exit.
        -- destruct Hex as [[n ->] ?]. split; [by exists (S n)|done].
        -- destruct Hex as [-> ?]. split; [|done].
           replace (25 - k) with (S (25 - S k)) by lia. done.
    + exists peer.SyncDone, s1, (emit (EvAttemptSync k false) w1),
        (e1 ++ [EvAttemptSync k false]), [false].
      cbn. rewrite H1, <- !app_assoc, attempts_app, spawned_app, Ha1, Hs1. cbn.
      split_and!; try done; [|lia|by exists 0].
      apply Forall_app. split; [done|]. repeat constructor. cbn. tauto.
Qed.

(** C2.  A call of the synchronizer returns (with fuel for 26 rounds of
    the loop the model never runs out).  What it does is: take the lock,
    make at most 25 attempts numbered from 0, each but the last one
    having asked for a retry, release the lock, and dispatch a keyframe
    request under the lock again.  Either the last attempt did not ask
    for a retry and no goroutine was started, or all 25 attempts asked
    for a retry, and then no further attempt is made: exactly one
    goroutine is started, which will synchronize the same room after
    3 seconds (3 000 000 000 ns). *)
Theorem SignalPeerConnections_at_most_25_attempts fuel s w :
  26 ≤ fuel →
  ∃ exit s' w' body scan outs,
    peer.SignalPeerConnections fails fuel listLock trackLocals s
      trackNames streamNames w = Some (exit, s', w')
    ∧ trace w' = trace w ++ [EvLock listLock] ++ body ++ [EvUnlock listLock]
                   ++ [EvLock listLock] ++ scan ++ [EvUnlock listLock]
    ∧ Forall (fun e => ¬ is_lock_event e) body
    ∧ Forall is_rtcp_write scan
    ∧ attempts body = zip (seq 0 (length outs)) outs
    ∧ length outs ≤ 25
    ∧ match exit with
      | peer.SyncDone =>
          (∃ n, outs = replicate n true ++ [false]) ∧ spawned body = []
      | peer.SyncRescheduled =>
          outs = replicate 25 true
          ∧ spawned body = [GoResync 3000000000 listLock trackLocals s'
                              trackNames streamNames]
      end.
Proof.
  intros Hfuel. unfold peer.SignalPeerConnections.
  destruct (syncLoop_returns fuel 0 s (emit (EvLock listLock) w))
    as (exit & s' & w' & es & outs & Heq & Ht & Hl & Ha & Hlen & Hex); [lia..|].
  rewrite Heq.
  destruct (DispatchKeyFrame_frame fails listLock s'
              (emit (EvUnlock listLock) w')) as (scan & Hk & Hw & _).
  eexists exit, s', _, es, scan, outs. split; [reflexivity|]. rewrite Hk. cbn. rewrite Ht. cbn.
  rewrite <- !app_assoc. cbn. split_and!; try done.
Qed.
End SyncLoop.

(** ** The world between the steps of an attempt *)

Lemma pc_at_set_pc_eq h pc w : pc_at (set_pc h pc w) h = pc.
Proof. unfold pc_at, set_pc. cbn. by rewrite lookup_total_insert_eq. Qed.

Lemma pc_at_set_pc_ne h h' pc w : h' ≠ h → pc_at (set_pc h pc w) h' = pc_at w h'.
Proof. intros. unfold pc_at, set_pc. cbn. by rewrite lookup_total_insert_ne. Qed.

Lemma media_unchanged_refl w : media_unchanged w w.
Proof. by intros h. Qed.

Lemma media_unchanged_trans w1 w2 w3 :
  media_unchanged w1 w2 → media_unchanged w2 w3 → media_unchanged w1 w3.
Proof.
  intros H1 H2 h. destruct (H1 h) as [<- <-]. apply H2.
Qed.

Lemma media_unchanged_set_senders h ss w w' :
  (∀ h', pc_at w' h' = pc_at w h') →
  media_unchanged w (set_pc h (webrtc.set_senders ss (pc_at w' h)) w').
Proof.
  intros Hw h'. destruct (decide (h' = h)) as [->|Hne].
  - rewrite pc_at_set_pc_eq. cbn. by rewrite Hw.
  - rewrite pc_at_set_pc_ne by done. by rewrite Hw.
Qed.

Lemma senders_unchanged_but_refl h w : senders_unchanged_but h w w.
Proof. by intros h'. Qed.

Lemma senders_unchanged_but_trans h w1 w2 w3 :
  senders_unchanged_but h w1 w2 → senders_unchanged_but h w2 w3 →
  senders_unchanged_but h w1 w3.
Proof. intros H1 H2 h' Hne. rewrite H2 by done. by apply H1. Qed.

Lemma ids_of_senders_app ss1 ss2 :
  ids_of_senders (ss1 ++ ss2) = ids_of_senders ss1 ∪ ids_of_senders ss2.
Proof. unfold ids_of_senders. by rewrite omap_app, list_to_set_app_L. Qed.

Lemma ids_of_senders_cons_Some t ss :
  ids_of_senders (Some t :: ss) = {[ webrtc.tl_id t ]} ∪ ids_of_senders ss.
Proof. done. Qed.

Lemma ids_of_senders_cons_None ss : ids_of_senders (None :: ss) = ids_of_senders ss.
Proof. done. Qed.

Section SyncState.
Variable fails : nat -> bool.
Variable trackLocals : gmap string webrtc.TrackLocalStaticRTP.
Variables trackNames streamNames : gmap string string.

(** What the scan of the senders leaves: the senders whose track is no
    longer in the room have lost their track (all of them when the scan
    was not cut short). *)
Lemma scanSenders_spec h ss pre ex w :
  webrtc.senders (pc_at w h) = pre ++ ss →
  ∃ ss',
    let r := peer.scanSenders fails trackLocals h (length pre) ss ex w in
    media_unchanged w r.2
    ∧ senders_unchanged_but h w r.2
    ∧ webrtc.senders (pc_at r.2 h) = pre ++ ss'
    ∧ ids_of_senders ss' ⊆ ids_of_senders ss
    ∧ (r.1.1 = false →
       r.1.2 = ids_of_senders ss ∪ ex
       ∧ ids_of_senders ss' = ids_of_senders ss ∩ dom trackLocals)
    ∧ (ids_of_senders ss ⊆ dom trackLocals →
       r = (false, ids_of_senders ss ∪ ex, w)).
Proof.
  revert pre ex w. induction ss as [|[t|] ss IH]; intros pre ex w Hs.
  - exists []. cbn. split_and!.
    + apply media_unchanged_refl.
    + apply senders_unchanged_but_refl.
    + done.
    + done.
    + intros _. split; set_solver.
    + intros _. f_equal. f_equal. set_solver.
  - cbn [peer.scanSenders].
    destruct (trackLocals !! webrtc.tl_id t) as [t'|] eqn:Hlk.
    + destruct (IH (pre ++ [Some t]) ({[webrtc.tl_id t]} ∪ ex) w) as (ss' & IHr).
      { by rewrite <- app_assoc. }
      rewrite length_app in IHr. cbn [length] in IHr.
      replace (length pre + 1) with (S (length pre)) in IHr by lia.
      cbn zeta in IHr. destruct IHr as (Hm & Hf & Hsd & Hsub & Hok & Hnoop).
      exists (Some t :: ss'). cbn zeta. rewrite !ids_of_senders_cons_Some.
      assert (webrtc.tl_id t ∈ dom trackLocals) by (apply elem_of_dom; eauto).
      split_and!.
      * done.
      * done.
      * by rewrite Hsd, <- app_assoc.
      * set_solver.
      * intros Hr. destruct (Hok Hr) as [-> ->]. split; set_solver.
      * intros Hall. rewrite Hnoop by set_solver. f_equal. f_equal. set_solver.
    + unfold peer.fallible. cbn [fst snd]. destruct (fails (tick w)) eqn:Hfail.
      * exists (Some t :: ss). cbn zeta. cbn [fst snd]. split_and!.
        -- by intros ?.
        -- by intros ? ?.
        -- done.
        -- done.
        -- done.
        -- intros Hall. exfalso.
           assert (webrtc.tl_id t ∈ dom trackLocals) as Hin
             by (rewrite ids_of_senders_cons_Some in Hall; set_solver).
           apply elem_of_dom in Hin as [? ?]. congruence.
      * cbn [negb].
        set (w1 := set_pc h _ _).
        assert (webrtc.senders (pc_at w1 h) = (pre ++ [None]) ++ ss) as Hs1.
        { unfold w1. rewrite pc_at_set_pc_eq. cbn.
          change (pc_at (emit _ (next_tick w)) h) with (pc_at w h). rewrite Hs.
          rewrite insert_app_r_alt by done. rewrite Nat.sub_diag. cbn.
          by rewrite <- app_assoc. }
        destruct (IH (pre ++ [None]) ({[webrtc.tl_id t]} ∪ ex) w1 Hs1) as (ss' & IHr).
        rewrite length_app in IHr. cbn [length] in IHr.
        replace (length pre + 1) with (S (length pre)) in IHr by lia.
        cbn zeta in IHr. destruct IHr as (Hm & Hf & Hsd & Hsub & Hok & Hnoop).
        assert (media_unchanged w w1) as Hm1.
        { unfold w1. by apply media_unchanged_set_senders. }
        assert (senders_unchanged_but h w w1) as Hf1.
        { intros h' Hne. unfold w1. by rewrite pc_at_set_pc_ne. }
        exists (None :: ss'). rewrite ids_of_senders_cons_Some, ids_of_senders_cons_None.
        assert (webrtc.tl_id t ∉ dom trackLocals) by (by apply not_elem_of_dom).
        cbn zeta. split_and!.
        -- by eapply media_unchanged_trans.
        -- by eapply senders_unchanged_but_trans.
        -- by rewrite Hsd, <- app_assoc.
        -- set_solver.
        -- intros Hr. destruct (Hok Hr) as [-> ->]. split; set_solver.
        -- intros Hall. set_solver.
  - cbn [peer.scanSenders].
    destruct (IH (pre ++ [None]) ex w) as (ss' & IHr).
    { by rewrite <- app_assoc. }
    rewrite length_app in IHr. cbn [length] in IHr.
    replace (length pre + 1) with (S (length pre)) in IHr by lia.
    cbn zeta in IHr. destruct IHr as (Hm & Hf & Hsd & Hsub & Hok & Hnoop).
    exists (None :: ss'). cbn zeta. rewrite !ids_of_senders_cons_None.
    split_and!; [done|done| |done|done|done]. by rewrite Hsd, <- app_assoc.
Qed.
End SyncState.

Lemma sender_ids_unfold pc : webrtc.sender_ids pc = ids_of_senders (webrtc.senders pc).
Proof. done. Qed.

Lemma scanReceivers_spec rs ex :
  peer.scanReceivers rs ex = list_to_set (omap (fmap webrtc.tr_id) rs) ∪ ex.
Proof.
  revert ex. induction rs as [|[t|] rs IH]; intros ex; cbn.
  - set_solver.
  - unfold peer.scanReceivers in IH. rewrite IH. set_solver.
  - apply IH.
Qed.

Section SyncPeer.
Variable fails : nat -> bool.
Variable trackLocals : gmap string webrtc.TrackLocalStaticRTP.
Variables trackNames streamNames : gmap string string.

(** What the loop over the room's tracks leaves: the senders that were
    there, and a sender for tracks whose key is not in the sending set
    (for all of them when the loop was not cut short). *)
Lemma addTracks_spec h ex todo w :
  let r := peer.addTracks fails h ex todo w in
  media_unchanged w r.2
  ∧ senders_unchanged_but h w r.2
  ∧ (∀ id, id ∈ webrtc.sender_ids (pc_at r.2 h) →
           id ∈ webrtc.sender_ids (pc_at w h)
           ∨ (∃ k t, (k, t) ∈ todo ∧ (k ∉ ex) ∧ webrtc.tl_id t = id))
  ∧ webrtc.sender_ids (pc_at w h) ⊆ webrtc.sender_ids (pc_at r.2 h)
  ∧ (r.1 = false → ∀ k t, (k, t) ∈ todo → k ∉ ex →
                   webrtc.tl_id t ∈ webrtc.sender_ids (pc_at r.2 h))
  ∧ ((∀ k t, (k, t) ∈ todo → k ∈ ex) → r = (false, w)).
Proof.
  revert w. induction todo as [|[k t] todo IH]; intros w; cbn zeta.
  - cbn. split_and!.
    + apply media_unchanged_refl.
    + apply senders_unchanged_but_refl.
    + intros id ?. by left.
    + done.
    + intros _ k t Hin. by apply elem_of_nil in Hin.
    + done.
  - cbn [peer.addTracks]. case_decide as Hk.
    + destruct (IH w) as (Hm & Hf & Hnew & Hold & Hall & Hnoop).
      split_and!; try done.
      * intros id Hid. destruct (Hnew id Hid) as [?|(k' & t' & ? & ? & ?)]; [by left|].
        right. exists k', t'. split_and!; try done. by right.
      * intros Hr k' t' [[= -> ->]|Hin]%elem_of_cons Hnot; [done|]. by eapply Hall.
      * intros Hin. apply Hnoop. intros k' t' ?. eapply Hin. by right.
    + unfold peer.fallible. cbn [fst snd]. destruct (fails (tick w)) eqn:Hfail.
      * cbn [negb fst snd]. split_and!.
        -- by intros ?.
        -- by intros ? ?.
        -- intros id Hid. by left.
        -- done.
        -- done.
        -- intros Hin. exfalso. apply Hk. eapply Hin. by left.
      * cbn [negb]. set (w1 := set_pc h _ _).
        assert (webrtc.sender_ids (pc_at w1 h)
                = webrtc.sender_ids (pc_at w h) ∪ {[webrtc.tl_id t]}) as Hs1.
        { unfold w1. rewrite pc_at_set_pc_eq. rewrite !sender_ids_unfold.
          unfold webrtc.set_senders. cbn [webrtc.senders].
          change (pc_at (emit _ (next_tick w)) h) with (pc_at w h).
          rewrite ids_of_senders_app, ids_of_senders_cons_Some. set_solver. }
        assert (media_unchanged w w1) as Hm1.
        { unfold w1. by apply media_unchanged_set_senders. }
        assert (senders_unchanged_but h w w1) as Hf1.
        { intros h' Hne. unfold w1. by rewrite pc_at_set_pc_ne. }
        destruct (IH w1) as (Hm & Hf & Hnew & Hold & Hall & Hnoop).
        split_and!.
        -- by eapply media_unchanged_trans.
        -- by eapply senders_unchanged_but_trans.
        -- intros id Hid. destruct (Hnew id Hid) as [Hin|(k' & t' & ? & ? & ?)].
           ++ rewrite Hs1 in Hin. apply elem_of_union in Hin as [?|Heq]; [by left|].
              apply elem_of_singleton in Heq as ->. right. exists k, t.
              split_and!; try done. by left.
           ++ right. exists k', t'. split_and!; try done. by right.
        -- set_solver.
        -- intros Hr k' t' [[= -> ->]|Hin]%elem_of_cons Hnot.
           ++ apply Hold. rewrite Hs1. set_solver.
           ++ by eapply Hall.
        -- intros Hin. exfalso. apply Hk. eapply Hin. by left.
Qed.

(** Sending the offer touches no sender, no receiver and no connection
    state; when it succeeds it has made three calls: [CreateOffer],
    [SetLocalDescription] and the write of the ["offer"] message. *)
Lemma sendOffer_spec p w :
  let r := peer.sendOffer fails p trackNames streamNames w in
  let h := PeerConnection p in
  media_unchanged w r.2
  ∧ (∀ h', webrtc.senders (pc_at r.2 h') = webrtc.senders (pc_at w h'))
  ∧ (r.1 = false →
     trace r.2 = trace w ++
       [EvCreateOffer h true; EvSetLocalDescription h true;
        EvWriteJSON (Websocket p) "offer"
          (DataOffer (peer.offerOf (pc_at r.2 h)) trackNames streamNames) true]
     ∧ webrtc.localDescription (pc_at r.2 h) = Some (peer.offerOf (pc_at r.2 h))).
Proof.
  unfold peer.sendOffer, peer.fallible. cbn zeta. cbn [fst snd].
  destruct (fails (tick w)); cbn [negb fst snd].
  { split_and!; [by intros ?|done|done]. }
  destruct (fails _); cbn [negb fst snd].
  { split_and!; [by intros ?|done|done]. }
  set (w1 := set_pc _ _ _).
  assert (media_unchanged w w1 ∧
          ∀ h', webrtc.senders (pc_at w1 h') = webrtc.senders (pc_at w h')) as [Hm Hs].
  { split; intros h'; destruct (decide (h' = PeerConnection p)) as [->|Hne];
      unfold w1; rewrite ?pc_at_set_pc_eq, ?pc_at_set_pc_ne by done; done. }
  destruct (fails _); cbn [negb fst snd]; [done|].
  destruct (fails _); cbn [negb fst snd]; [done|].
  destruct (fails _); cbn [negb fst snd]; [done|].
  split_and!; [done|done|]. intros _.
  unfold w1, set_pc, emit, next_tick, pc_at, peer.offerOf. cbn.
  rewrite !lookup_total_insert_eq. cbn. rewrite <- !app_assoc. done.
Qed.
End SyncPeer.

(** ** Splicing an element out of a slice in place *)

Section SliceFacts.
Context {A : Type}.
Implicit Types s : slice.t A.

Lemma elems_remove_at i s :
  i < slice.len s → slice.len s ≤ length (slice.backing s) →
  slice.elems (slice.remove_at i s) = delete i (slice.elems s).
Proof.
  intros Hi Hlen. unfold slice.elems, slice.remove_at. cbn.
  set (b := slice.backing s) in *. set (m := slice.len s) in *.
  rewrite app_assoc.
  assert (length (take i b ++ drop (S i) (take m b)) = m - 1) as Hl.
  { rewrite length_app, length_drop, !length_take. lia. }
  rewrite take_app_length' by done.
  rewrite delete_take_drop, take_take. f_equal. f_equal. lia.
Qed.

Lemma length_backing_remove_at i s :
  i < slice.len s → slice.len s ≤ length (slice.backing s) →
  length (slice.backing (slice.remove_at i s)) = length (slice.backing s).
Proof.
  intros Hi Hlen. unfold slice.remove_at. cbn.
  rewrite !length_app, !length_drop, !length_take. lia.
Qed.

(** Whoever holds the old, longer slice over the same array sees no
    element it did not see before. *)
Lemma remove_at_view_subset i s n x :
  i < slice.len s → slice.len s ≤ n → n ≤ length (slice.backing s) →
  x ∈ take n (slice.backing (slice.remove_at i s)) →
  x ∈ take n (slice.backing s).
Proof.
  intros Hi Hn Hlen. unfold slice.remove_at. cbn.
  set (b := slice.backing s) in *. set (m := slice.len s) in *.
  rewrite app_assoc.
  assert (length (take i b ++ drop (S i) (take m b)) = m - 1) as Hl.
  { rewrite length_app, length_drop, !length_take. lia. }
  rewrite take_app_ge by lia. rewrite Hl.
  intros [Hx|Hx]%elem_of_app.
  - assert (x ∈ take m b) as Hm.
    { apply elem_of_app in Hx as [Hx|Hx].
      - rewrite <- (take_drop i (take m b)). apply elem_of_app. left.
        by rewrite take_take, Nat.min_l by lia.
      - rewrite <- (take_drop (S i) (take m b)). apply elem_of_app. by right. }
    rewrite <- (take_drop m (take n b)). apply elem_of_app. left.
    by rewrite take_take, Nat.min_l by lia.
  - rewrite take_drop_commute in Hx.
    replace (m - 1 + (n - (m - 1))) with n in Hx by lia.
    rewrite <- (take_drop (m - 1) (take n b)). apply elem_of_app. by right.
Qed.
End SliceFacts.

Lemma in_sync_ext trackLocals pc pc' :
  webrtc.senders pc' = webrtc.senders pc → webrtc.receivers pc' = webrtc.receivers pc →
  in_sync trackLocals pc → in_sync trackLocals pc'.
Proof. unfold in_sync, webrtc.sender_ids, webrtc.receiver_ids. by intros -> ->. Qed.

Lemma loopback_free_ext trackLocals pc pc' :
  webrtc.senders pc' = webrtc.senders pc → webrtc.receivers pc' = webrtc.receivers pc →
  loopback_free trackLocals pc → loopback_free trackLocals pc'.
Proof. unfold loopback_free, webrtc.sender_ids, webrtc.receiver_ids. by intros -> ->. Qed.

Section OfferPerPeer.
Variable fails : nat -> bool.
Variable trackLocals : gmap string webrtc.TrackLocalStaticRTP.
Variables trackNames streamNames : gmap string string.

(** C10.  When the scan of an attempt is at a peer that is not closed
    and the body of the loop gets through without an error, then beyond
    attaching and detaching tracks it has created an offer, installed it
    as the local description and written it to the peer's websocket as
    an ["offer"] message carrying the offer, [trackNames] and
    [streamNames]; then the scan goes on with the next peer.  This does
    not depend on any track having been attached or detached: for a
    peer that was already in sync nothing is attached or detached and
    the offer is sent all the same. *)
Theorem attemptSync_offers_every_peer_it_reaches s i p todo w w1 :
  webrtc.connectionState (pc_at w (PeerConnection p)) ≠ webrtc.PeerConnectionStateClosed →
  peer.syncPeer fails trackLocals trackNames streamNames p w = (false, w1) →
  peer.scanPeers fails trackLocals trackNames streamNames s i (p :: todo) w
    = peer.scanPeers fails trackLocals trackNames streamNames s (S i) todo w1
  ∧ ∃ changes,
      trace w1 = trace w ++ changes ++
        [EvCreateOffer (PeerConnection p) true;
         EvSetLocalDescription (PeerConnection p) true;
         EvWriteJSON (Websocket p) "offer"
           (DataOffer (peer.offerOf (pc_at w1 (PeerConnection p)))
              trackNames streamNames) true]
      ∧ Forall is_track_change changes
      ∧ webrtc.localDescription (pc_at w1 (PeerConnection p))
        = Some (peer.offerOf (pc_at w1 (PeerConnection p)))
      ∧ (webrtc.sender_ids (pc_at w (PeerConnection p)) ⊆ dom trackLocals →
         dom trackLocals ⊆ webrtc.sender_ids (pc_at w (PeerConnection p))
                           ∪ webrtc.receiver_ids (pc_at w (PeerConnection p)) →
         changes = []).
Proof.
  intros Hopen Hbody. split.
  { cbn [peer.scanPeers]. rewrite decide_False by done. by rewrite Hbody. }
  revert Hbody. unfold peer.syncPeer. set (h := PeerConnection p).
  destruct (scanSenders_trace fails trackLocals h (webrtc.senders (pc_at w h)) 0 ∅ w)
    as (e1 & H1 & F1).
  destruct (scanSenders_spec fails trackLocals h (webrtc.senders (pc_at w h)) [] ∅ w eq_refl)
    as (ss' & Hspec). cbn zeta in Hspec. cbn [length] in Hspec.
  destruct Hspec as (Hm1 & _ & _ & _ & Hok1 & Hnoop1).
  destruct (peer.scanSenders _ _ _ _ _ _ _) as [[r ex] w2]. cbn [fst snd] in *.
  destruct r; [done|]. destruct (Hok1 eq_refl) as [-> _].
  destruct (addTracks_trace fails h
              (peer.scanReceivers (webrtc.receivers (pc_at w2 h))
                 (ids_of_senders (webrtc.senders (pc_at w h)) ∪ ∅))
              (map_to_list trackLocals) w2) as (e2 & H2 & F2).
  destruct (addTracks_spec fails h
              (peer.scanReceivers (webrtc.receivers (pc_at w2 h))
                 (ids_of_senders (webrtc.senders (pc_at w h)) ∪ ∅))
              (map_to_list trackLocals) w2) as (_ & _ & _ & _ & _ & Hnoop2).
  destruct (peer.addTracks _ _ _ _ _) as [r w3]. cbn [fst snd] in *.
  destruct r; [done|].
  destruct (sendOffer_spec fails trackNames streamNames p w3) as (_ & _ & Hoffer).
  intros Hbody. rewrite Hbody in Hoffer. cbn [fst snd] in Hoffer.
  destruct (Hoffer eq_refl) as [Ht Hd].
  exists (e1 ++ e2). split_and!.
  - rewrite Ht, H2, H1. by rewrite <- !app_assoc.
  - by apply Forall_app.
  - done.
  - intros HS HD.
    assert (w2 = w) as ->.
    { specialize (Hnoop1 HS). congruence. }
    assert (w3 = w) as ->.
    { assert ((false, w3) = (false, w)) as Heq; [|congruence].
      apply Hnoop2. intros k t Hkt%elem_of_map_to_list.
      rewrite scanReceivers_spec.
      assert (k ∈ dom trackLocals) as Hk by (apply elem_of_dom; eauto).
      apply HD in Hk. unfold webrtc.sender_ids, webrtc.receiver_ids, ids_of_senders in *.
      set_solver. }
    apply (f_equal length) in H1, H2. rewrite length_app in H1, H2.
    destruct e1, e2; cbn in *; try done; lia.
Qed.
End OfferPerPeer.

Section SyncRound.
Variable fails : nat -> bool.
Variable trackLocals : gmap string webrtc.TrackLocalStaticRTP.
Variables trackNames streamNames : gmap string string.
Hypothesis keyed : keyed_by_id trackLocals.

(** The senders of a peer after the body of the loop: nothing is
    attached that the peer receives itself; and when the body got
    through, the senders are the old ones still in the room, and the
    tracks of the room that the peer neither sent nor receives. *)
Lemma syncPeer_spec p w :
  let r := peer.syncPeer fails trackLocals trackNames streamNames p w in
  let h := PeerConnection p in
  media_unchanged w r.2
  ∧ senders_unchanged_but h w r.2
  ∧ (∀ id, id ∈ webrtc.sender_ids (pc_at r.2 h) →
           id ∈ webrtc.sender_ids (pc_at w h)
           ∨ (id ∈ dom trackLocals ∧ id ∉ webrtc.receiver_ids (pc_at w h)))
  ∧ (r.1 = false →
     webrtc.sender_ids (pc_at r.2 h)
     = (webrtc.sender_ids (pc_at w h) ∩ dom trackLocals)
       ∪ (dom trackLocals ∖ (webrtc.sender_ids (pc_at w h)
                             ∪ webrtc.receiver_ids (pc_at w h)))).
Proof.
  cbn zeta. unfold peer.syncPeer. set (h := PeerConnection p).
  destruct (scanSenders_spec fails trackLocals h (webrtc.senders (pc_at w h)) [] ∅ w eq_refl)
    as (ss' & Hspec). cbn zeta in Hspec. cbn [length] in Hspec.
  destruct Hspec as (Hm1 & Hf1 & Hs1 & Hsub1 & Hok1 & _).
  destruct (peer.scanSenders _ _ _ _ _ _ _) as [[r ex] w2]. cbn [fst snd] in *.
  rewrite app_nil_l in Hs1.
  assert (webrtc.sender_ids (pc_at w2 h) = ids_of_senders ss') as Hids2
    by (by rewrite sender_ids_unfold, Hs1).
  destruct r; cbn [fst snd].
  { split_and!; [done|done| |done]. intros id. rewrite Hids2, sender_ids_unfold.
    intros ?. left. set_solver. }
  destruct (Hok1 eq_refl) as [-> Hids1].
  assert (webrtc.receivers (pc_at w2 h) = webrtc.receivers (pc_at w h)) as HR
    by apply Hm1.
  rewrite HR, scanReceivers_spec.
  fold (webrtc.receiver_ids (pc_at w h)).
  set (ex := webrtc.receiver_ids (pc_at w h) ∪ _).
  destruct (addTracks_spec fails h ex (map_to_list trackLocals) w2)
    as (Hm2 & Hf2 & Hnew2 & Hold2 & Hall2 & _).
  destruct (peer.addTracks _ _ _ _ _) as [r w3]. cbn [fst snd] in *.
  assert (∀ id, id ∈ webrtc.sender_ids (pc_at w3 h) →
                id ∈ webrtc.sender_ids (pc_at w h)
                ∨ (id ∈ dom trackLocals ∧ (id ∉ webrtc.receiver_ids (pc_at w h))
                   ∧ (id ∉ webrtc.sender_ids (pc_at w h)))) as Hnew.
  { intros id Hid. destruct (Hnew2 id Hid) as [Hin|(k & t & Hkt & Hk & <-)].
    - left. rewrite Hids2 in Hin. rewrite sender_ids_unfold. set_solver.
    - apply elem_of_map_to_list in Hkt. rewrite (keyed _ _ Hkt). right.
      split; [apply elem_of_dom; eauto|]. unfold ex in Hk.
      rewrite sender_ids_unfold. set_solver. }
  destruct r; cbn [fst snd].
  { split_and!; [by eapply media_unchanged_trans|by eapply senders_unchanged_but_trans
                 | |done].
    intros id Hid. destruct (Hnew id Hid) as [?|(? & ? & ?)]; [by left|by right]. }
  destruct (sendOffer_spec fails trackNames streamNames p w3) as (Hm3 & Hs3 & _).
  destruct (peer.sendOffer _ _ _ _ _) as [r w4]. cbn [fst snd] in *.
  assert (webrtc.sender_ids (pc_at w4 h) = webrtc.sender_ids (pc_at w3 h)) as Hids4
    by (by rewrite !sender_ids_unfold, Hs3).
  split_and!.
  - eapply media_unchanged_trans; [|exact Hm3]. by eapply media_unchanged_trans.
  - intros h' Hne. rewrite Hs3. by eapply senders_unchanged_but_trans.
  - intros id. rewrite Hids4. intros Hid.
    destruct (Hnew id Hid) as [?|(? & ? & ?)]; [by left|by right].
  - intros _. rewrite Hids4. apply set_eq. intros id. split.
    + intros Hid. destruct (Hnew id Hid) as [Hin|(? & ? & ?)]; [|set_solver].
      destruct (Hnew2 id Hid) as [Hin2|(k & t & Hkt & Hk & <-)].
      * rewrite Hids2, Hids1 in Hin2. set_solver.
      * apply elem_of_map_to_list in Hkt. rewrite (keyed _ _ Hkt) in *.
        unfold ex in Hk. rewrite sender_ids_unfold in Hin. set_solver.
    + intros [Hid|Hid]%elem_of_union.
      * apply Hold2. rewrite Hids2, Hids1. rewrite sender_ids_unfold in Hid. done.
      * apply elem_of_difference in Hid as [[t Ht]%elem_of_dom Hnot].
        rewrite <- (keyed _ _ Ht). apply (Hall2 eq_refl id t).
        -- by apply elem_of_map_to_list.
        -- unfold ex. rewrite sender_ids_unfold in Hnot. set_solver.
Qed.

Lemma syncPeer_keeps_loopback_free p w h' :
  loopback_free trackLocals (pc_at w h') →
  loopback_free trackLocals
    (pc_at (peer.syncPeer fails trackLocals trackNames streamNames p w).2 h').
Proof.
  destruct (syncPeer_spec p w) as (Hm & Hf & Hnew & _).
  destruct (decide (h' = PeerConnection p)) as [->|Hne].
  - intros HLF id Hid HR.
    assert (webrtc.receiver_ids
              (pc_at (peer.syncPeer fails trackLocals trackNames streamNames p w).2
                 (PeerConnection p))
            = webrtc.receiver_ids (pc_at w (PeerConnection p))) as HReq.
    { unfold webrtc.receiver_ids. f_equal. f_equal. apply Hm. }
    rewrite HReq in HR.
    destruct (Hnew id Hid) as [?|[? ?]]; [by apply HLF|done].
  - apply loopback_free_ext; [by apply Hf|apply Hm].
Qed.

Lemma syncPeer_makes_in_sync p w :
  (peer.syncPeer fails trackLocals trackNames streamNames p w).1 = false →
  loopback_free trackLocals (pc_at w (PeerConnection p)) →
  in_sync trackLocals
    (pc_at (peer.syncPeer fails trackLocals trackNames streamNames p w).2
       (PeerConnection p)).
Proof.
  destruct (syncPeer_spec p w) as (Hm & Hf & _ & Hok).
  intros Hr HLF. unfold in_sync. rewrite (Hok Hr).
  assert (webrtc.receiver_ids
            (pc_at (peer.syncPeer fails trackLocals trackNames streamNames p w).2
               (PeerConnection p))
          = webrtc.receiver_ids (pc_at w (PeerConnection p))) as ->.
  { unfold webrtc.receiver_ids. f_equal. f_equal. apply Hm. }
  unfold loopback_free in HLF. apply set_eq. intros id.
  destruct (decide (id ∈ webrtc.sender_ids (pc_at w (PeerConnection p))));
    set_solver.
Qed.

Lemma syncPeer_keeps_in_sync p w h' :
  (peer.syncPeer fails trackLocals trackNames streamNames p w).1 = false →
  in_sync trackLocals (pc_at w h') →
  in_sync trackLocals
    (pc_at (peer.syncPeer fails trackLocals trackNames streamNames p w).2 h').
Proof.
  destruct (syncPeer_spec p w) as (Hm & Hf & _ & Hok).
  intros Hr. destruct (decide (h' = PeerConnection p)) as [->|Hne].
  - intros Hin. unfold in_sync in *. rewrite (Hok Hr).
    assert (webrtc.receiver_ids
              (pc_at (peer.syncPeer fails trackLocals trackNames streamNames p w).2
                 (PeerConnection p))
            = webrtc.receiver_ids (pc_at w (PeerConnection p))) as ->.
    { unfold webrtc.receiver_ids. f_equal. f_equal. apply Hm. }
    rewrite Hin. set_solver.
  - apply in_sync_ext; [by apply Hf|apply Hm].
Qed.

(** The scan of the peers from index [i] on. *)
Lemma scanPeers_spec s i todo w :
  let r := peer.scanPeers fails trackLocals trackNames streamNames s i todo w in
  media_unchanged w r.2
  ∧ ((∀ h, loopback_free trackLocals (pc_at w h)) →
     ∀ h, loopback_free trackLocals (pc_at r.2 h))
  ∧ (r.1.1 = false →
     r.1.2 = s
     ∧ (∀ h, in_sync trackLocals (pc_at w h) → in_sync trackLocals (pc_at r.2 h))
     ∧ ((∀ h, loopback_free trackLocals (pc_at w h)) →
        ∀ p, p ∈ todo → in_sync trackLocals (pc_at r.2 (PeerConnection p))))
  ∧ (r.1.2 = s
     ∨ ∃ j p, todo !! j = Some p
              ∧ webrtc.connectionState (pc_at w (PeerConnection p))
                = webrtc.PeerConnectionStateClosed
              ∧ r.1.2 = slice.remove_at (i + j) s).
Proof.
  revert i w. induction todo as [|p todo IH]; intros i w; cbn zeta.
  - cbn. split_and!; [apply media_unchanged_refl|done| |by left].
    intros _. split_and!; [done|done|]. intros _ p Hp. by apply elem_of_nil in Hp.
  - cbn [peer.scanPeers]. case_decide as Hclosed.
    { cbn. split_and!; [apply media_unchanged_refl|done|done|].
      right. exists 0, p. by rewrite Nat.add_0_r. }
    destruct (syncPeer_spec p w) as (Hm1 & _).
    pose proof (syncPeer_keeps_loopback_free p w) as HLF1.
    pose proof (syncPeer_makes_in_sync p w) as Hmk1.
    pose proof (syncPeer_keeps_in_sync p w) as Hkp1.
    destruct (peer.syncPeer _ _ _ _ _ _) as [r1 w1]. cbn [fst snd] in *.
    destruct r1; cbn [fst snd].
    { split_and!; [done|by intros ? ?; apply HLF1|done|by left]. }
    destruct (IH (S i) w1) as (Hm & HLF & Hok & Hsl).
    destruct (peer.scanPeers _ _ _ _ _ _ _ _) as [[r s2] w2]. cbn [fst snd] in *.
    split_and!.
    + by eapply media_unchanged_trans.
    + intros H0. apply HLF. intros h. by apply HLF1.
    + intros Hr. destruct (Hok Hr) as (-> & Hkeep & Hall). split_and!; [done| |].
      * intros h Hh. apply Hkeep. by apply Hkp1.
      * intros H0 q [->|Hq]%elem_of_cons.
        -- apply Hkeep. by apply Hmk1.
        -- apply Hall; [|done]. intros h. by apply HLF1.
    + destruct Hsl as [->|(j & q & Hj & Hq & ->)]; [by left|].
      right. exists (S j), q. split_and!; [done| |f_equal; lia].
      by rewrite <- (proj1 (Hm1 _)).
Qed.

Lemma view_inv_remove_at w n s j p :
  view_inv w n s → slice.elems s !! j = Some p →
  webrtc.connectionState (pc_at w (PeerConnection p)) = webrtc.PeerConnectionStateClosed →
  view_inv w n (slice.remove_at j s).
Proof.
  intros (Hlen & Hcap & Hin) Hj Hclosed.
  assert (j < slice.len s) as Hlt.
  { apply lookup_lt_Some in Hj. unfold slice.elems in Hj.
    rewrite length_take in Hj. lia. }
  split_and!.
  - cbn. lia.
  - rewrite length_backing_remove_at by lia. done.
  - intros q Hq Hopen. rewrite elems_remove_at by lia.
    apply remove_at_view_subset in Hq; [|lia..].
    apply Hin in Hq; [|done].
    apply list_elem_of_lookup in Hq as [k Hk].
    destruct (decide (k = j)) as [->|Hne]; [congruence|].
    apply list_elem_of_lookup.
    destruct (decide (k < j)).
    + exists k. by rewrite list_lookup_delete_lt by lia.
    + exists (k - 1). rewrite list_lookup_delete_ge by lia.
      by replace (S (k - 1)) with k by lia.
Qed.

(** The retry loop: the slice shrinks only by closed peers, and when the
    loop ends with an attempt that got through, every peer of the slice
    is in sync. *)
Lemma syncLoop_spec listLock w0 n fuel k s w exit s' w' :
  peer.syncLoop fails fuel listLock trackLocals trackNames streamNames k s w
    = Some (exit, s', w') →
  media_unchanged w0 w → view_inv w0 n s →
  (∀ h, loopback_free trackLocals (pc_at w h)) →
  media_unchanged w0 w'
  ∧ view_inv w0 n s'
  ∧ (∀ h, loopback_free trackLocals (pc_at w' h))
  ∧ (exit = peer.SyncDone →
     ∀ p, p ∈ slice.elems s' → in_sync trackLocals (pc_at w' (PeerConnection p))).
Proof.
  revert k s w. induction fuel as [|fuel IH]; intros k s w; [done|].
  cbn [peer.syncLoop]. case_decide.
  { intros [= <- <- <-] Hm Hv HLF. split_and!; done. }
  unfold peer.attemptSync.
  destruct (scanPeers_spec s 0 (slice.elems s) w) as (Hm1 & HLF1 & Hok1 & Hsl1).
  destruct (peer.scanPeers _ _ _ _ _ _ _ _) as [[again s1] w1]. cbn [fst snd] in *.
  intros Hloop Hm Hv HLF.
  assert (view_inv w0 n s1) as Hv1.
  { destruct Hsl1 as [->|(j & p & Hj & Hp & ->)]; [done|].
    eapply view_inv_remove_at; [done|done|]. by rewrite <- (proj1 (Hm _)). }
  destruct again.
  - eapply (IH _ _ _ Hloop); [|done|].
    + intros h. apply (media_unchanged_trans _ _ _ Hm Hm1).
    + intros h. by apply HLF1.
  - injection Hloop as <- <- <-. destruct (Hok1 eq_refl) as (-> & _ & Hall).
    split_and!; [by eapply media_unchanged_trans|done|by apply HLF1|].
    intros _ p Hp. by apply Hall.
Qed.
End SyncRound.

Section SyncContract.
Variable fails : nat -> bool.
Variable trackLocals : gmap string webrtc.TrackLocalStaticRTP.
Variables trackNames streamNames : gmap string string.

(** C1, as the code has it.  Let the tracks of the room be keyed by their
    own identifier, and let no peer-connection send, when the round
    starts, a track of the room under an identifier of a track it
    receives.  After a round that ends with an attempt that did not ask
    for a retry, every peer of the room's list whose connection is not
    closed is in the list the synchronizer ends with, and the
    identifiers of the tracks attached as its senders are exactly the
    keys of the room's tracks minus the identifiers of the tracks it
    receives; in particular none of its senders carries an identifier of
    a track it receives. *)
Theorem sync_round_attaches_all_but_own fuel listLock s w s' w' :
  keyed_by_id trackLocals →
  slice.len s ≤ length (slice.backing s) →
  (∀ h, loopback_free trackLocals (pc_at w h)) →
  peer.SignalPeerConnections fails fuel listLock trackLocals s trackNames streamNames w
    = Some (peer.SyncDone, s', w') →
  ∀ p, p ∈ slice.elems (slice.caller_view s s') →
       webrtc.connectionState (pc_at w' (PeerConnection p))
         ≠ webrtc.PeerConnectionStateClosed →
       p ∈ slice.elems s'
       ∧ webrtc.sender_ids (pc_at w' (PeerConnection p))
         = dom trackLocals ∖ webrtc.receiver_ids (pc_at w' (PeerConnection p))
       ∧ webrtc.sender_ids (pc_at w' (PeerConnection p))
         ## webrtc.receiver_ids (pc_at w' (PeerConnection p)).
Proof.
  intros Hkeyed Hwf HLF. unfold peer.SignalPeerConnections.
  destruct (peer.syncLoop _ _ _ _ _ _ _ _ _) as [[[exit s1] w1]|] eqn:Hloop; [|done].
  intros [= -> -> <-] p Hp Hopen.
  destruct (DispatchKeyFrame_frame fails listLock s' (emit (EvUnlock listLock) w1))
    as (_ & _ & _ & Hpcs).
  assert (∀ h, pc_at (peer.DispatchKeyFrame fails listLock s'
                        (emit (EvUnlock listLock) w1)) h = pc_at w1 h) as Hsame.
  { intros h. unfold pc_at. by rewrite Hpcs. }
  rewrite Hsame in *.
  destruct (syncLoop_spec fails trackLocals trackNames streamNames Hkeyed
              listLock w (slice.len s) _ _ _ _ _ _ _ Hloop)
    as (Hm & (_ & _ & Hview) & _ & Hdone).
  - by intros h.
  - split_and!; [done|done|]. by intros q Hq _.
  - done.
  - assert (p ∈ slice.elems s') as Hin.
    { apply Hview; [done|]. by rewrite <- (proj1 (Hm _)). }
    specialize (Hdone eq_refl p Hin). unfold in_sync in Hdone.
    split_and!; [done|done|]. rewrite Hdone. set_solver.
Qed.
End SyncContract.

(** A round on the fresh room: Bob gets Alice's track. *)
Lemma sync_round_attaches_all_but_own_witness :
  example.bob ∈ slice.elems (example.synced example.fresh).1
  ∧ webrtc.sender_ids (pc_at (example.synced example.fresh).2 2)
    = dom example.tracks ∖ webrtc.receiver_ids (pc_at (example.synced example.fresh).2 2)
  ∧ webrtc.sender_ids (pc_at (example.synced example.fresh).2 2)
    ## webrtc.receiver_ids (pc_at (example.synced example.fresh).2 2).
Proof.
  apply (sync_round_attaches_all_but_own example.never example.tracks example.names
           example.streams 26 (roomLock 0) example.both example.fresh
           (example.synced example.fresh).1 (example.synced example.fresh).2
           ltac:(unfold keyed_by_id, example.tracks;
                 intros k t [<- <-]%lookup_singleton_Some; reflexivity)
           ltac:(cbn; lia)).
  - intros h id Hs. exfalso. revert Hs.
    unfold pc_at, example.fresh, example.world_of. cbn [pcs].
    destruct (decide (h = 1)) as [->|H1]; [vm_compute; intros; discriminate|].
    destruct (decide (h = 2)) as [->|H2]; [vm_compute; intros; discriminate|].
    rewrite lookup_total_insert_ne, lookup_total_singleton_ne by done.
    vm_compute. intros; discriminate.
  - vm_compute. reflexivity.
  - apply (list_elem_of_lookup_2 _ 1). vm_compute. reflexivity.
  - vm_compute. discriminate.
Defined.



(** A call with the smallest sufficient fuel on the fresh room. *)
Lemma SignalPeerConnections_at_most_25_attempts_witness :
  ∃ exit s' w' body scan outs,
    peer.SignalPeerConnections example.always 26 (roomLock 0) example.tracks
      example.both example.names example.streams example.fresh = Some (exit, s', w')
    ∧ trace w' = trace example.fresh ++ [EvLock (roomLock 0)] ++ body
                   ++ [EvUnlock (roomLock 0)]
                   ++ [EvLock (roomLock 0)] ++ scan ++ [EvUnlock (roomLock 0)]
    ∧ Forall (fun e => ¬ is_lock_event e) body
    ∧ Forall is_rtcp_write scan
    ∧ attempts body = zip (seq 0 (length outs)) outs
    ∧ length outs ≤ 25
    ∧ match exit with
      | peer.SyncDone =>
          (∃ n, outs = replicate n true ++ [false]) ∧ spawned body = []
      | peer.SyncRescheduled =>
          outs = replicate 25 true
          ∧ spawned body = [GoResync 3000000000 (roomLock 0) example.tracks s'
                              example.names example.streams]
      end.
Proof.
  apply (SignalPeerConnections_at_most_25_attempts example.always (roomLock 0)
           example.tracks example.names example.streams 26 example.both example.fresh).
  lia.
Defined.

(** With every library call failing, the fresh room goes through 25
    attempts and is rescheduled. *)
Lemma always_failing_round_is_rescheduled :
  ∃ s' w',
    peer.SignalPeerConnections example.always 26 (roomLock 0) example.tracks
      example.both example.names example.streams example.fresh
      = Some (peer.SyncRescheduled, s', w')
    ∧ length (attempts (trace w')) = 25
    ∧ spawned (trace w')
      = [GoResync (time_Second * 3) (roomLock 0) example.tracks s'
           example.names example.streams].
Proof. eexists _, _. split_and!; vm_compute; reflexivity. Qed.

(** Bob, connected and with nothing attached, is reached by the scan. *)
Lemma attemptSync_offers_every_peer_it_reaches_witness :
  let w1 := (peer.syncPeer example.never example.tracks example.names example.streams
               example.bob example.fresh).2 in
  peer.scanPeers example.never example.tracks example.names example.streams
    example.both 1 [example.bob] example.fresh
  = peer.scanPeers example.never example.tracks example.names example.streams
      example.both 2 [] w1
  ∧ ∃ changes,
      trace w1 = trace example.fresh ++ changes ++
        [EvCreateOffer 2 true; EvSetLocalDescription 2 true;
         EvWriteJSON 12 "offer"
           (DataOffer (peer.offerOf (pc_at w1 2)) example.names example.streams) true]
      ∧ Forall is_track_change changes
      ∧ webrtc.localDescription (pc_at w1 2) = Some (peer.offerOf (pc_at w1 2))
      ∧ (webrtc.sender_ids (pc_at example.fresh 2) ⊆ dom example.tracks →
         dom example.tracks ⊆ webrtc.sender_ids (pc_at example.fresh 2)
                               ∪ webrtc.receiver_ids (pc_at example.fresh 2) →
         changes = []).
Proof.
  apply (attemptSync_offers_every_peer_it_reaches example.never example.tracks
           example.names example.streams example.both 1 example.bob [] example.fresh).
  - vm_compute. discriminate.
  - vm_compute. reflexivity.
Defined.

(** C6 on the code.  The room's list is Alice, Bob, and Bob's connection
    is closed.  The synchronizer finds Bob closed, splices him out of its
    own copy of the slice and retries; it ends with the list Alice.  The
    room keeps its own length over the shared array: after the call its
    list is still Alice, Bob. *)
Lemma closed_peer_stays_in_the_room_list :
  ∃ s' w',
    peer.SignalPeerConnections example.never 26 (roomLock 0) example.tracks
      example.both example.names example.streams example.bob_closed
      = Some (peer.SyncDone, s', w')
    ∧ attempts (trace w') = [(0, true); (1, false)]
    ∧ slice.elems s' = [example.alice]
    ∧ slice.elems (slice.caller_view example.both s') = [example.alice; example.bob]
    ∧ webrtc.connectionState (pc_at w' (PeerConnection example.bob))
      = webrtc.PeerConnectionStateClosed.
Proof. eexists _, _. split_and!; vm_compute; reflexivity. Qed.

(** ** The ingest loop *)

Section Ingest.
Variable fails : nat -> bool.
Variable rtp_Unmarshal : rtp.Packet -> list Z -> option rtp.Packet.


End Ingest.

(** ** The join *)

Section Join.
Variable fails : nat -> bool.
Variable json_Unmarshal_message : ws.WebsocketMessage -> string -> option ws.WebsocketMessage.
Variable json_Unmarshal_joinData : string -> option main.joinData.t.
Variable json_Unmarshal_candidate : string -> option string.
Variable json_Unmarshal_answer : string -> option webrtc.SessionDescription.

#[local] Abbreviation websocketHandler :=
  (main.websocketHandler fails json_Unmarshal_message json_Unmarshal_joinData
     json_Unmarshal_candidate json_Unmarshal_answer).
#[local] Abbreviation rejected :=
  (main.rejected json_Unmarshal_message json_Unmarshal_joinData).

(** C7.  When the first message does not decode, is not a ["join"], has
    data that do not decode, or has an empty room identifier, the handler
    returns, whatever the client would have sent next, having done nothing
    but close the websocket: the registry and the rooms are as before (no
    room was created, no peer registered), and so are the heap of
    peer-connections and the allocation counters (no peer-connection was
    constructed; no fallible call was even made). *)
Theorem rejected_join_touches_nothing c raw rest sv :
  rejected raw →
  let sv' := websocketHandler c (Some raw :: rest) sv in
  main.rooms sv' = main.rooms sv
  ∧ main.heap sv' = main.heap sv
  ∧ main.nextRoom sv' = main.nextRoom sv
  ∧ main.nextPC sv' = main.nextPC sv
  ∧ pcs (main.world sv') = pcs (main.world sv)
  ∧ tick (main.world sv') = tick (main.world sv)
  ∧ trace (main.world sv') = trace (main.world sv) ++ [EvCloseWebsocket c].
Proof.
  intros Hrej. cbn zeta.
  assert (websocketHandler c (Some raw :: rest) sv = main.log [EvCloseWebsocket c] sv)
    as ->; [|by split_and!].
  unfold main.websocketHandler, main.handshake.
  destruct Hrej as [Hm|m Hm He|m Hm Hd|m jd Hm Hd Hr]; rewrite Hm.
  - done.
  - apply String.eqb_neq in He. by rewrite He.
  - destruct (String.eqb _ _); [cbn|done]. by rewrite Hd.
  - destruct (String.eqb _ _); [cbn|done]. rewrite Hd, Hr. done.
Qed.
End Join.

(** A join without a room identifier, on the server that has just
    started. *)
Lemma rejected_join_touches_nothing_witness :
  let sv' := main.websocketHandler example.never example.decode_message
               example.decode_join example.decode_candidate example.decode_answer
               11 [Some "join:/Carol"; Some "candidate:c"] main.boot in
  main.rooms sv' = main.rooms main.boot
  ∧ main.heap sv' = main.heap main.boot
  ∧ main.nextRoom sv' = main.nextRoom main.boot
  ∧ main.nextPC sv' = main.nextPC main.boot
  ∧ pcs (main.world sv') = pcs (main.world main.boot)
  ∧ tick (main.world sv') = tick (main.world main.boot)
  ∧ trace (main.world sv') = trace (main.world main.boot) ++ [EvCloseWebsocket 11].
Proof.
  apply (rejected_join_touches_nothing example.never example.decode_message
           example.decode_join example.decode_candidate example.decode_answer
           11 "join:/Carol" [Some "candidate:c"] main.boot).
  eapply main.rejected_room; vm_compute; reflexivity.
Defined.

(** ** The registry and the rooms *)

Lemma room_at_set_room_eq ptr r sv : main.room_at (main.set_room ptr r sv) ptr = r.
Proof. unfold main.room_at, main.set_room. cbn. by rewrite lookup_total_insert_eq. Qed.

Lemma room_at_set_room_ne ptr ptr' r sv :
  ptr' ≠ ptr → main.room_at (main.set_room ptr r sv) ptr' = main.room_at sv ptr'.
Proof. intros. unfold main.room_at, main.set_room. cbn. by rewrite lookup_total_insert_ne. Qed.


Section Rooms.
Variable fails : nat -> bool.

(** The synchronizer leaves the registry, and of every room the tracks,
    the labels and the length of the list of peers. *)
Lemma signalRoom_spec ptr sv :
  main.rooms (main.signalRoom fails ptr sv) = main.rooms sv
  ∧ ∀ ptr',
      main.TrackLocals (main.room_at (main.signalRoom fails ptr sv) ptr')
      = main.TrackLocals (main.room_at sv ptr')
      ∧ main.TrackNames (main.room_at (main.signalRoom fails ptr sv) ptr')
        = main.TrackNames (main.room_at sv ptr')
      ∧ main.StreamNames (main.room_at (main.signalRoom fails ptr sv) ptr')
        = main.StreamNames (main.room_at sv ptr')
      ∧ slice.len (main.PeerConnections (main.room_at (main.signalRoom fails ptr sv) ptr'))
        = slice.len (main.PeerConnections (main.room_at sv ptr')).
Proof.
  unfold main.signalRoom.
  destruct (peer.SignalPeerConnections _ _ _ _ _ _ _ _) as [[[exit theirs] w]|]; [|done].
  split; [done|]. intros ptr'.
  change (main.room_at (main.set_world w ?x) ptr') with (main.room_at x ptr').
  destruct (decide (ptr' = ptr)) as [->|Hne].
  - by rewrite room_at_set_room_eq.
  - by rewrite room_at_set_room_ne.
Qed.

Lemma onTrack_label_rooms s t sv :
  main.rooms (main.onTrack_label s t sv).2 = main.rooms sv.
Proof. done. Qed.

Lemma track_AddTrack_rooms t ptr sv :
  main.rooms (main.track_AddTrack fails t ptr sv).2 = main.rooms sv.
Proof. unfold main.track_AddTrack. cbn. by rewrite (proj1 (signalRoom_spec _ _)). Qed.

Lemma onTrack_add_rooms s t name sv :
  main.rooms (main.onTrack_add fails s t name sv).2 = main.rooms sv.
Proof.
  unfold main.onTrack_add, main.onTrack_labelLocal.
  pose proof (track_AddTrack_rooms t (main.room s) sv) as H.
  destruct (main.track_AddTrack _ _ _ _) as [tl sv1]. cbn in H.
  by destruct (negb _).
Qed.

Lemma onTrack_unlabel_rooms s t sv :
  main.rooms (main.onTrack_unlabel s t sv) = main.rooms sv.
Proof. done. Qed.

Lemma onTrack_remove_rooms s tl sv :
  main.rooms (main.onTrack_remove fails s tl sv) = main.rooms sv.
Proof.
  unfold main.onTrack_remove, main.track_RemoveTrack.
  by rewrite (proj1 (signalRoom_spec _ _)).
Qed.

Lemma keyframeTick_rooms sv : main.rooms (main.keyframeTick fails sv) = main.rooms sv.
Proof.
  unfold main.keyframeTick.
  generalize (map_to_list (main.rooms (main.log [EvRLock roomsLock; EvRUnlock roomsLock] sv))).
  change (main.rooms sv)
    with (main.rooms (main.log [EvRLock roomsLock; EvRUnlock roomsLock] sv)).
  generalize (main.log [EvRLock roomsLock; EvRUnlock roomsLock] sv).
  intros sv0 l. revert sv0. induction l as [|kv l IH]; intros sv0; [done|].
  cbn [foldl]. by rewrite IH.
Qed.
End Rooms.

(** ** Runs of the server *)

Lemma connect_step fails c raw y :
  example.connects fails y (example.connect fails c raw y).
Proof.
  unfold example.connect, example.connects.
  destruct (main.handshake _ _ _ _ _ _) as [sv'|s sv'] eqn:Hhs.
  - by eapply main.connect_returned.
  - by eapply main.connect_joined.
Qed.

Lemma end_session_step fails s y :
  s ∈ main.reading y → example.internal fails y (example.end_session s y).
Proof. intros Hs. by apply (main.session_ends _ _ _ _ y s ws.zero []). Qed.

Lemma fire_step fails s t y :
  s ∈ main.installed y → example.internal fails y (example.fire s t y).
Proof.
  intros Hs. eapply main.track_fires; [done|]. unfold example.fire. cbn zeta.
  by destruct (main.onTrack_label s t _).
Qed.

Lemma advance_step fails y :
  main.handlers y ≠ [] → example.internal fails y (example.advance fails y).
Proof.
  unfold example.advance, example.internal.
  destruct (main.handlers y) as [|[[s t] [name|name tl|tl]] hs] eqn:Hh;
    [done|..]; intros _.
  - eapply main.track_added with (hs1 := []) (hs2 := hs); [done|].
    by destruct (main.onTrack_add _ _ _ _ _).
  - by eapply main.track_unlabelled with (hs1 := []) (hs2 := hs).
  - by eapply main.track_removed with (hs1 := []) (hs2 := hs).
Qed.

(** C1 as stated fails.  Bob and Alice are in the room ["r"].  Bob uploads
    a track with the identifier ["t"]; it is forwarded, and Alice's
    peer-connection gets a sender for it.  Then Alice uploads a track with
    the same identifier ["t"].  In the state reached the room's tracks have
    the key ["t"], and Alice both sends and receives ["t"].  A
    synchronization round from there, without any fault, ends without
    asking for a retry and changes nothing about it: Alice is in the room's
    list, her connection is not closed, and the identifiers of her senders
    are not the keys of the room's tracks minus the identifiers she
    receives. *)
Lemma sync_round_keeps_a_loopback_sender :
  let r := main.room_at (main.server example.same_identifier) 0 in
  example.reachable example.never
    example.same_identifier
  ∧ ∃ s' w',
      peer.SignalPeerConnections example.never 26 (roomLock 0) (main.TrackLocals r)
        (main.PeerConnections r) (main.TrackNames r) (main.StreamNames r)
        (main.world (main.server example.same_identifier))
      = Some (peer.SyncDone, s', w')
      ∧ {| PeerConnection := 1; Websocket := 11; Name := "Alice" |}
          ∈ slice.elems (slice.caller_view (main.PeerConnections r) s')
      ∧ webrtc.connectionState (pc_at w' 1) ≠ webrtc.PeerConnectionStateClosed
      ∧ "t" ∈ dom (main.TrackLocals r)
      ∧ "t" ∈ webrtc.sender_ids (pc_at w' 1)
      ∧ "t" ∈ webrtc.receiver_ids (pc_at w' 1)
      ∧ webrtc.sender_ids (pc_at w' 1)
        ≠ dom (main.TrackLocals r) ∖ webrtc.receiver_ids (pc_at w' 1).
Proof.
  cbn zeta. split.
  { eapply rtc_l.
    { left. exact (connect_step example.never 12 "join:r/Bob" main.start
                   <: example.connects example.never main.start example.bob_joined). }
    eapply rtc_l.
    { left. exact (connect_step example.never 11 "join:r/Alice" example.bob_joined
                   <: example.connects example.never example.bob_joined example.pair_joined). }
    eapply rtc_l.
    { right. apply (fire_step example.never example.bob_session example.bob_t).
      apply list_elem_of_lookup. exists 1. reflexivity. }
    eapply rtc_l.
    { right. exact (advance_step example.never
                      (example.fire example.bob_session example.bob_t example.pair_joined)
                      ltac:(vm_compute; discriminate)
                    <: example.internal example.never
                         (example.fire example.bob_session example.bob_t
                            example.pair_joined) example.bob_uploads). }
    eapply rtc_l.
    { right. apply (fire_step example.never example.alice_second example.alice_t).
      apply list_elem_of_here. }
    eapply rtc_l; [|apply rtc_refl]. right.
    exact (advance_step example.never
             (example.fire example.alice_second example.alice_t example.bob_uploads)
             ltac:(vm_compute; discriminate)
           <: example.internal example.never
                (example.fire example.alice_second example.alice_t example.bob_uploads)
                example.same_identifier). }
  eexists _, _. split; [vm_compute; reflexivity|].
  split; [apply list_elem_of_lookup; exists 1; vm_compute; reflexivity|].
  split; [vm_compute; discriminate|].
  split; [refine (bool_decide_unpack _ _); vm_compute; exact I|].
  split; [refine (bool_decide_unpack _ _); vm_compute; exact I|].
  split; [refine (bool_decide_unpack _ _); vm_compute; exact I|].
  intros Heq. apply (f_equal (fun X : gset string => bool_decide ("t" ∈ X))) in Heq.
  vm_compute in Heq. discriminate.
Qed.

(** ** The server as a whole *)

Section System.
Variable fails : nat -> bool.
Variable json_Unmarshal_message : ws.WebsocketMessage -> string -> option ws.WebsocketMessage.
Variable json_Unmarshal_candidate : string -> option string.
Variable json_Unmarshal_answer : string -> option webrtc.SessionDescription.

#[local] Abbreviation internal :=
  (main.internal fails json_Unmarshal_message json_Unmarshal_candidate
     json_Unmarshal_answer).

Lemma onICECandidate_rooms s i sv :
  main.rooms (main.onICECandidate fails s i sv) = main.rooms sv.
Proof.
  unfold main.onICECandidate, main.fallible, peer.fallible. destruct i; [|done]. cbn.
  by destruct (fails _).
Qed.

Lemma onConnectionStateChange_rooms s p sv :
  main.rooms (main.onConnectionStateChange fails s p sv) = main.rooms sv.
Proof. destruct p; try done. apply signalRoom_spec. Qed.

(** Rooms are deleted by the teardown of a session only: once no session
    is in its read loop, nothing the server does on its own changes the
    registry. *)
Lemma internal_keeps_registry y y' :
  internal y y' → main.reading y = [] →
  main.rooms (main.server y') = main.rooms (main.server y) ∧ main.reading y' = [].
Proof.
  intros Hstep Hnone. destruct Hstep; cbn.
  - rewrite Hnone in *. by apply elem_of_nil in H.
  - split; [apply onICECandidate_rooms|done].
  - split; [by rewrite onConnectionStateChange_rooms|done].
  - split; [|done].
    replace sv' with (main.onTrack_label s t
                        (main.startReceiver (main.peerConnection s) t (main.server y))).2
      by (by rewrite H0).
    done.
  - split; [|done]. rewrite <- (onTrack_add_rooms fails s t name (main.server y)).
    by rewrite H0.
  - done.
  - split; [apply onTrack_remove_rooms|done].
  - split; [apply keyframeTick_rooms|done].
Qed.

Lemma internal_rtc_keeps_registry y y' :
  rtc internal y y' → main.reading y = [] →
  main.rooms (main.server y') = main.rooms (main.server y).
Proof.
  induction 1 as [|y y1 y2 Hstep _ IH]; [done|]. intros Hnone.
  destruct (internal_keeps_registry _ _ Hstep Hnone) as [<- Hnone1]. by apply IH.
Qed.
End System.


(** ** Labels and tracks *)





Lemma room_at_log es sv ptr : main.room_at (main.log es sv) ptr = main.room_at sv ptr.
Proof. done. Qed.

Ltac simpl_room_at :=
  repeat first [ rewrite room_at_log
               | rewrite room_at_set_room_eq
               | rewrite room_at_set_room_ne by done ].

Section Labels.
Variable fails : nat -> bool.



End Labels.



(** ** The display name *)

Lemma elems_append {A} (zero : A) (s : slice.t A) (x : A) :
  slice.len s ≤ length (slice.backing s) →
  slice.elems (slice.append zero s x) = slice.elems s ++ [x].
Proof.
  intros Hwf. unfold slice.append, slice.elems. case_decide as Hroom; cbn.
  - rewrite (take_S_r _ _ x) by (by apply list_lookup_insert_eq).
    by rewrite take_insert_ge.
  - assert (slice.len s = length (slice.backing s)) as Hlen by lia.
    rewrite Hlen, firstn_all, cons_middle, app_assoc.
    rewrite take_app_length'; [done|]. rewrite length_app. cbn. lia.
Qed.


Section DisplayName.
Variable fails : nat -> bool.
Variable json_Unmarshal_message : ws.WebsocketMessage -> string -> option ws.WebsocketMessage.
Variable json_Unmarshal_joinData : string -> option main.joinData.t.

#[local] Abbreviation handshake :=
  (main.handshake fails json_Unmarshal_message json_Unmarshal_joinData).
#[local] Abbreviation joins :=
  (main.joins json_Unmarshal_message json_Unmarshal_joinData).


End DisplayName.



(** The same happens to a room whose only peer has uploaded a track, when
    the session ends before the track's handler has torn the track down:
    remove-peer finds a track and keeps the room, the teardown of the track
    then empties the room, and nothing deletes it. *)
Lemma room_outlives_its_last_peer_and_track :
  example.reachable example.never
    example.carol_gone
  ∧ main.rooms (main.server example.carol_gone) !! "r2" = Some 0
  ∧ room_empty (main.room_at (main.server example.carol_gone) 0)
  ∧ main.reading example.carol_gone = []
  ∧ main.handlers example.carol_gone = []
  ∧ ∀ y', rtc (example.internal example.never) example.carol_gone y' →
          main.rooms (main.server y') !! "r2" = Some 0.
Proof.
  split.
  { eapply rtc_l.
    { left. exact (connect_step example.never 11 "join:r2/Carol" main.start
                   <: example.connects example.never
                        main.start example.carol_joined). }
    eapply rtc_l.
    { right. apply (fire_step example.never example.carol_session example.remote_tA).
      apply list_elem_of_here. }
    eapply rtc_l.
    { right. exact (advance_step example.never
                      (example.fire example.carol_session example.remote_tA
                         example.carol_joined) ltac:(vm_compute; discriminate)
                    <: example.internal example.never
                         (example.fire example.carol_session example.remote_tA
                            example.carol_joined) example.carol_uploads). }
    eapply rtc_l.
    { right. exact (end_session_step example.never example.carol_session
                      example.carol_uploads (list_elem_of_here _ _)
                    <: example.internal example.never example.carol_uploads
                         example.carol_left). }
    eapply rtc_l.
    { right. apply (advance_step example.never example.carol_left).
      vm_compute. discriminate. }
    eapply rtc_l; [|apply rtc_refl].
    right. exact (advance_step example.never (example.advance example.never example.carol_left)
                    ltac:(vm_compute; discriminate)
                  <: example.internal example.never
                       (example.advance example.never example.carol_left)
                       example.carol_gone). }
  split; [vm_compute; reflexivity|].
  split; [split; vm_compute; reflexivity|].
  split; [reflexivity|]. split; [reflexivity|].
  intros y' Hrtc. rewrite (internal_rtc_keeps_registry _ _ _ _ _ _ Hrtc eq_refl).
  vm_compute. reflexivity.
Qed.

(** The scenario of the specification: Carol joins ["r2"], uploads no
    track and disconnects; afterwards ["r2"] is not in the registry. *)
Example carol_joins_and_leaves :
  main.rooms (main.websocketHandler example.never example.decode_message
                example.decode_join example.decode_candidate example.decode_answer
                11 [Some "join:r2/Carol"] main.boot) = ∅.
Proof. vm_compute. reflexivity. Qed.

(** The scenario of the specification: Alice and Bob are in ["r"] and
    Alice uploads ["t-A"].  The last offer Bob is sent announces ["t-A"]
    with the label Alice, the last offer Alice is sent announces no track,
    and Bob's peer-connection sends ["t-A"] while Alice's sends nothing. *)
Example two_peer_fan_out :
  drop 3 (offers (trace (main.world (main.server example.fan_out))))
  = [(11, [], {["t-A" := "Alice"]}, {["s-A" := "Alice"]});
     (12, ["t-A"], {["t-A" := "Alice"]}, {["s-A" := "Alice"]})]
  ∧ webrtc.senders (pc_at (main.world (main.server example.fan_out)) 1)
    = [Some example.local_tA]
  ∧ webrtc.senders (pc_at (main.world (main.server example.fan_out)) 0) = [].
Proof. split_and!; vm_compute; reflexivity. Qed.

(** The scenario of the specification: Alice then leaves.  Once her track
    is torn down Bob's peer-connection has no sender with a track, the last
    offer sent is Bob's and announces no track, and the labels are gone. *)
Example departure_triggers_resync :
  webrtc.sender_ids (pc_at (main.world (main.server example.departed)) 1) = ∅
  ∧ last (offers (trace (main.world (main.server example.departed))))
    = Some (12, [], ∅, ∅)
  ∧ Name <$> slice.elems (main.PeerConnections
                            (main.room_at (main.server example.departed) 0))
    = ["Bob"].
Proof. split_and!; vm_compute; reflexivity. Qed.

(** * Further properties *)

(** ** The index page *)

(** X1.  The handler of the index page hands the template a WebSocket
    URL made of a scheme, the Host of the request and [/websocket].  The
    scheme is the plain [ws://] exactly when the Host begins with
    [localhost] or with [127.0.0.1] (whatever follows, so also for a host
    such as [localhost.example.org]), and [wss://] in every other case. *)
Theorem wsURL_is_plain_exactly_for_local_hosts host :
  String.prefix "ws://" (main.wsURL host)
  = orb (String.prefix "localhost" host) (String.prefix "127.0.0.1" host)
  ∧ String.prefix "wss://" (main.wsURL host)
    = negb (orb (String.prefix "localhost" host) (String.prefix "127.0.0.1" host))
  ∧ ∃ protocol, main.wsURL host = String.append protocol (String.append host "/websocket")
                ∧ (protocol = "ws://" ∨ protocol = "wss://").
Proof.
  unfold main.wsURL.
  destruct (orb _ _); cbn [negb];
    (split_and!; [by destruct host|by destruct host|]); eexists; split; eauto.
Qed.

(** ** The registry *)

Lemma log_trace es sv :
  trace (main.world (main.log es sv)) = trace (main.world sv) ++ es.
Proof.
  unfold main.log. cbn. generalize (main.world sv). 
  induction es as [|e es IH]; intros w; cbn; [by rewrite app_nil_r|].
  rewrite IH. cbn. by rewrite <- app_assoc.
Qed.

Lemma log_pcs es sv : pcs (main.world (main.log es sv)) = pcs (main.world sv).
Proof.
  unfold main.log. cbn. generalize (main.world sv).
  induction es as [|e es IH]; intros w; cbn; [done|]. by rewrite IH.
Qed.

Lemma log_tick es sv : tick (main.world (main.log es sv)) = tick (main.world sv).
Proof.
  unfold main.log. cbn. generalize (main.world sv).
  induction es as [|e es IH]; intros w; cbn; [done|]. by rewrite IH.
Qed.

(** X2.  After [getOrCreateRoom] the identifier is registered with the
    room returned, and the other identifiers are registered as before.  A
    room that existed is returned as it is and no room object is touched;
    otherwise the room returned is a new one at the next free address,
    without peers, tracks or labels, and no other room object is touched.
    The call does nothing else than take and release the lock of the
    registry, and a second call for the same identifier returns the same
    room and changes neither the registry nor the rooms. *)
Theorem getOrCreateRoom_gets_or_creates roomID sv :
  let r := main.getOrCreateRoom roomID sv in
  let r2 := main.getOrCreateRoom roomID r.2 in
  main.rooms r.2 !! roomID = Some r.1
  ∧ (∀ id, id ≠ roomID → main.rooms r.2 !! id = main.rooms sv !! id)
  ∧ match main.rooms sv !! roomID with
    | Some ptr =>
        r.1 = ptr ∧ main.heap r.2 = main.heap sv ∧ main.nextRoom r.2 = main.nextRoom sv
    | None =>
        r.1 = main.nextRoom sv ∧ main.nextRoom r.2 = S (main.nextRoom sv)
        ∧ main.room_at r.2 r.1 = main.newRoom
        ∧ ∀ ptr, ptr ≠ r.1 → main.room_at r.2 ptr = main.room_at sv ptr
    end
  ∧ pcs (main.world r.2) = pcs (main.world sv)
  ∧ trace (main.world r.2)
    = trace (main.world sv) ++ [EvLock roomsLock; EvUnlock roomsLock]
  ∧ r2.1 = r.1 ∧ main.rooms r2.2 = main.rooms r.2 ∧ main.heap r2.2 = main.heap r.2
  ∧ main.nextRoom r2.2 = main.nextRoom r.2.
Proof.
  cbn zeta. unfold main.getOrCreateRoom.
  change (main.rooms (main.log _ sv)) with (main.rooms sv).
  destruct (main.rooms sv !! roomID) as [ptr|] eqn:Hlk; cbn [fst snd].
  - change (main.rooms (main.log _ (main.log _ (main.log _ sv)))) with (main.rooms sv).
    rewrite Hlk. cbn. rewrite <- app_assoc. split_and!; done.
  - cbn. rewrite lookup_insert_eq. cbn. rewrite <- app_assoc.
    split_and!; try done.
    + intros id Hne. by rewrite lookup_insert_ne.
    + unfold main.room_at. cbn. by rewrite lookup_total_insert_eq.
    + intros ptr Hne. unfold main.room_at. cbn. by rewrite lookup_total_insert_ne.
Qed.

Lemma registry_wf_submap sv sv' :
  main.nextRoom sv ≤ main.nextRoom sv' →
  (∀ id ptr, main.rooms sv' !! id = Some ptr → main.rooms sv !! id = Some ptr) →
  registry_wf sv → registry_wf sv'.
Proof.
  intros Hn Hsub [Hlt Hinj]. split.
  - intros id ptr Hid%Hsub. apply Hlt in Hid. lia.
  - intros id1 id2 ptr H1%Hsub H2%Hsub. by eapply Hinj.
Qed.

Lemma getOrCreateRoom_registry_wf roomID sv :
  registry_wf sv → registry_wf (main.getOrCreateRoom roomID sv).2.
Proof.
  intros Hwf. unfold main.getOrCreateRoom.
  change (main.rooms (main.log _ sv)) with (main.rooms sv).
  destruct (main.rooms sv !! roomID) as [ptr|] eqn:Hlk; cbn [snd].
  - by eapply registry_wf_submap; [| |exact Hwf].
  - destruct Hwf as [Hlt Hinj]. split; cbn.
    + intros id ptr [[_ <-]|[_ Hid]]%lookup_insert_Some; [lia|].
      apply Hlt in Hid. lia.
    + intros id1 id2 ptr [[<- <-]|[Hne1 H1]]%lookup_insert_Some
        [[<- Heq]|[Hne2 H2]]%lookup_insert_Some; try done.
      * apply Hlt in H2. lia.
      * apply Hlt in H1. lia.
      * by eapply Hinj.
Qed.

Lemma removePeerFromRoom_registry roomID peerConnection sv :
  main.nextRoom (main.removePeerFromRoom roomID peerConnection sv) = main.nextRoom sv
  ∧ main.nextPC (main.removePeerFromRoom roomID peerConnection sv) = main.nextPC sv
  ∧ (main.rooms (main.removePeerFromRoom roomID peerConnection sv) = main.rooms sv
     ∨ main.rooms (main.removePeerFromRoom roomID peerConnection sv)
       = delete roomID (main.rooms sv)).
Proof.
  unfold main.removePeerFromRoom.
  change (main.rooms (main.log _ sv)) with (main.rooms sv).
  destruct (main.rooms sv !! roomID) as [ptr|]; [|by split_and!; [..|left]].
  case_decide; (split_and!; [done|done|]); [by right|by left].
Qed.

Lemma removePeerFromRoom_registry_wf roomID peerConnection sv :
  registry_wf sv → registry_wf (main.removePeerFromRoom roomID peerConnection sv).
Proof.
  destruct (removePeerFromRoom_registry roomID peerConnection sv) as (Hn & _ & Hr).
  apply registry_wf_submap; [lia|].
  intros id ptr. destruct Hr as [->| ->]; [done|].
  by intros [_ ?]%lookup_delete_Some.
Qed.

(** X3.  When an identifier is not registered, creating its room (line
    243) and then removing a peer from it (line 261), which is what a join
    does whose transceiver cannot be added, leaves the registry as it was:
    the room created has no peer and no track, so remove-peer deletes it
    again. *)
Theorem room_created_for_a_join_is_removed_with_its_peer roomID peerConnection sv :
  main.rooms sv !! roomID = None →
  main.rooms (main.removePeerFromRoom roomID peerConnection
                (main.getOrCreateRoom roomID sv).2)
  = main.rooms sv.
Proof.
  intros Hnone. unfold main.getOrCreateRoom.
  change (main.rooms (main.log _ sv)) with (main.rooms sv). rewrite Hnone. cbn [snd].
  unfold main.removePeerFromRoom.
  match goal with |- context [main.rooms (main.log ?es (main.log ?es' ?x)) !! roomID] =>
    change (main.rooms (main.log es (main.log es' x))) with (main.rooms x) end.
  cbn [main.rooms]. rewrite lookup_insert_eq.
  match goal with |- context [main.room_at ?x (main.nextRoom ?y)] =>
    assert (main.room_at x (main.nextRoom y) = main.newRoom) as -> end.
  { unfold main.room_at. cbn. by rewrite lookup_total_insert_eq. }
  unfold main.splicePeer. cbn [main.newRoom main.PeerConnections slice.elems slice.empty
    slice.len slice.backing take list_find main.set_PeerConnections main.TrackLocals].
  rewrite decide_True by (by rewrite map_size_empty).
  cbn. by rewrite delete_insert_id.
Qed.

Lemma splicePeer_absent peerConnection s :
  (∀ q, q ∈ slice.elems s → PeerConnection q ≠ peerConnection) →
  main.splicePeer peerConnection s = s.
Proof.
  intros Hnone. unfold main.splicePeer.
  destruct (list_find _ _) as [[i q]|] eqn:Hfind; [|done].
  apply list_find_Some in Hfind as (Hi & Hq & _).
  exfalso. eapply Hnone; [|exact Hq]. apply list_elem_of_lookup. eauto.
Qed.

Lemma splicePeer_present peerConnection s l1 q l2 :
  slice.len s ≤ length (slice.backing s) →
  slice.elems s = l1 ++ q :: l2 →
  PeerConnection q = peerConnection →
  Forall (fun q' => PeerConnection q' ≠ peerConnection) l1 →
  main.splicePeer peerConnection s = slice.remove_at (length l1) s
  ∧ slice.elems (main.splicePeer peerConnection s) = l1 ++ l2.
Proof.
  intros Hwf Hel Hq Hl1. unfold main.splicePeer.
  assert (list_find (fun pc => PeerConnection pc = peerConnection) (slice.elems s)
          = Some (length l1, q)) as ->.
  { apply list_find_Some. rewrite Hel. split_and!.
    - by rewrite list_lookup_middle.
    - done.
    - intros j y Hj Hlt. rewrite lookup_app_l in Hj by done.
      rewrite Forall_forall in Hl1. apply Hl1. apply list_elem_of_lookup. eauto. }
  split; [done|].
  assert (length l1 < slice.len s) as Hlt.
  { apply (f_equal length) in Hel. unfold slice.elems in Hel.
    rewrite length_take, length_app in Hel. cbn in Hel. lia. }
  rewrite elems_remove_at by done. rewrite Hel.
  by rewrite delete_middle.
Qed.

(** X4.  The loop of remove-peer splices out the first record with the
    given peer-connection and no other: the records before it and after
    it stay, in order, among them later records with the same
    peer-connection.  The slice is one shorter, over an array of the same
    capacity; whoever holds the old slice header sees, over the shared
    array, the records that remain followed by a stale copy of the last
    one. *)
Theorem splicePeer_removes_the_first_match_only peerConnection s l1 q l2 :
  slice.len s ≤ length (slice.backing s) →
  slice.elems s = l1 ++ q :: l2 →
  PeerConnection q = peerConnection →
  Forall (fun q' => PeerConnection q' ≠ peerConnection) l1 →
  slice.elems (main.splicePeer peerConnection s) = l1 ++ l2
  ∧ slice.len (main.splicePeer peerConnection s) = slice.len s - 1
  ∧ length (slice.backing (main.splicePeer peerConnection s)) = length (slice.backing s)
  ∧ slice.elems (slice.caller_view s (main.splicePeer peerConnection s))
    = l1 ++ l2 ++ [default q (last l2)].
Proof.
  intros Hwf Hel Hq Hl1.
  destruct (splicePeer_present peerConnection s l1 q l2 Hwf Hel Hq Hl1) as [-> Helems].
  assert (length l1 < slice.len s ∧ slice.len s = length l1 + S (length l2)) as [Hlt Hlen].
  { apply (f_equal length) in Hel. unfold slice.elems in Hel.
    rewrite length_take, length_app in Hel. cbn in Hel. lia. }
  split_and!.
  - done.
  - done.
  - by apply length_backing_remove_at.
  - unfold slice.caller_view, slice.elems, slice.remove_at in *.
    cbn [slice.backing slice.len] in *.
    set (b := slice.backing s) in *.
    assert (take (length l1) b = l1) as ->.
    { transitivity (take (length l1) (take (slice.len s) b)).
      - rewrite take_take. f_equal. lia.
      - by rewrite Hel, take_app_length. }
    assert (drop (S (length l1)) (take (slice.len s) b) = l2) as ->.
    { rewrite Hel, drop_app_ge by lia.
      by replace (S (length l1) - length l1) with 1 by lia. }
    assert (drop (slice.len s - 1) b !! 0 = Some (default q (last l2))) as Hlast.
    { rewrite lookup_drop, Nat.add_0_r.
      rewrite <- (lookup_take_lt _ (slice.len s)) by lia. rewrite Hel.
      rewrite lookup_app_r by lia.
      replace (slice.len s - 1 - length l1) with (length l2) by lia.
      destruct l2 as [|x l2 _] using rev_ind; [done|].
      rewrite last_snoc, length_app. cbn [length default].
      replace (length l2 + 1) with (S (length l2)) by lia.
      change ((l2 ++ [x]) !! length l2 = Some x). by apply list_lookup_middle. }
    destruct (drop (slice.len s - 1) b) as [|x xs]; [done|].
    cbn in Hlast. injection Hlast as ->.
    set (x := default q (last l2)).
    replace (l1 ++ l2 ++ x :: xs) with ((l1 ++ l2 ++ [x]) ++ xs)
      by (by rewrite <- !app_assoc).
    apply take_app_length'. rewrite !length_app. cbn. lia.
Qed.

Lemma set_PeerConnections_id r :
  main.set_PeerConnections (main.PeerConnections r) r = r.
Proof. by destruct r. Qed.

Lemma room_at_set_rooms m sv ptr :
  main.room_at (main.set_rooms m sv) ptr = main.room_at sv ptr.
Proof. done. Qed.

(** What [removePeerFromRoom] does to the room objects, the world and the
    counters. *)
Lemma removePeerFromRoom_effect roomID peerConnection sv :
  let sv' := main.removePeerFromRoom roomID peerConnection sv in
  (∀ ptr, main.room_at sv' ptr
          = if decide (main.rooms sv !! roomID = Some ptr)
            then main.set_PeerConnections
                   (main.splicePeer peerConnection
                      (main.PeerConnections (main.room_at sv ptr))) (main.room_at sv ptr)
            else main.room_at sv ptr)
  ∧ pcs (main.world sv') = pcs (main.world sv)
  ∧ tick (main.world sv') = tick (main.world sv)
  ∧ ∃ es, trace (main.world sv') = trace (main.world sv) ++ es ∧ Forall is_lock_event es.
Proof.
  cbn zeta. unfold main.removePeerFromRoom.
  change (main.rooms (main.log _ sv)) with (main.rooms sv).
  destruct (main.rooms sv !! roomID) as [ptr|] eqn:Hlk.
  - split_and!.
    + intros ptr'. destruct (decide (Some ptr = Some ptr')) as [[= <-]|Hptr].
      * case_decide; simpl_room_at;
          rewrite ?(room_at_set_rooms _ _ ptr); simpl_room_at; done.
      * assert (ptr' ≠ ptr) by congruence.
        case_decide; simpl_room_at;
          rewrite ?(room_at_set_rooms _ _ ptr'); simpl_room_at; done.
    + by case_decide.
    + by case_decide.
    + case_decide;
        repeat first [rewrite log_trace
                     |progress cbn [main.world main.set_rooms main.set_room]];
        rewrite <- !app_assoc; eexists; (split; [reflexivity|]);
        by repeat constructor.
  - split_and!; [by intros ptr; rewrite decide_False| done | done|].
    rewrite log_trace. eexists. split; [done|]. by repeat constructor.
Qed.

Lemma removePeerFromRoom_deletes_iff roomID peerConnection sv ptr :
  main.rooms sv !! roomID = Some ptr →
  main.rooms (main.removePeerFromRoom roomID peerConnection sv) !! roomID = None
  ↔ slice.len (main.splicePeer peerConnection (main.PeerConnections (main.room_at sv ptr)))
    = 0
    ∧ size (main.TrackLocals (main.room_at sv ptr)) = 0.
Proof.
  intros Hlk. unfold main.removePeerFromRoom.
  change (main.rooms (main.log _ sv)) with (main.rooms sv). rewrite Hlk.
  change (main.room_at (main.log ?es ?x) ptr) with (main.room_at x ptr).
  cbn [main.PeerConnections main.set_PeerConnections main.TrackLocals].
  case_decide as Hempty; cbn.
  - by rewrite lookup_delete_eq.
  - by rewrite Hlk.
Qed.

(** X5.  Remove-peer touches nothing but the list of peers of the room
    registered under the identifier, and the registry: the
    peer-connections, the count of fallible calls, the allocation
    counters, and the tracks and labels of every room are as before, and
    the trace grows by lock operations only.  A room that is not the one
    registered under the identifier is untouched, and so is a room none of
    whose records has the peer-connection. *)
Theorem removePeerFromRoom_touches_one_list_only roomID peerConnection sv :
  let sv' := main.removePeerFromRoom roomID peerConnection sv in
  pcs (main.world sv') = pcs (main.world sv)
  ∧ tick (main.world sv') = tick (main.world sv)
  ∧ (∃ es, trace (main.world sv') = trace (main.world sv) ++ es ∧ Forall is_lock_event es)
  ∧ main.nextRoom sv' = main.nextRoom sv
  ∧ main.nextPC sv' = main.nextPC sv
  ∧ (∀ ptr, main.TrackLocals (main.room_at sv' ptr) = main.TrackLocals (main.room_at sv ptr)
            ∧ main.TrackNames (main.room_at sv' ptr) = main.TrackNames (main.room_at sv ptr)
            ∧ main.StreamNames (main.room_at sv' ptr)
              = main.StreamNames (main.room_at sv ptr))
  ∧ (∀ ptr, main.rooms sv !! roomID ≠ Some ptr →
            main.room_at sv' ptr = main.room_at sv ptr)
  ∧ (∀ ptr, (∀ q, q ∈ slice.elems (main.PeerConnections (main.room_at sv ptr)) →
                  PeerConnection q ≠ peerConnection) →
            main.room_at sv' ptr = main.room_at sv ptr).
Proof.
  cbn zeta.
  destruct (removePeerFromRoom_effect roomID peerConnection sv) as (Hroom & Hpcs & Htick & Htr).
  destruct (removePeerFromRoom_registry roomID peerConnection sv) as (Hn & Hp & _).
  split_and!; try done.
  - intros ptr. rewrite Hroom. by case_decide.
  - intros ptr Hne. rewrite Hroom. by rewrite decide_False.
  - intros ptr Habsent. rewrite Hroom. case_decide; [|done].
    rewrite splicePeer_absent by done. apply set_PeerConnections_id.
Qed.

Lemma closePeerConnection_effect peerConnection sv :
  let sv' := main.closePeerConnection peerConnection sv in
  main.rooms sv' = main.rooms sv ∧ main.heap sv' = main.heap sv
  ∧ main.nextRoom sv' = main.nextRoom sv ∧ main.nextPC sv' = main.nextPC sv
  ∧ webrtc.connectionState (pc_at (main.world sv') peerConnection)
    = webrtc.PeerConnectionStateClosed
  ∧ (∀ h, h ≠ peerConnection → pc_at (main.world sv') h = pc_at (main.world sv) h)
  ∧ tick (main.world sv') = tick (main.world sv)
  ∧ trace (main.world sv') = trace (main.world sv) ++ [EvClosePeerConnection peerConnection].
Proof.
  cbn zeta. unfold main.closePeerConnection. cbn.
  split_and!; try done.
  - change (pc_at (emit ?e ?w) ?h) with (pc_at w h). by rewrite pc_at_set_pc_eq.
  - intros h Hne. change (pc_at (emit ?e ?w) ?h) with (pc_at w h).
    by rewrite pc_at_set_pc_ne.
Qed.

Lemma pc_at_pcs w w' h : pcs w' = pcs w → pc_at w' h = pc_at w h.
Proof. unfold pc_at. by intros ->. Qed.

(** X6.  The deferred functions of a session (lines 259-262, then line
    176) whose record is in the list of its room exactly once: the
    peer-connection is closed first, then the record is removed and the
    other records stay in order, so that no record with that
    peer-connection is left, and the websocket is closed last.  No other
    peer-connection is touched, and the room leaves the registry exactly
    when it is left without a peer and has no track. *)
Theorem teardown_releases_the_session roomID peerConnection c sv ptr l1 q l2 :
  main.rooms sv !! roomID = Some ptr →
  slice.len (main.PeerConnections (main.room_at sv ptr))
    ≤ length (slice.backing (main.PeerConnections (main.room_at sv ptr))) →
  slice.elems (main.PeerConnections (main.room_at sv ptr)) = l1 ++ q :: l2 →
  PeerConnection q = peerConnection →
  Forall (fun q' => PeerConnection q' ≠ peerConnection) (l1 ++ l2) →
  let sv' := main.teardown roomID peerConnection c sv in
  slice.elems (main.PeerConnections (main.room_at sv' ptr)) = l1 ++ l2
  ∧ Forall (fun q' => PeerConnection q' ≠ peerConnection)
      (slice.elems (main.PeerConnections (main.room_at sv' ptr)))
  ∧ webrtc.connectionState (pc_at (main.world sv') peerConnection)
    = webrtc.PeerConnectionStateClosed
  ∧ (∀ h, h ≠ peerConnection →
          pc_at (main.world sv') h = pc_at (main.world sv) h)
  ∧ (main.rooms sv' !! roomID = None
     ↔ l1 ++ l2 = [] ∧ main.TrackLocals (main.room_at sv ptr) = ∅)
  ∧ ∃ locks,
      trace (main.world sv')
      = trace (main.world sv) ++ [EvClosePeerConnection peerConnection] ++ locks
          ++ [EvCloseWebsocket c]
      ∧ Forall is_lock_event locks.
Proof.
  intros Hlk Hwf Hel Hq Hrest. cbn zeta. unfold main.teardown.
  destruct (closePeerConnection_effect peerConnection sv)
    as (Hr1 & Hh1 & _ & _ & Hclosed & Hother & _ & Ht1).
  set (sv1 := main.closePeerConnection peerConnection sv) in *.
  assert (∀ p, main.room_at sv1 p = main.room_at sv p) as Hroom1.
  { intros p. unfold main.room_at. by rewrite Hh1. }
  destruct (removePeerFromRoom_effect roomID peerConnection sv1)
    as (Hroom & Hpcs & _ & locks & Ht2 & Hlocks).
  set (sv2 := main.removePeerFromRoom roomID peerConnection sv1) in *.
  apply Forall_app in Hrest as Hrest'. destruct Hrest' as [Hl1 Hl2].
  destruct (splicePeer_present peerConnection _ l1 q l2 Hwf Hel Hq Hl1) as [Hsp Hel'].
  assert (slice.elems (main.PeerConnections (main.room_at sv2 ptr)) = l1 ++ l2) as Hel2.
  { rewrite Hroom, Hr1, decide_True by done. rewrite Hroom1. done. }
  change (main.room_at (main.log ?es ?x) ptr) with (main.room_at x ptr).
  split_and!.
  - done.
  - by rewrite Hel2.
  - change (main.world (main.log ?es ?x)) with (emit (EvCloseWebsocket c) (main.world x)).
    change (pc_at (emit ?e ?w) ?h) with (pc_at w h).
    by rewrite (pc_at_pcs _ _ _ Hpcs).
  - intros h Hne.
    change (main.world (main.log ?es ?x)) with (emit (EvCloseWebsocket c) (main.world x)).
    change (pc_at (emit ?e ?w) ?h) with (pc_at w h).
    rewrite (pc_at_pcs _ _ _ Hpcs). by apply Hother.
  - change (main.rooms (main.log ?es ?x)) with (main.rooms x).
    assert (main.rooms sv1 !! roomID = Some ptr) as Hlk1 by (by rewrite Hr1).
    unfold sv2.
    rewrite (removePeerFromRoom_deletes_iff roomID peerConnection sv1 ptr Hlk1).
    rewrite Hroom1, Hsp. cbn [slice.remove_at slice.len].
    apply (f_equal length) in Hel. unfold slice.elems in Hel.
    rewrite length_take, length_app in Hel. cbn in Hel.
    rewrite map_size_empty_iff. split.
    + intros [Hlen ?]. split; [|done].
      destruct l1, l2; cbn in *; try done; lia.
    + intros [Hnil ?]. split; [|done].
      apply (f_equal length) in Hnil. rewrite length_app in Hnil. cbn in Hnil. lia.
  - exists locks. rewrite log_trace, Ht2, Ht1. rewrite <- !app_assoc. done.
Qed.

Lemma getOrCreateRoom_world roomID sv :
  pcs (main.world (main.getOrCreateRoom roomID sv).2) = pcs (main.world sv)
  ∧ tick (main.world (main.getOrCreateRoom roomID sv).2) = tick (main.world sv)
  ∧ main.nextPC (main.getOrCreateRoom roomID sv).2 = main.nextPC sv
  ∧ trace (main.world (main.getOrCreateRoom roomID sv).2)
    = trace (main.world sv) ++ [EvLock roomsLock; EvUnlock roomsLock].
Proof.
  unfold main.getOrCreateRoom.
  change (main.rooms (main.log _ sv)) with (main.rooms sv).
  destruct (main.rooms sv !! roomID); cbn; rewrite <- app_assoc; done.
Qed.

(** The room objects after [getOrCreateRoom]: a new room, if any, is at the
    next free address. *)
Lemma getOrCreateRoom_room_at roomID sv ptr :
  ptr < main.nextRoom sv →
  main.room_at (main.getOrCreateRoom roomID sv).2 ptr = main.room_at sv ptr.
Proof.
  intros Hlt. unfold main.getOrCreateRoom.
  change (main.rooms (main.log _ sv)) with (main.rooms sv).
  destruct (main.rooms sv !! roomID); [done|]. cbn [snd].
  unfold main.room_at. cbn. rewrite lookup_total_insert_ne; [done|lia].
Qed.

Section Handshake.
Variable fails : nat -> bool.
Variable json_Unmarshal_message : ws.WebsocketMessage -> string -> option ws.WebsocketMessage.
Variable json_Unmarshal_joinData : string -> option main.joinData.t.

#[local] Abbreviation handshake :=
  (main.handshake fails json_Unmarshal_message json_Unmarshal_joinData).

(** The four ways [handshake] ends: before the room is looked up; when the
    peer-connection cannot be constructed; when the transceiver cannot be
    added; with the peer registered. *)
Lemma handshake_effect c first sv :
  match handshake c first sv with
  | main.Returned sv' =>
      sv' = main.log [EvCloseWebsocket c] sv
      ∨ (∃ r w, sv' = main.log [EvNewPeerConnection 0 false; EvCloseWebsocket c]
                        (main.set_world w (main.getOrCreateRoom r sv).2)
                ∧ pcs w = pcs (main.world sv))
      ∨ (∃ r svT, sv' = main.teardown r (main.nextPC sv) c svT
                  ∧ main.rooms svT = main.rooms (main.getOrCreateRoom r sv).2
                  ∧ main.heap svT = main.heap (main.getOrCreateRoom r sv).2
                  ∧ main.nextRoom svT = main.nextRoom (main.getOrCreateRoom r sv).2
                  ∧ main.nextPC svT = S (main.nextPC sv)
                  ∧ pcs (main.world svT)
                    = <[main.nextPC sv := webrtc.newPeerConnection]> (pcs (main.world sv)))
  | main.Joined s sv' =>
      let g := main.getOrCreateRoom (main.roomID s) sv in
      let record := {| PeerConnection := main.nextPC sv; Websocket := c;
                       Name := main.userName s |} in
      main.c s = c ∧ main.roomID s ≠ "" ∧ main.userName s ≠ ""
      ∧ main.room s = g.1 ∧ main.peerConnection s = main.nextPC sv
      ∧ main.rooms sv' = main.rooms g.2
      ∧ main.nextRoom sv' = main.nextRoom g.2
      ∧ main.nextPC sv' = S (main.nextPC sv)
      ∧ main.room_at sv' g.1
        = main.set_PeerConnections
            (slice.append zeroPeerConnectionState
               (main.PeerConnections (main.room_at g.2 g.1)) record)
            (main.room_at g.2 g.1)
      ∧ (∀ ptr, ptr ≠ g.1 → main.room_at sv' ptr = main.room_at g.2 ptr)
      ∧ pcs (main.world sv')
        = <[main.nextPC sv :=
              {| webrtc.connectionState := webrtc.PeerConnectionStateNew;
                 webrtc.senders := []; webrtc.receivers := [None];
                 webrtc.localDescription := None;
                 webrtc.remoteDescription := None |}]> (pcs (main.world sv))
      ∧ tick (main.world sv') = tick (main.world sv) + 2
      ∧ trace (main.world sv')
        = trace (main.world sv)
            ++ [EvLock roomsLock; EvUnlock roomsLock;
                EvNewPeerConnection (main.nextPC sv) true;
                EvLock (roomLock g.1); EvUnlock (roomLock g.1)]
  end.
Proof.
  unfold main.handshake.
  destruct first as [raw|]; [|by left].
  destruct (json_Unmarshal_message ws.zero raw) as [message|]; [|by left].
  destruct (negb _); [by left|].
  destruct (json_Unmarshal_joinData _) as [jd|]; [|by left].
  destruct (String.eqb (main.joinData.RoomID jd) "") eqn:Hroom; [by left|].
  apply String.eqb_neq in Hroom.
  destruct (getOrCreateRoom_world (main.joinData.RoomID jd) sv) as (Hpcs & Htick & Hnext & Htr).
  destruct (main.getOrCreateRoom (main.joinData.RoomID jd) sv) as [room sv1] eqn:Hg.
  cbn [fst snd] in *.
  unfold main.fallible, peer.fallible. cbn [fst snd].
  destruct (fails _).
  { right. left. exists (main.joinData.RoomID jd), (next_tick (main.world sv1)).
    rewrite Hg. cbn [snd]. done. }
  cbn [main.world main.set_world tick next_tick emit set_pc main.nextPC].
  destruct (fails _).
  { right. right. eexists (main.joinData.RoomID jd), _. rewrite Hg. cbn [snd].
    rewrite <- Hnext. split; [reflexivity|]. cbn. by rewrite Hpcs. }
  cbn [main.c main.roomID main.userName main.room main.peerConnection]. cbn zeta.
  rewrite Hg. cbn [fst snd].
  split_and!.
  - done.
  - done.
  - by destruct (String.eqb (main.joinData.Name jd) "") eqn:Hn; [|apply String.eqb_neq in Hn].
  - done.
  - done.
  - done.
  - done.
  - cbn. by rewrite Hnext.
  - simpl_room_at. unfold pc_at, set_pc. cbn. by rewrite Hnext.
  - intros ptr Hne. simpl_room_at. done.
  - cbn. rewrite insert_insert_eq. unfold pc_at. cbn.
    rewrite lookup_total_insert_eq. cbn. by rewrite Hpcs, Hnext.
  - cbn. rewrite Htick. lia.
  - cbn. rewrite Htr, <- !app_assoc, Hnext. done.
Qed.
End Handshake.

(** ** The synchronizer's list *)

Lemma filter_delete_False {A} (P : A → Prop) `{!∀ x, Decision (P x)} (l : list A) j x :
  l !! j = Some x → ¬ P x → filter P (delete j l) = filter P l.
Proof.
  revert j. induction l as [|y l IH]; intros [|j] Hj Hx; try done.
  - cbn in Hj. injection Hj as ->.
    change (filter P l = filter P (x :: l)). by rewrite filter_cons_False.
  - cbn in Hj. change (filter P (y :: delete j l) = filter P (y :: l)).
    rewrite !filter_cons. by rewrite (IH j).
Qed.

Lemma filter_all {A} (P : A → Prop) `{!∀ x, Decision (P x)} (l : list A) :
  Forall P l → filter P l = l.
Proof.
  induction 1 as [|x l Hx _ IH]; [done|]. by rewrite filter_cons_True, IH.
Qed.

Lemma open_peers_ext w w' l :
  media_unchanged w w' → open_peers w' l = open_peers w l.
Proof.
  intros Hm. unfold open_peers. apply list_filter_iff.
  intros p. by rewrite (proj1 (Hm _)).
Qed.

Section SyncList.
Variable fails : nat -> bool.
Variable trackLocals : gmap string webrtc.TrackLocalStaticRTP.
Variables trackNames streamNames : gmap string string.

Lemma syncPeer_media p w :
  media_unchanged w (peer.syncPeer fails trackLocals trackNames streamNames p w).2.
Proof.
  unfold peer.syncPeer. set (h := PeerConnection p).
  destruct (scanSenders_spec fails trackLocals h (webrtc.senders (pc_at w h)) [] ∅ w eq_refl)
    as (ss' & Hspec). cbn zeta in Hspec. cbn [length] in Hspec.
  destruct Hspec as (Hm1 & _).
  destruct (peer.scanSenders _ _ _ _ _ _ _) as [[r ex] w2]. cbn [fst snd] in *.
  destruct r; [done|].
  match goal with |- context [peer.addTracks fails h ?ex ?todo w2] =>
    destruct (addTracks_spec fails h ex todo w2) as (Hm2 & _) end.
  destruct (peer.addTracks _ _ _ _ _) as [r w3]. cbn [fst snd] in *.
  destruct r; [by eapply media_unchanged_trans|].
  destruct (sendOffer_spec fails trackNames streamNames p w3) as (Hm3 & _).
  eapply media_unchanged_trans; [|exact Hm3]. by eapply media_unchanged_trans.
Qed.

(** The scan of the peers from index [i] on, as far as the list is
    concerned: it is given back as it was, or without one peer that was
    closed; and a scan that does not ask for a retry met no closed peer. *)
Lemma scanPeers_slice s i todo w :
  let r := peer.scanPeers fails trackLocals trackNames streamNames s i todo w in
  media_unchanged w r.2
  ∧ (r.1.1 = false → r.1.2 = s ∧ open_peers w todo = todo)
  ∧ (r.1.2 = s
     ∨ ∃ j p, todo !! j = Some p
              ∧ webrtc.connectionState (pc_at w (PeerConnection p))
                = webrtc.PeerConnectionStateClosed
              ∧ r.1.2 = slice.remove_at (i + j) s).
Proof.
  revert i w. induction todo as [|p todo IH]; intros i w; cbn zeta.
  - cbn. split_and!; [apply media_unchanged_refl|done|by left].
  - cbn [peer.scanPeers]. case_decide as Hclosed.
    { cbn. split_and!; [apply media_unchanged_refl|done|].
      right. exists 0, p. by rewrite Nat.add_0_r. }
    pose proof (syncPeer_media p w) as Hm1.
    destruct (peer.syncPeer _ _ _ _ _ _) as [r1 w1]. cbn [fst snd] in *.
    destruct r1; cbn [fst snd]; [by split_and!; [..|left]|].
    destruct (IH (S i) w1) as (Hm & Hok & Hsl).
    destruct (peer.scanPeers _ _ _ _ _ _ _ _) as [[r s2] w2]. cbn [fst snd] in *.
    split_and!.
    + by eapply media_unchanged_trans.
    + intros Hr. destruct (Hok Hr) as [-> Hopen]. split; [done|].
      unfold open_peers. rewrite filter_cons_True by done.
      f_equal. rewrite <- Hopen at 2. symmetry. by apply open_peers_ext.
    + destruct Hsl as [->|(j & q & Hj & Hq & ->)]; [by left|].
      right. exists (S j), q. split_and!; [done| |f_equal; lia].
      by rewrite <- (proj1 (Hm1 _)).
Qed.

(** The retry loop, as far as the list is concerned.  [n] is the length
    of a slice some caller holds over the same array. *)
Lemma syncLoop_slice listLock w0 n fuel k s w exit s' w' :
  peer.syncLoop fails fuel listLock trackLocals trackNames streamNames k s w
    = Some (exit, s', w') →
  media_unchanged w0 w → slice.len s ≤ n → n ≤ length (slice.backing s) →
  media_unchanged w0 w'
  ∧ slice.len s' ≤ n ∧ n ≤ length (slice.backing s')
  ∧ length (slice.backing s') = length (slice.backing s)
  ∧ open_peers w0 (slice.elems s') = open_peers w0 (slice.elems s)
  ∧ slice.elems s' `sublist_of` slice.elems s
  ∧ (∀ x, x ∈ take n (slice.backing s') → x ∈ take n (slice.backing s))
  ∧ (exit = peer.SyncDone → open_peers w0 (slice.elems s') = slice.elems s').
Proof.
  revert k s w. induction fuel as [|fuel IH]; intros k s w; [done|].
  cbn [peer.syncLoop]. case_decide.
  { intros [= <- <- <-] Hm Hlen Hcap. split_and!; done. }
  unfold peer.attemptSync.
  destruct (scanPeers_slice s 0 (slice.elems s) w) as (Hm1 & Hok1 & Hsl1).
  destruct (peer.scanPeers _ _ _ _ _ _ _ _) as [[again s1] w1]. cbn [fst snd] in *.
  intros Hloop Hm Hlen Hcap.
  assert (media_unchanged w0 w1) as Hm01 by (by eapply media_unchanged_trans).
  destruct again.
  - assert (media_unchanged w0 (emit (EvAttemptSync k true) w1)) as Hm01'
      by (intros h; apply Hm01).
    destruct Hsl1 as [->|(j & p & Hj & Hp & ->)].
    { by eapply (IH _ _ _ Hloop). }
    assert (j < slice.len s) as Hlt.
    { apply lookup_lt_Some in Hj. unfold slice.elems in Hj.
      rewrite length_take in Hj. lia. }
    destruct (IH _ _ _ Hloop Hm01') as (HmF & HlenF & HcapF & HbF & HopF & HsubF & HviewF & HdoneF).
    { cbn. lia. }
    { rewrite length_backing_remove_at by lia. done. }
    rewrite length_backing_remove_at in HbF by lia.
    rewrite elems_remove_at in HopF, HsubF by lia.
    split_and!; try done.
    + rewrite HopF. eapply filter_delete_False; [exact Hj|].
      intros Hne. apply Hne. by rewrite <- (proj1 (Hm _)).
    + etrans; [exact HsubF|]. apply sublist_delete.
    + intros x Hx. apply HviewF in Hx. revert Hx. apply remove_at_view_subset; lia.
  - injection Hloop as <- <- <-. destruct (Hok1 eq_refl) as (-> & Hopen).
    split_and!; try done. intros _. rewrite <- Hopen at 2. symmetry.
    by apply open_peers_ext.
Qed.
End SyncList.

Section SyncListTheorems.
Variable fails : nat -> bool.
Variable trackLocals : gmap string webrtc.TrackLocalStaticRTP.
Variables trackNames streamNames : gmap string string.

Lemma SignalPeerConnections_loop fuel listLock s w exit s' w' :
  peer.SignalPeerConnections fails fuel listLock trackLocals s trackNames streamNames w
    = Some (exit, s', w') →
  ∃ w1, peer.syncLoop fails fuel listLock trackLocals trackNames streamNames 0 s
          (emit (EvLock listLock) w) = Some (exit, s', w1)
        ∧ pcs w' = pcs w1
        ∧ ∃ scan, trace w' = trace w1 ++ [EvUnlock listLock; EvLock listLock] ++ scan
                               ++ [EvUnlock listLock]
                  ∧ Forall is_rtcp_write scan.
Proof.
  unfold peer.SignalPeerConnections.
  destruct (peer.syncLoop _ _ _ _ _ _ _ _ _) as [[[exit1 s1] w1]|]; [|done].
  intros [= -> -> <-]. exists w1. split; [done|].
  destruct (DispatchKeyFrame_frame fails listLock s' (emit (EvUnlock listLock) w1))
    as (scan & Ht & Hscan & Hpcs).
  split; [done|]. exists scan. split; [|done]. rewrite Ht. cbn. by rewrite <- !app_assoc.
Qed.


(** X8.  What the caller, who passed its slice by value, holds after
    the call: a list of the length it had, whose first entries are the
    final list of the synchronizer; every entry is a record the list held
    before the call; and every peer of the old list whose connection is
    not closed is still in it. *)
Theorem SignalPeerConnections_leaves_the_callers_length fuel listLock s w exit s' w' :
  slice.len s ≤ length (slice.backing s) →
  peer.SignalPeerConnections fails fuel listLock trackLocals s trackNames streamNames w
    = Some (exit, s', w') →
  slice.len s' ≤ slice.len s
  ∧ length (slice.elems (slice.caller_view s s')) = length (slice.elems s)
  ∧ take (slice.len s') (slice.elems (slice.caller_view s s')) = slice.elems s'
  ∧ (∀ x, x ∈ slice.elems (slice.caller_view s s') → x ∈ slice.elems s)
  ∧ (∀ x, x ∈ slice.elems s →
          webrtc.connectionState (pc_at w (PeerConnection x))
            ≠ webrtc.PeerConnectionStateClosed →
          x ∈ slice.elems (slice.caller_view s s')).
Proof.
  intros Hwf (w1 & Hloop & Hpcs & _)%SignalPeerConnections_loop.
  destruct (syncLoop_slice fails trackLocals trackNames streamNames listLock w
              (slice.len s) _ _ _ _ _ _ _ Hloop)
    as (Hm & Hlen & Hcap & Hb & Hop & Hsub & Hview & _); [by intros h|done|done|].
  assert (take (slice.len s') (slice.elems (slice.caller_view s s')) = slice.elems s')
    as Htake.
  { unfold slice.elems, slice.caller_view. cbn. rewrite take_take. f_equal. lia. }
  split_and!.
  - done.
  - unfold slice.elems, slice.caller_view. cbn. rewrite !length_take. lia.
  - done.
  - exact Hview.
  - intros x Hx Hopen.
    assert (x ∈ open_peers w (slice.elems s')) as Hin.
    { rewrite Hop. unfold open_peers. by apply list_elem_of_filter. }
    unfold open_peers in Hin. apply list_elem_of_filter in Hin as [_ Hin].
    rewrite <- Htake in Hin. revert Hin. apply subseteq_take.
Qed.
End SyncListTheorems.

(** ** The senders across a call of the synchronizer *)

Lemma senders_between_refl trackLocals w : senders_between trackLocals w w.
Proof. intros h. split; set_solver. Qed.

Lemma senders_between_trans trackLocals w1 w2 w3 :
  media_unchanged w1 w2 →
  senders_between trackLocals w1 w2 → senders_between trackLocals w2 w3 →
  senders_between trackLocals w1 w3.
Proof.
  intros Hm H12 H23 h. destruct (H12 h) as [Hl1 Hu1]. destruct (H23 h) as [Hl2 Hu2].
  assert (webrtc.receiver_ids (pc_at w2 h) = webrtc.receiver_ids (pc_at w1 h)) as HR.
  { unfold webrtc.receiver_ids. by rewrite (proj2 (Hm h)). }
  rewrite HR in Hu2. split; set_solver.
Qed.

Lemma senders_between_ext trackLocals w w' :
  senders_unchanged w w' → senders_between trackLocals w w'.
Proof.
  intros Hs h. unfold webrtc.sender_ids. rewrite (Hs h). split; set_solver.
Qed.

Section SyncSenders.
Variable fails : nat -> bool.
Variable trackLocals : gmap string webrtc.TrackLocalStaticRTP.
Variables trackNames streamNames : gmap string string.

(** The scan of the senders takes the track from no sender whose track is
    in the room, faults or not. *)
Lemma scanSenders_keeps h ss pre ex w :
  webrtc.senders (pc_at w h) = pre ++ ss →
  ∃ ss',
    webrtc.senders (pc_at (peer.scanSenders fails trackLocals h (length pre) ss ex w).2 h)
    = pre ++ ss'
    ∧ ids_of_senders ss ∩ dom trackLocals ⊆ ids_of_senders ss'.
Proof.
  revert pre ex w. induction ss as [|[t|] ss IH]; intros pre ex w Hs.
  - exists []. cbn. split; [done|set_solver].
  - cbn [peer.scanSenders].
    destruct (trackLocals !! webrtc.tl_id t) as [t'|] eqn:Hlk.
    + destruct (IH (pre ++ [Some t]) ({[webrtc.tl_id t]} ∪ ex) w) as (ss' & Hsd & Hsub).
      { by rewrite <- app_assoc. }
      rewrite length_app in Hsd. cbn [length] in Hsd.
      replace (length pre + 1) with (S (length pre)) in Hsd by lia.
      exists (Some t :: ss'). rewrite !ids_of_senders_cons_Some.
      split; [by rewrite Hsd, <- app_assoc|set_solver].
    + unfold peer.fallible. cbn [fst snd]. destruct (fails (tick w)) eqn:Hfail.
      * exists (Some t :: ss). cbn [fst snd]. split; [done|set_solver].
      * cbn [negb].
        set (w1 := set_pc h _ _).
        assert (webrtc.senders (pc_at w1 h) = (pre ++ [None]) ++ ss) as Hs1.
        { unfold w1. rewrite pc_at_set_pc_eq. cbn.
          change (pc_at (emit _ (next_tick w)) h) with (pc_at w h). rewrite Hs.
          rewrite insert_app_r_alt by done. rewrite Nat.sub_diag. cbn.
          by rewrite <- app_assoc. }
        destruct (IH (pre ++ [None]) ({[webrtc.tl_id t]} ∪ ex) w1 Hs1) as (ss' & Hsd & Hsub).
        rewrite length_app in Hsd. cbn [length] in Hsd.
        replace (length pre + 1) with (S (length pre)) in Hsd by lia.
        exists (None :: ss'). rewrite ids_of_senders_cons_Some, ids_of_senders_cons_None.
        assert (webrtc.tl_id t ∉ dom trackLocals) by (by apply not_elem_of_dom).
        split; [by rewrite Hsd, <- app_assoc|set_solver].
  - cbn [peer.scanSenders].
    destruct (IH (pre ++ [None]) ex w) as (ss' & Hsd & Hsub).
    { by rewrite <- app_assoc. }
    rewrite length_app in Hsd. cbn [length] in Hsd.
    replace (length pre + 1) with (S (length pre)) in Hsd by lia.
    exists (None :: ss'). rewrite !ids_of_senders_cons_None.
    split; [by rewrite Hsd, <- app_assoc|done].
Qed.

Lemma syncPeer_keeps_room_senders p w :
  webrtc.sender_ids (pc_at w (PeerConnection p)) ∩ dom trackLocals
  ⊆ webrtc.sender_ids
      (pc_at (peer.syncPeer fails trackLocals trackNames streamNames p w).2
         (PeerConnection p)).
Proof.
  unfold peer.syncPeer. set (h := PeerConnection p).
  destruct (scanSenders_keeps h (webrtc.senders (pc_at w h)) [] ∅ w eq_refl)
    as (ss' & Hs1 & Hkeep). cbn [length] in Hs1. rewrite app_nil_l in Hs1.
  destruct (peer.scanSenders _ _ _ _ _ _ _) as [[r ex] w2]. cbn [fst snd] in *.
  assert (webrtc.sender_ids (pc_at w h) ∩ dom trackLocals
          ⊆ webrtc.sender_ids (pc_at w2 h)) as H2.
  { by rewrite !sender_ids_unfold, Hs1. }
  destruct r; [done|].
  match goal with |- context [peer.addTracks fails h ?ex ?todo w2] =>
    destruct (addTracks_spec fails h ex todo w2) as (_ & _ & _ & Hold & _) end.
  destruct (peer.addTracks _ _ _ _ _) as [r w3]. cbn [fst snd] in *.
  destruct r; [set_solver|].
  destruct (sendOffer_spec fails trackNames streamNames p w3) as (_ & Hs3 & _).
  assert (webrtc.sender_ids (pc_at (peer.sendOffer fails p trackNames streamNames w3).2 h)
          = webrtc.sender_ids (pc_at w3 h)) as ->
    by (by rewrite !sender_ids_unfold, Hs3).
  set_solver.
Qed.

(** The body of the loop, for a peer that is in sync already, only sends
    the offer. *)
Lemma syncPeer_in_sync p w :
  in_sync trackLocals (pc_at w (PeerConnection p)) →
  peer.syncPeer fails trackLocals trackNames streamNames p w
  = peer.sendOffer fails p trackNames streamNames w.
Proof.
  intros Hsync. unfold peer.syncPeer. set (h := PeerConnection p) in *.
  unfold in_sync in Hsync. rewrite sender_ids_unfold in Hsync.
  destruct (scanSenders_spec fails trackLocals h (webrtc.senders (pc_at w h)) [] ∅ w eq_refl)
    as (ss' & Hspec). cbn zeta in Hspec. cbn [length] in Hspec.
  destruct Hspec as (_ & _ & _ & _ & _ & Hnoop).
  rewrite Hnoop by set_solver.
  match goal with |- context [peer.addTracks fails h ?ex ?todo w] =>
    destruct (addTracks_spec fails h ex todo w) as (_ & _ & _ & _ & _ & Hnoop2) end.
  rewrite Hnoop2; [done|].
  intros k t Hkt%elem_of_map_to_list. rewrite scanReceivers_spec.
  assert (k ∈ dom trackLocals) as Hk by (apply elem_of_dom; eauto).
  fold (webrtc.receiver_ids (pc_at w h)).
  destruct (decide (k ∈ webrtc.receiver_ids (pc_at w h))); set_solver.
Qed.

Lemma sendOffer_quiet p w :
  ∃ es, trace (peer.sendOffer fails p trackNames streamNames w).2 = trace w ++ es
        ∧ Forall (fun e => ¬ is_track_change e) es.
Proof.
  unfold peer.sendOffer, peer.fallible. cbn.
  repeat (match goal with |- context [fails ?n] => destruct (fails n) end; cbn);
    rewrite <- ?app_assoc; eexists; (split; [reflexivity|]);
    repeat constructor; cbn; tauto.
Qed.

Lemma scanPeers_in_sync s i todo w :
  (∀ p, p ∈ todo →
        webrtc.connectionState (pc_at w (PeerConnection p))
          ≠ webrtc.PeerConnectionStateClosed
        ∧ in_sync trackLocals (pc_at w (PeerConnection p))) →
  let r := peer.scanPeers fails trackLocals trackNames streamNames s i todo w in
  r.1.2 = s ∧ senders_unchanged w r.2 ∧ media_unchanged w r.2
  ∧ ∃ es, trace r.2 = trace w ++ es ∧ Forall (fun e => ¬ is_track_change e) es.
Proof.
  revert i w. induction todo as [|p todo IH]; intros i w Hall; cbn zeta.
  - cbn. split_and!; [done|by intros ?|apply media_unchanged_refl|].
    exists []. by rewrite app_nil_r.
  - cbn [peer.scanPeers]. destruct (Hall p) as [Hopen Hsync]; [by left|].
    rewrite decide_False by done. rewrite syncPeer_in_sync by done.
    destruct (sendOffer_spec fails trackNames streamNames p w) as (Hm1 & Hs1 & _).
    destruct (sendOffer_quiet p w) as (e1 & Ht1 & He1).
    destruct (peer.sendOffer _ _ _ _ _) as [r1 w1]. cbn [fst snd] in *.
    destruct r1; cbn [fst snd]; [split_and!; [done|done|done|by exists e1]|].
    destruct (IH (S i) w1) as (Hsl & Hs & Hm & e2 & Ht2 & He2).
    { intros q Hq. destruct (Hall q) as [Hopenq Hsyncq]; [by right|]. split.
      - by rewrite (proj1 (Hm1 _)).
      - eapply in_sync_ext; [apply Hs1|apply Hm1|done]. }
    split_and!.
    + done.
    + intros h. by rewrite Hs, Hs1.
    + by eapply media_unchanged_trans.
    + exists (e1 ++ e2). rewrite Ht2, Ht1, <- app_assoc. split; [done|].
      by apply Forall_app.
Qed.

Lemma syncLoop_in_sync listLock fuel k s w exit s' w' :
  (∀ p, p ∈ slice.elems s →
        webrtc.connectionState (pc_at w (PeerConnection p))
          ≠ webrtc.PeerConnectionStateClosed
        ∧ in_sync trackLocals (pc_at w (PeerConnection p))) →
  peer.syncLoop fails fuel listLock trackLocals trackNames streamNames k s w
    = Some (exit, s', w') →
  s' = s ∧ senders_unchanged w w' ∧ media_unchanged w w'
  ∧ ∃ es, trace w' = trace w ++ es ∧ Forall (fun e => ¬ is_track_change e) es.
Proof.
  revert k w. induction fuel as [|fuel IH]; intros k w Hall; [done|].
  cbn [peer.syncLoop]. case_decide.
  { intros [= <- <- <-]. split_and!; [done|by intros ?|by intros ?|].
    eexists [_]. split; [done|]. repeat constructor. cbn. tauto. }
  unfold peer.attemptSync.
  destruct (scanPeers_in_sync s 0 (slice.elems s) w Hall) as (Hsl & Hs1 & Hm1 & e1 & Ht1 & He1).
  destruct (peer.scanPeers _ _ _ _ _ _ _ _) as [[again s1] w1]. cbn [fst snd] in *.
  subst s1. destruct again.
  - intros Hloop. apply IH in Hloop as (-> & Hs & Hm & e2 & Ht2 & He2).
    + split_and!; [done| |by eapply media_unchanged_trans; [exact Hm1|]|].
      * intros h. rewrite Hs. apply Hs1.
      * exists (e1 ++ EvAttemptSync k true :: e2). rewrite Ht2. cbn.
        rewrite Ht1, <- !app_assoc. split; [done|].
        apply Forall_app. split; [done|]. constructor; [cbn; tauto|done].
    + intros q Hq. destruct (Hall q Hq) as [Hopenq Hsyncq]. split.
      * change (pc_at (emit ?e ?x) ?h) with (pc_at x h). by rewrite (proj1 (Hm1 _)).
      * change (pc_at (emit ?e ?x) ?h) with (pc_at x h).
        eapply in_sync_ext; [apply Hs1|apply Hm1|done].
  - intros [= <- <- <-]. split_and!; [done|done|done|].
    exists (e1 ++ [EvAttemptSync k false]). cbn. rewrite Ht1, <- app_assoc.
    split; [done|]. apply Forall_app. split; [done|]. repeat constructor. cbn. tauto.
Qed.

(** X9.  Steady state.  When no peer of the list is closed and each one
    is in sync (it sends exactly the tracks of the room that it does not
    upload itself), a call of the synchronizer, whatever the faults and
    however it ends, gives the list back as it was, attaches and detaches
    nothing (not even a call of [RemoveTrack] or [AddTrack] is made), and
    changes no sender, no receiver and no connection state. *)
Theorem SignalPeerConnections_steady_state fuel listLock s w exit s' w' :
  (∀ p, p ∈ slice.elems s →
        webrtc.connectionState (pc_at w (PeerConnection p))
          ≠ webrtc.PeerConnectionStateClosed
        ∧ in_sync trackLocals (pc_at w (PeerConnection p))) →
  peer.SignalPeerConnections fails fuel listLock trackLocals s trackNames streamNames w
    = Some (exit, s', w') →
  s' = s ∧ senders_unchanged w w' ∧ media_unchanged w w'
  ∧ ∃ es, trace w' = trace w ++ es ∧ Forall (fun e => ¬ is_track_change e) es.
Proof.
  intros Hall (w1 & Hloop & Hpcs & scan & Ht & Hscan)%SignalPeerConnections_loop.
  apply syncLoop_in_sync in Hloop as (-> & Hs & Hm & es & Hes & Hquiet); [|done].
  split_and!; [done| | |].
  - intros h. rewrite (pc_at_pcs _ _ _ Hpcs). apply Hs.
  - intros h. rewrite (pc_at_pcs _ _ _ Hpcs). apply Hm.
  - exists ([EvLock listLock] ++ es ++ [EvUnlock listLock; EvLock listLock] ++ scan
            ++ [EvUnlock listLock]).
    rewrite Ht, Hes. cbn. rewrite <- !app_assoc. split; [done|].
    constructor; [cbn; tauto|]. apply Forall_app. split; [done|].
    constructor; [cbn; tauto|]. constructor; [cbn; tauto|].
    apply Forall_app. split; [|repeat constructor; cbn; tauto].
    eapply Forall_impl; [exact Hscan|]. intros e. destruct e; cbn; tauto.
Qed.

Hypothesis keyed : keyed_by_id trackLocals.

Lemma syncPeer_between p w :
  senders_between trackLocals w
    (peer.syncPeer fails trackLocals trackNames streamNames p w).2.
Proof.
  destruct (syncPeer_spec fails trackLocals trackNames streamNames keyed p w)
    as (Hm & Hf & Hnew & _).
  pose proof (syncPeer_keeps_room_senders p w) as Hkeep.
  intros h. destruct (decide (h = PeerConnection p)) as [->|Hne].
  - split; [done|]. intros id Hid. destruct (Hnew id Hid); set_solver.
  - unfold webrtc.sender_ids. rewrite (Hf h Hne). split; set_solver.
Qed.

Lemma scanPeers_between s i todo w :
  senders_between trackLocals w
    (peer.scanPeers fails trackLocals trackNames streamNames s i todo w).2.
Proof.
  revert i w. induction todo as [|p todo IH]; intros i w.
  - apply senders_between_refl.
  - cbn [peer.scanPeers]. case_decide; [apply senders_between_refl|].
    pose proof (syncPeer_between p w) as H1.
    pose proof (syncPeer_media fails trackLocals trackNames streamNames p w) as Hm1.
    destruct (peer.syncPeer _ _ _ _ _ _) as [r w1]. cbn [fst snd] in *.
    destruct r; [done|]. eapply senders_between_trans; [exact Hm1|exact H1|apply IH].
Qed.

Lemma syncLoop_between listLock fuel k s w exit s' w' :
  peer.syncLoop fails fuel listLock trackLocals trackNames streamNames k s w
    = Some (exit, s', w') →
  media_unchanged w w' ∧ senders_between trackLocals w w'.
Proof.
  revert k s w. induction fuel as [|fuel IH]; intros k s w; [done|].
  cbn [peer.syncLoop]. case_decide.
  { intros [= <- <- <-]. split; [by intros ?|by apply senders_between_ext]. }
  unfold peer.attemptSync.
  pose proof (scanPeers_between s 0 (slice.elems s) w) as H1.
  destruct (scanPeers_slice fails trackLocals trackNames streamNames s 0 (slice.elems s) w)
    as (Hm1 & _).
  destruct (peer.scanPeers _ _ _ _ _ _ _ _) as [[again s1] w1]. cbn [fst snd] in *.
  destruct again.
  - intros [Hm Hb]%IH. split.
    + eapply media_unchanged_trans; [exact Hm1|]. intros h. apply Hm.
    + eapply senders_between_trans; [exact Hm1|exact H1|]. exact Hb.
  - intros [= <- <- <-]. split; [exact Hm1|exact H1].
Qed.

(** X10.  With the tracks of the room keyed by their own identifier,
    whatever the faults and however the call ends: every peer-connection
    keeps the senders whose track is in the room, and every identifier it
    sends afterwards it sent before, or is the key of a track of the room
    that it does not receive.  So a peer-connection that sent no track of
    the room under an identifier it receives still sends none. *)
Theorem SignalPeerConnections_keeps_room_senders_and_adds_no_loopback
    fuel listLock s w exit s' w' :
  peer.SignalPeerConnections fails fuel listLock trackLocals s trackNames streamNames w
    = Some (exit, s', w') →
  senders_between trackLocals w w'
  ∧ ∀ h, loopback_free trackLocals (pc_at w h) → loopback_free trackLocals (pc_at w' h).
Proof.
  intros (w1 & Hloop & Hpcs & _)%SignalPeerConnections_loop.
  destruct (syncLoop_between _ _ _ _ _ _ _ _ Hloop) as [Hm Hb].
  assert (senders_between trackLocals w w') as Hbetween.
  { intros h. rewrite (pc_at_pcs _ _ _ Hpcs). apply Hb. }
  split; [done|]. intros h HLF id Hid HR.
  assert (webrtc.receiver_ids (pc_at w' h) = webrtc.receiver_ids (pc_at w h)) as HReq.
  { unfold webrtc.receiver_ids. rewrite (pc_at_pcs _ _ _ Hpcs).
    by rewrite (proj2 (Hm h)). }
  rewrite HReq in HR. destruct (Hbetween h) as [_ Hup]. apply Hup in Hid.
  apply HLF; [|done]. set_solver.
Qed.
End SyncSenders.

(** ** What a completed synchronization leaves *)

Section SyncDone.
Variable fails : nat -> bool.
Variable trackLocals : gmap string webrtc.TrackLocalStaticRTP.
Variables trackNames streamNames : gmap string string.

Lemma scanSenders_others h ss j ex w h' :
  h' ≠ h → pc_at (peer.scanSenders fails trackLocals h j ss ex w).2 h' = pc_at w h'.
Proof.
  intros Hne. revert j ex w. induction ss as [|[t|] ss IH]; intros j ex w; cbn; [done| |apply IH].
  destruct (trackLocals !! webrtc.tl_id t); [apply IH|].
  destruct (fails (tick w)); cbn; [done|]. rewrite IH. by rewrite pc_at_set_pc_ne.
Qed.

Lemma addTracks_others h ex todo w h' :
  h' ≠ h → pc_at (peer.addTracks fails h ex todo w).2 h' = pc_at w h'.
Proof.
  intros Hne. revert w. induction todo as [|[k t] todo IH]; intros w; cbn; [done|].
  case_decide; [apply IH|].
  destruct (fails (tick w)); cbn; [done|]. rewrite IH. by rewrite pc_at_set_pc_ne.
Qed.

Lemma sendOffer_others p w h' :
  h' ≠ PeerConnection p →
  pc_at (peer.sendOffer fails p trackNames streamNames w).2 h' = pc_at w h'.
Proof.
  intros Hne. unfold peer.sendOffer, peer.fallible. cbn.
  repeat (match goal with |- context [fails ?n] => destruct (fails n) end; cbn);
    try done; unfold pc_at, set_pc; cbn; by rewrite lookup_total_insert_ne.
Qed.

(** The body of the loop touches the peer-connection of its peer only,
    and when it gets through, the local description of that
    peer-connection is the offer for the senders it has then. *)
Lemma syncPeer_described p w :
  let r := peer.syncPeer fails trackLocals trackNames streamNames p w in
  (∀ h', h' ≠ PeerConnection p → pc_at r.2 h' = pc_at w h')
  ∧ (r.1 = false →
     webrtc.localDescription (pc_at r.2 (PeerConnection p))
     = Some (peer.offerOf (pc_at r.2 (PeerConnection p)))).
Proof.
  cbn zeta. unfold peer.syncPeer. set (h := PeerConnection p).
  pose proof (scanSenders_others h (webrtc.senders (pc_at w h)) 0 ∅ w) as Ho1.
  destruct (peer.scanSenders _ _ _ _ _ _ _) as [[r ex] w2]. cbn [fst snd] in *.
  destruct r; [done|].
  match goal with |- context [peer.addTracks fails h ?ex ?todo w2] =>
    pose proof (addTracks_others h ex todo w2) as Ho2 end.
  destruct (peer.addTracks _ _ _ _ _) as [r w3]. cbn [fst snd] in *.
  destruct r; cbn [fst snd].
  { split; [|done]. intros h' Hne. by rewrite Ho2, Ho1. }
  destruct (sendOffer_spec fails trackNames streamNames p w3) as (_ & _ & Hoffer).
  split.
  - intros h' Hne. by rewrite sendOffer_others, Ho2, Ho1.
  - intros Hr. by destruct (Hoffer Hr).
Qed.

Lemma scanPeers_described s i todo w :
  let r := peer.scanPeers fails trackLocals trackNames streamNames s i todo w in
  r.1.1 = false →
  (∀ h, webrtc.localDescription (pc_at w h) = Some (peer.offerOf (pc_at w h)) →
        webrtc.localDescription (pc_at r.2 h) = Some (peer.offerOf (pc_at r.2 h)))
  ∧ (∀ p, p ∈ todo →
          webrtc.localDescription (pc_at r.2 (PeerConnection p))
          = Some (peer.offerOf (pc_at r.2 (PeerConnection p)))).
Proof.
  cbn zeta. revert i w. induction todo as [|p todo IH]; intros i w.
  - cbn. intros _. split; [done|]. intros p Hp. by apply elem_of_nil in Hp.
  - cbn [peer.scanPeers]. case_decide; [done|].
    destruct (syncPeer_described p w) as [Hothers Hdesc].
    destruct (peer.syncPeer _ _ _ _ _ _) as [r1 w1]. cbn [fst snd] in *.
    destruct r1; [done|]. intros Hr. destruct (IH (S i) w1 Hr) as [Hkeep Hall].
    assert (∀ h, webrtc.localDescription (pc_at w h) = Some (peer.offerOf (pc_at w h)) →
                 webrtc.localDescription (pc_at w1 h) = Some (peer.offerOf (pc_at w1 h)))
      as Hkeep1.
    { intros h Hh. destruct (decide (h = PeerConnection p)) as [->|Hne]; [by apply Hdesc|].
      by rewrite Hothers. }
    split.
    + intros h Hh. by apply Hkeep, Hkeep1.
    + intros q [->|Hq]%elem_of_cons; [|by apply Hall]. by apply Hkeep, Hdesc.
Qed.

Lemma syncLoop_described listLock fuel k s w s' w' :
  peer.syncLoop fails fuel listLock trackLocals trackNames streamNames k s w
    = Some (peer.SyncDone, s', w') →
  ∀ p, p ∈ slice.elems s' →
       webrtc.localDescription (pc_at w' (PeerConnection p))
       = Some (peer.offerOf (pc_at w' (PeerConnection p))).
Proof.
  revert k s w. induction fuel as [|fuel IH]; intros k s w; [done|].
  cbn [peer.syncLoop]. case_decide; [done|].
  unfold peer.attemptSync.
  pose proof (scanPeers_described s 0 (slice.elems s) w) as Hd.
  destruct (scanPeers_slice fails trackLocals trackNames streamNames s 0 (slice.elems s) w)
    as (_ & Hsl & _).
  destruct (peer.scanPeers _ _ _ _ _ _ _ _) as [[again s1] w1]. cbn [fst snd] in *.
  destruct again; [apply IH|].
  intros [= <- <-]. destruct (Hsl eq_refl) as [-> _]. by apply Hd.
Qed.

Lemma syncLoop_trace listLock fuel k s w exit s' w' :
  peer.syncLoop fails fuel listLock trackLocals trackNames streamNames k s w
    = Some (exit, s', w') →
  ∃ es, trace w' = trace w ++ es ∧ rtcp_writes es = [].
Proof.
  revert k s w. induction fuel as [|fuel IH]; intros k s w; [done|].
  cbn [peer.syncLoop]. case_decide.
  { intros [= <- <- <-]. by eexists [_]. }
  unfold peer.attemptSync.
  destruct (scanPeers_trace fails trackLocals trackNames streamNames s 0 (slice.elems s) w)
    as (e1 & H1 & F1).
  assert (rtcp_writes e1 = []) as Hw1.
  { clear H1. induction F1 as [|e es He _ IHes]; [done|]. by destruct e. }
  destruct (peer.scanPeers _ _ _ _ _ _ _ _) as [[again s1] w1]. cbn [fst snd] in *.
  destruct again.
  - intros (es & -> & Hes)%IH. exists (e1 ++ EvAttemptSync k true :: es). cbn.
    rewrite H1, <- !app_assoc. split; [done|].
    unfold rtcp_writes in *. rewrite omap_app, Hw1. cbn. exact Hes.
  - intros [= <- <- <-]. exists (e1 ++ [EvAttemptSync k false]). cbn.
    rewrite H1, <- app_assoc. split; [done|].
    unfold rtcp_writes in *. by rewrite omap_app, Hw1.
Qed.

(** X11.  When the call ends with an attempt that did not ask for a
    retry, every peer of the final list has as its local description the
    offer made from the senders it has now: the offer announces exactly
    the identifiers of the tracks attached to the peer-connection when the
    call returns. *)
Theorem completed_SignalPeerConnections_leaves_current_offers
    fuel listLock s w s' w' :
  peer.SignalPeerConnections fails fuel listLock trackLocals s trackNames streamNames w
    = Some (peer.SyncDone, s', w') →
  ∀ p, p ∈ slice.elems s' →
       webrtc.localDescription (pc_at w' (PeerConnection p))
       = Some (peer.offerOf (pc_at w' (PeerConnection p)))
       ∧ webrtc.sd_tracks (peer.offerOf (pc_at w' (PeerConnection p)))
         = omap (fmap webrtc.tl_id) (webrtc.senders (pc_at w' (PeerConnection p))).
Proof.
  intros (w1 & Hloop & Hpcs & _)%SignalPeerConnections_loop p Hp.
  split; [|done]. rewrite !(pc_at_pcs _ _ _ Hpcs). by eapply syncLoop_described.
Qed.

(** X12.  When the call ends with an attempt that did not ask for a
    retry, the RTCP writes of the whole call are those of the keyframe
    dispatch at its end: peer by peer over the peers of the given list
    whose connection is not closed, in order, one Picture Loss Indication
    per receiver that has a track; nothing is written to a closed peer. *)
Theorem completed_SignalPeerConnections_requests_keyframes_of_open_peers
    fuel listLock s w s' w' :
  slice.len s ≤ length (slice.backing s) →
  peer.SignalPeerConnections fails fuel listLock trackLocals s trackNames streamNames w
    = Some (peer.SyncDone, s', w') →
  rtcp_writes (drop (length (trace w)) (trace w'))
  = flat_map (fun p => pli_for (PeerConnection p)
                         (webrtc.receivers (pc_at w (PeerConnection p))))
      (open_peers w (slice.elems s)).
Proof.
  intros Hwf Hsig. unfold peer.SignalPeerConnections in Hsig.
  destruct (peer.syncLoop _ _ _ _ _ _ _ _ _) as [[[exit1 s1] w1]|] eqn:Hloop; [|done].
  injection Hsig as -> -> <-.
  destruct (syncLoop_trace _ _ _ _ _ _ _ _ Hloop) as (es & Hes & Hquiet).
  destruct (syncLoop_slice fails trackLocals trackNames streamNames listLock w
              (slice.len s) _ _ _ _ _ _ _ Hloop)
    as (Hm & _ & _ & _ & Hop & _ & _ & Hdone); [by intros h|done|done|].
  unfold peer.DispatchKeyFrame.
  destruct (keyFramePeers_trace fails (slice.elems s')
              (emit (EvLock listLock) (emit (EvUnlock listLock) w1)))
    as (mid & Ht & _ & Hw & _). cbn zeta in Ht, Hw.
  repeat change (trace (emit ?e ?x)) with (trace x ++ [e]). rewrite Ht.
  repeat change (trace (emit ?e ?x)) with (trace x ++ [e]). rewrite Hes.
  repeat change (trace (emit ?e ?x)) with (trace x ++ [e]).
  rewrite <- !app_assoc, drop_app_length.
  unfold rtcp_writes in *. rewrite !omap_app, Hquiet, Hw. cbn [omap list_omap app].
  rewrite app_nil_r. rewrite <- (Hdone eq_refl), Hop at 1.
  apply flat_map_ext. intros p.
  repeat change (pc_at (emit ?e ?x) ?h) with (pc_at x h). by rewrite (proj2 (Hm _)).
Qed.
End SyncDone.

(** ** A session from the join to the teardown *)

Section Session.
Variable fails : nat -> bool.
Variable json_Unmarshal_message : ws.WebsocketMessage -> string -> option ws.WebsocketMessage.
Variable json_Unmarshal_joinData : string -> option main.joinData.t.
Variable json_Unmarshal_candidate : string -> option string.
Variable json_Unmarshal_answer : string -> option webrtc.SessionDescription.

#[local] Abbreviation handshake :=
  (main.handshake fails json_Unmarshal_message json_Unmarshal_joinData).
#[local] Abbreviation readLoop :=
  (main.readLoop fails json_Unmarshal_message json_Unmarshal_candidate
     json_Unmarshal_answer).
#[local] Abbreviation websocketHandler :=
  (main.websocketHandler fails json_Unmarshal_message json_Unmarshal_joinData
     json_Unmarshal_candidate json_Unmarshal_answer).

Lemma syncLoop_media trackLocals trackNames streamNames listLock fuel k s w exit s' w' :
  peer.syncLoop fails fuel listLock trackLocals trackNames streamNames k s w
    = Some (exit, s', w') →
  media_unchanged w w'.
Proof.
  revert k s w. induction fuel as [|fuel IH]; intros k s w; [done|].
  cbn [peer.syncLoop]. case_decide.
  { intros [= <- <- <-]. by intros ?. }
  unfold peer.attemptSync.
  destruct (scanPeers_slice fails trackLocals trackNames streamNames s 0 (slice.elems s) w)
    as (Hm1 & _).
  destruct (peer.scanPeers _ _ _ _ _ _ _ _) as [[again s1] w1]. cbn [fst snd] in *.
  destruct again.
  - intros Hm%IH. eapply media_unchanged_trans; [exact Hm1|]. intros h. apply Hm.
  - by intros [= <- <- <-].
Qed.

(** The synchronizer, seen from the server: the counters stay, and no
    peer-connection changes its connection state or its receivers. *)
Lemma signalRoom_world ptr sv :
  main.nextRoom (main.signalRoom fails ptr sv) = main.nextRoom sv
  ∧ main.nextPC (main.signalRoom fails ptr sv) = main.nextPC sv
  ∧ media_unchanged (main.world sv) (main.world (main.signalRoom fails ptr sv)).
Proof.
  unfold main.signalRoom.
  destruct (peer.SignalPeerConnections _ _ _ _ _ _ _ _) as [[[exit theirs] w]|] eqn:Hsig;
    [|by split_and!; [..|intros ?]].
  split_and!; [done|done|].
  apply SignalPeerConnections_loop in Hsig as (w1 & Hloop%syncLoop_media & Hpcs & _).
  intros h. cbn. rewrite (pc_at_pcs _ _ _ Hpcs). apply Hloop.
Qed.

(** What the read loop leaves alone. *)
Lemma readLoop_frame s message reads sv :
  let sv' := readLoop s message reads sv in
  main.rooms sv' = main.rooms sv ∧ main.heap sv' = main.heap sv
  ∧ main.nextRoom sv' = main.nextRoom sv ∧ main.nextPC sv' = main.nextPC sv
  ∧ trace (main.world sv') = trace (main.world sv)
  ∧ media_unchanged (main.world sv) (main.world sv')
  ∧ senders_unchanged (main.world sv) (main.world sv').
Proof.
  cbn zeta. revert message sv.
  induction reads as [|[raw|] reads IH]; intros message sv; cbn [main.readLoop];
    try (by split_and!; [..|intros ?|intros ?]).
  destruct (json_Unmarshal_message message raw) as [m|];
    [|by split_and!; [..|intros ?|intros ?]].
  destruct (String.eqb (ws.Event m) "candidate").
  { destruct (json_Unmarshal_candidate _); [|by split_and!; [..|intros ?|intros ?]].
    unfold main.fallible, peer.fallible. cbn [fst snd].
    destruct (fails _); [by split_and!; [..|intros ?|intros ?]|].
    destruct (IH m (main.set_world (next_tick (main.world sv)) sv))
      as (-> & -> & -> & -> & -> & Hm & Hs).
    split_and!; try done. }
  destruct (String.eqb (ws.Event m) "answer"); [|apply IH].
  destruct (json_Unmarshal_answer _) as [answer|]; [|by split_and!; [..|intros ?|intros ?]].
  unfold main.fallible, peer.fallible. cbn [fst snd].
  destruct (fails _); [by split_and!; [..|intros ?|intros ?]|].
  match goal with |- context [readLoop s m reads ?x] =>
    destruct (IH m x) as (-> & -> & -> & -> & -> & Hm & Hs); set (sv1 := x) in * end.
  assert (media_unchanged (main.world sv) (main.world sv1)
          ∧ senders_unchanged (main.world sv) (main.world sv1)) as [Hm1 Hs1].
  { split; intros h; unfold sv1; cbn [main.world main.set_world];
      change (pc_at (next_tick ?x) ?y) with (pc_at x y);
      (destruct (decide (h = main.peerConnection s)) as [->|Hne];
       [rewrite pc_at_set_pc_eq|rewrite pc_at_set_pc_ne by done]); done. }
  split_and!; try done.
  - by eapply media_unchanged_trans.
  - intros h. by rewrite Hs, Hs1.
Qed.

Lemma last_log_snoc es e sv :
  last (trace (main.world (main.log (es ++ [e]) sv))) = Some e.
Proof. by rewrite log_trace, app_assoc, last_snoc. Qed.

Lemma teardown_frame roomID peerConnection c sv :
  let sv' := main.teardown roomID peerConnection c sv in
  main.nextRoom sv' = main.nextRoom sv ∧ main.nextPC sv' = main.nextPC sv
  ∧ (main.rooms sv' = main.rooms sv ∨ main.rooms sv' = delete roomID (main.rooms sv))
  ∧ webrtc.connectionState (pc_at (main.world sv') peerConnection)
    = webrtc.PeerConnectionStateClosed
  ∧ (∀ h, h ≠ peerConnection → pc_at (main.world sv') h = pc_at (main.world sv) h)
  ∧ last (trace (main.world sv')) = Some (EvCloseWebsocket c).
Proof.
  cbn zeta. unfold main.teardown.
  destruct (closePeerConnection_effect peerConnection sv)
    as (Hr1 & Hh1 & Hn1 & Hp1 & Hclosed & Hother & _ & Ht1).
  destruct (removePeerFromRoom_effect roomID peerConnection
              (main.closePeerConnection peerConnection sv)) as (_ & Hpcs & _).
  destruct (removePeerFromRoom_registry roomID peerConnection
              (main.closePeerConnection peerConnection sv)) as (Hn2 & Hp2 & Hr2).
  split_and!.
  - cbn. by rewrite Hn2.
  - cbn. by rewrite Hp2.
  - cbn [main.rooms main.log main.set_world]. by rewrite <- Hr1.
  - change (main.world (main.log ?es ?x)) with (emit (EvCloseWebsocket c) (main.world x)).
    change (pc_at (emit ?e ?w) ?h) with (pc_at w h).
    by rewrite (pc_at_pcs _ _ _ Hpcs).
  - intros h Hne.
    change (main.world (main.log ?es ?x)) with (emit (EvCloseWebsocket c) (main.world x)).
    change (pc_at (emit ?e ?w) ?h) with (pc_at w h).
    rewrite (pc_at_pcs _ _ _ Hpcs). by apply Hother.
  - apply (last_log_snoc []).
Qed.

Lemma getOrCreateRoom_registered roomID sv :
  main.rooms (main.getOrCreateRoom roomID sv).2 !! roomID
  = Some (main.getOrCreateRoom roomID sv).1.
Proof.
  unfold main.getOrCreateRoom.
  change (main.rooms (main.log _ sv)) with (main.rooms sv).
  destruct (main.rooms sv !! roomID) eqn:Hlk; cbn; [done|]. by rewrite lookup_insert_eq.
Qed.

Lemma getOrCreateRoom_slices roomID sv :
  (∀ ptr, slice.len (main.PeerConnections (main.room_at sv ptr))
          ≤ length (slice.backing (main.PeerConnections (main.room_at sv ptr)))) →
  ∀ ptr, slice.len (main.PeerConnections
                      (main.room_at (main.getOrCreateRoom roomID sv).2 ptr))
         ≤ length (slice.backing
                     (main.PeerConnections
                        (main.room_at (main.getOrCreateRoom roomID sv).2 ptr))).
Proof.
  intros Hwf ptr. unfold main.getOrCreateRoom.
  change (main.rooms (main.log _ sv)) with (main.rooms sv).
  destruct (main.rooms sv !! roomID); cbn [snd]; [apply Hwf|].
  unfold main.room_at, main.log. cbn.
  destruct (decide (ptr = main.nextRoom sv)) as [->|Hne].
  - rewrite lookup_total_insert_eq. cbn. lia.
  - rewrite lookup_total_insert_ne by done. apply Hwf.
Qed.

(** X13.  A join that gets through.  The room is registered under the
    identifier joined, which is not empty.  The record of the peer (a new
    peer-connection handle, the websocket of the client and a name that is
    not empty) is appended at the end of the list of the room, after the
    records that were there; the tracks of the room and all the other
    rooms are as [getOrCreateRoom] left them.  The new peer-connection is
    in the state New, with no sender and one receiver without a track (the
    receive-only transceiver); no other peer-connection is touched; and
    two library calls that can fail were made ([NewPeerConnection] and
    [AddTransceiverFromKind]). *)
Theorem join_registers_one_record c first sv s sv' :
  (∀ ptr, slice.len (main.PeerConnections (main.room_at sv ptr))
          ≤ length (slice.backing (main.PeerConnections (main.room_at sv ptr)))) →
  handshake c first sv = main.Joined s sv' →
  let g := main.getOrCreateRoom (main.roomID s) sv in
  let record := {| PeerConnection := main.nextPC sv; Websocket := c;
                   Name := main.userName s |} in
  main.rooms sv' !! main.roomID s = Some (main.room s)
  ∧ main.peerConnection s = main.nextPC sv
  ∧ main.nextPC sv' = S (main.nextPC sv)
  ∧ main.roomID s ≠ "" ∧ main.userName s ≠ ""
  ∧ slice.elems (main.PeerConnections (main.room_at sv' (main.room s)))
    = slice.elems (main.PeerConnections (main.room_at g.2 (main.room s))) ++ [record]
  ∧ main.TrackLocals (main.room_at sv' (main.room s))
    = main.TrackLocals (main.room_at g.2 (main.room s))
  ∧ (∀ ptr, ptr ≠ main.room s → main.room_at sv' ptr = main.room_at g.2 ptr)
  ∧ pc_at (main.world sv') (main.peerConnection s)
    = {| webrtc.connectionState := webrtc.PeerConnectionStateNew;
         webrtc.senders := []; webrtc.receivers := [None];
         webrtc.localDescription := None; webrtc.remoteDescription := None |}
  ∧ (∀ h, h ≠ main.peerConnection s →
          pc_at (main.world sv') h = pc_at (main.world sv) h)
  ∧ tick (main.world sv') = tick (main.world sv) + 2.
Proof.
  intros Hwf Hhs. cbn zeta.
  pose proof (handshake_effect fails json_Unmarshal_message json_Unmarshal_joinData
                c first sv) as Heff.
  rewrite Hhs in Heff. cbn zeta in Heff.
  destruct Heff as (_ & Hid & Hname & Hroom & Hpc & Hrooms & _ & Hnext & Hat & Hother
                    & Hpcs & Htick & _).
  rewrite Hroom, Hpc.
  split_and!; try done.
  - rewrite Hrooms. apply getOrCreateRoom_registered.
  - rewrite Hat. cbn [main.PeerConnections main.set_PeerConnections].
    apply elems_append. by apply getOrCreateRoom_slices.
  - by rewrite Hat.
  - unfold pc_at. by rewrite Hpcs, lookup_total_insert_eq.
  - intros h Hne. unfold pc_at. by rewrite Hpcs, lookup_total_insert_ne.
Qed.

Lemma getOrCreateRoom_cases roomID sv :
  let g := main.getOrCreateRoom roomID sv in
  (main.rooms sv !! roomID = Some g.1 ∧ main.rooms g.2 = main.rooms sv
   ∧ main.heap g.2 = main.heap sv)
  ∨ (main.rooms sv !! roomID = None ∧ g.1 = main.nextRoom sv
     ∧ main.rooms g.2 = <[roomID := main.nextRoom sv]> (main.rooms sv)
     ∧ main.heap g.2 = <[main.nextRoom sv := main.newRoom]> (main.heap sv)).
Proof.
  cbn zeta. unfold main.getOrCreateRoom.
  change (main.rooms (main.log _ sv)) with (main.rooms sv).
  destruct (main.rooms sv !! roomID) eqn:Hlk; cbn; [by left|by right].
Qed.

(** X14.  A handshake that returns without joining registers no peer.
    On a well-formed registry none of whose rooms holds a record with the
    next peer-connection handle: every room registered before is exactly
    as before; a room registered afterwards was registered before, or is
    a new room without peers, tracks and labels; either no
    peer-connection was constructed, or one was (the transceiver could not
    be added), it is closed and no other one changed; and the last thing
    done is closing the websocket. *)
Theorem failed_join_registers_no_peer c first sv sv' :
  registry_wf sv →
  (∀ id ptr q, main.rooms sv !! id = Some ptr →
               q ∈ slice.elems (main.PeerConnections (main.room_at sv ptr)) →
               PeerConnection q ≠ main.nextPC sv) →
  handshake c first sv = main.Returned sv' →
  (∀ id ptr, main.rooms sv !! id = Some ptr → main.room_at sv' ptr = main.room_at sv ptr)
  ∧ (∀ id ptr, main.rooms sv' !! id = Some ptr →
               main.rooms sv !! id = Some ptr
               ∨ (main.rooms sv !! id = None ∧ main.room_at sv' ptr = main.newRoom))
  ∧ (main.nextPC sv' = main.nextPC sv ∧ pcs (main.world sv') = pcs (main.world sv)
     ∨ main.nextPC sv' = S (main.nextPC sv)
       ∧ webrtc.connectionState (pc_at (main.world sv') (main.nextPC sv))
         = webrtc.PeerConnectionStateClosed
       ∧ ∀ h, h ≠ main.nextPC sv → pc_at (main.world sv') h = pc_at (main.world sv) h)
  ∧ last (trace (main.world sv')) = Some (EvCloseWebsocket c).
Proof.
  intros Hwf Hfresh Hhs.
  pose proof (handshake_effect fails json_Unmarshal_message json_Unmarshal_joinData
                c first sv) as Heff.
  rewrite Hhs in Heff.
  destruct Heff as [->|[(r & w & -> & Hpcs)|(r & svT & -> & Hr & Hh & Hn & Hp & Hpcs)]].
  { split_and!; [done|by left|by left|apply (last_log_snoc [])]. }
  all: assert (∀ id ptr, main.rooms sv !! id = Some ptr →
                 main.room_at (main.getOrCreateRoom r sv).2 ptr = main.room_at sv ptr)
         as Hsame
         by (intros id ptr Hlk; apply getOrCreateRoom_room_at; by eapply (proj1 Hwf)).
  all: destruct (getOrCreateRoom_world r sv) as (_ & _ & HnextPC & _).
  all: pose proof (getOrCreateRoom_cases r sv) as Hcases; cbn zeta in Hcases.
  - split_and!.
    + intros id ptr Hlk. simpl_room_at. by eapply Hsame.
    + intros id ptr.
      change (main.rooms (main.log ?es (main.set_world ?w ?x))) with (main.rooms x).
      change (main.room_at (main.log ?es (main.set_world ?w ?x)) ptr)
        with (main.room_at x ptr).
      destruct Hcases as [(_ & -> & _)|(Hnone & Hg & -> & Hheap)]; [by left|].
      intros [[<- <-]|[_ Hlk]]%lookup_insert_Some; [right|by left].
      split; [done|]. unfold main.room_at. by rewrite Hheap, lookup_total_insert_eq.
    + left. split; [exact HnextPC|]. cbn. exact Hpcs.
    + apply (last_log_snoc [_]).
  - destruct (teardown_frame r (main.nextPC sv) c svT)
      as (_ & HpT & _ & Hclosed & Hother & Hlast).
    unfold main.teardown in *.
    destruct (closePeerConnection_effect (main.nextPC sv) svT) as (Hr1 & Hh1 & _).
    set (sv1 := main.closePeerConnection (main.nextPC sv) svT) in *.
    destruct (removePeerFromRoom_effect r (main.nextPC sv) sv1) as (Hroom & _).
    assert (∀ p, main.room_at sv1 p = main.room_at (main.getOrCreateRoom r sv).2 p)
      as Hroom1.
    { intros p. unfold main.room_at. by rewrite Hh1, Hh. }
    assert (main.rooms sv1 = main.rooms (main.getOrCreateRoom r sv).2) as Hrooms1
      by (by rewrite Hr1).
    split_and!.
    + intros id ptr Hlk. simpl_room_at. rewrite Hroom, !Hroom1, (Hsame id ptr Hlk).
      case_decide; [|done].
      rewrite splicePeer_absent; [apply set_PeerConnections_id|].
      intros q Hq. by eapply Hfresh.
    + intros id ptr.
      change (main.rooms (main.log ?es ?x)) with (main.rooms x).
      change (main.room_at (main.log ?es ?x) ptr) with (main.room_at x ptr).
      destruct (removePeerFromRoom_registry r (main.nextPC sv) sv1) as (_ & _ & Hreg).
      destruct Hcases as [(Hsome & Hg & _)|(Hnone & Hg & Hg2 & Hheap)].
      * rewrite Hrooms1, Hg in Hreg. destruct Hreg as [->| ->]; [by left|].
        intros [_ ?]%lookup_delete_Some. by left.
      * destruct (decide (id = r)) as [->|Hne].
        -- intros Hlk. exfalso.
           assert (main.rooms sv1 !! r = Some (main.nextRoom sv)) as Hlk1
             by (by rewrite Hrooms1, Hg2, lookup_insert_eq).
           pose proof (removePeerFromRoom_deletes_iff r (main.nextPC sv) sv1 _ Hlk1)
             as Hiff.
           rewrite Hroom1 in Hiff.
           assert (main.room_at (main.getOrCreateRoom r sv).2 (main.nextRoom sv)
                   = main.newRoom) as Hnew.
           { unfold main.room_at. by rewrite Hheap, lookup_total_insert_eq. }
           rewrite Hnew in Hiff. rewrite (proj2 Hiff) in Hlk; [done|].
           split; [done|]. cbn. by rewrite map_size_empty.
        -- rewrite Hrooms1, Hg2 in Hreg.
           destruct Hreg as [->| ->]; rewrite ?lookup_delete_ne by done;
             rewrite lookup_insert_ne by done; by left.
    + right. split; [by rewrite HpT|]. split; [done|].
      intros h Hne. rewrite (Hother h Hne). unfold pc_at.
      by rewrite Hpcs, lookup_total_insert_ne.
    + done.
Qed.

(** X15.  Whatever the client sends and whatever fails, a handler call
    that nothing interleaves with ends by closing the websocket, allocates
    at most one room, and either constructs no peer-connection and leaves
    all of them as they were, or constructs exactly one, which is closed
    when the handler returns, the connection state of every other one
    being as before. *)
Theorem websocketHandler_releases_what_it_acquired c reads sv :
  let sv' := websocketHandler c reads sv in
  last (trace (main.world sv')) = Some (EvCloseWebsocket c)
  ∧ main.nextRoom sv ≤ main.nextRoom sv' ≤ S (main.nextRoom sv)
  ∧ (main.nextPC sv' = main.nextPC sv ∧ pcs (main.world sv') = pcs (main.world sv)
     ∨ main.nextPC sv' = S (main.nextPC sv)
       ∧ webrtc.connectionState (pc_at (main.world sv') (main.nextPC sv))
         = webrtc.PeerConnectionStateClosed
       ∧ ∀ h, h ≠ main.nextPC sv →
              webrtc.connectionState (pc_at (main.world sv') h)
              = webrtc.connectionState (pc_at (main.world sv) h)).
Proof.
  cbn zeta. unfold main.websocketHandler.
  set (first := match reads with [] => None | first :: _ => first end).
  pose proof (handshake_effect fails json_Unmarshal_message json_Unmarshal_joinData
                c first sv) as Heff.
  assert (∀ r, main.nextRoom sv ≤ main.nextRoom (main.getOrCreateRoom r sv).2
               ≤ S (main.nextRoom sv)) as Hrooms.
  { intros r. unfold main.getOrCreateRoom.
    change (main.rooms (main.log _ sv)) with (main.rooms sv).
    destruct (main.rooms sv !! r); cbn; lia. }
  destruct (handshake c first sv) as [sv1|s sv1].
  - destruct Heff as [->|[(r & w & -> & Hpcs)|(r & svT & -> & Hr & Hh & Hn & Hp & Hpcs)]].
    + split; [apply (last_log_snoc [])|]. split; [cbn; lia|by left].
    + destruct (getOrCreateRoom_world r sv) as (_ & _ & HnextPC & _).
      split; [apply (last_log_snoc [_])|]. split; [apply (Hrooms r)|left].
      split; [exact HnextPC|]. cbn. exact Hpcs.
    + destruct (teardown_frame r (main.nextPC sv) c svT)
        as (HnT & HpT & _ & Hclosed & Hother & Hlast).
      split; [done|]. split; [rewrite HnT, Hn; apply Hrooms|right].
      split; [by rewrite HpT|]. split; [done|].
      intros h Hne. rewrite (Hother h Hne). unfold pc_at.
      by rewrite Hpcs, lookup_total_insert_ne.
  - cbn zeta in Heff.
    destruct Heff as (_ & _ & _ & _ & Hpc & _ & Hn & Hnext & _ & _ & Hpcs & _).
    rewrite Hpc.
    destruct (signalRoom_world (main.room s) sv1) as (Hn2 & Hp2 & Hm2).
    set (sv2 := main.signalRoom fails (main.room s) sv1) in *.
    match goal with |- context [readLoop s ?m ?rs sv2] =>
      destruct (readLoop_frame s m rs sv2) as (_ & _ & Hn3 & Hp3 & _ & Hm3 & _);
      set (sv3 := readLoop s m rs sv2) in * end.
    cbn zeta in Hn3, Hp3, Hm3.
    destruct (teardown_frame (main.roomID s) (main.nextPC sv) c sv3)
      as (HnT & HpT & _ & Hclosed & Hother & Hlast).
    split; [done|]. split; [rewrite HnT, Hn3, Hn2, Hn; apply Hrooms|right].
    split; [by rewrite HpT, Hp3, Hp2|]. split; [done|].
    intros h Hne. rewrite (Hother h Hne).
    rewrite (proj1 (Hm3 h)), (proj1 (Hm2 h)). unfold pc_at.
    by rewrite Hpcs, lookup_total_insert_ne.
Qed.
End Session.

Section RegistryChange.
Variable fails : nat -> bool.
Variable json_Unmarshal_message : ws.WebsocketMessage -> string -> option ws.WebsocketMessage.
Variable json_Unmarshal_joinData : string -> option main.joinData.t.
Variable json_Unmarshal_candidate : string -> option string.
Variable json_Unmarshal_answer : string -> option webrtc.SessionDescription.

(** X16.  A handler call that nothing interleaves with changes the
    registry by at most one entry: afterwards the registry is as before,
    or an identifier that was not registered is bound to the next free
    room, or one identifier that was registered is gone. *)
Theorem websocketHandler_changes_at_most_one_room c reads sv :
  let sv' := main.websocketHandler fails json_Unmarshal_message json_Unmarshal_joinData
               json_Unmarshal_candidate json_Unmarshal_answer c reads sv in
  main.rooms sv' = main.rooms sv
  ∨ ∃ r, (main.rooms sv !! r = None
          ∧ main.rooms sv' = <[r := main.nextRoom sv]> (main.rooms sv))
         ∨ (is_Some (main.rooms sv !! r) ∧ main.rooms sv' = delete r (main.rooms sv)).
Proof.
  cbn zeta. unfold main.websocketHandler.
  set (first := match reads with [] => None | first :: _ => first end).
  pose proof (handshake_effect fails json_Unmarshal_message json_Unmarshal_joinData
                c first sv) as Heff.
  assert (∀ r sv1,
            main.rooms sv1 = main.rooms (main.getOrCreateRoom r sv).2 →
            main.rooms sv1 = main.rooms sv
            ∨ main.rooms sv !! r = None
              ∧ main.rooms sv1 = <[r := main.nextRoom sv]> (main.rooms sv)) as Hcreate.
  { intros r sv1 ->. pose proof (getOrCreateRoom_cases r sv) as Hc. cbn zeta in Hc.
    destruct Hc as [(_ & -> & _)|(Hnone & _ & -> & _)]; [by left|by right]. }
  assert (∀ r pc sv1,
            main.rooms sv1 = main.rooms (main.getOrCreateRoom r sv).2 →
            main.rooms (main.teardown r pc c sv1) = main.rooms sv
            ∨ ∃ r', (main.rooms sv !! r' = None
                     ∧ main.rooms (main.teardown r pc c sv1)
                       = <[r' := main.nextRoom sv]> (main.rooms sv))
                    ∨ (is_Some (main.rooms sv !! r')
                       ∧ main.rooms (main.teardown r pc c sv1)
                         = delete r' (main.rooms sv)))
    as Hteardown.
  { intros r pc sv1 Hr1.
    destruct (teardown_frame r pc c sv1) as (_ & _ & Hreg & _).
    destruct (Hcreate r sv1 Hr1) as [Hsame|[Hnone Hnew]].
    - destruct Hreg as [Hreg|Hreg]; [left; by rewrite Hreg|].
      destruct (main.rooms sv !! r) eqn:Hlk.
      + right. exists r. right. rewrite Hlk, Hreg, Hsame. split; [by eexists|done].
      + left. rewrite Hreg, Hsame. by apply delete_id.
    - destruct Hreg as [Hreg|Hreg].
      + right. exists r. left. by rewrite Hreg.
      + left. rewrite Hreg, Hnew. by apply delete_insert_id. }
  destruct (main.handshake _ _ _ c first sv) as [sv1|s sv1].
  - destruct Heff as [->|[(r & w & -> & _)|(r & svT & -> & Hr & _)]].
    + by left.
    + destruct (Hcreate r (main.getOrCreateRoom r sv).2 eq_refl) as [?|?]; [by left|].
      right. by exists r; left.
    + by apply Hteardown.
  - cbn zeta in Heff. destruct Heff as (_ & _ & _ & _ & _ & Hr & _).
    apply Hteardown.
    match goal with |- main.rooms (main.readLoop _ _ _ _ ?s ?m ?rs ?x) = _ =>
      destruct (readLoop_frame fails json_Unmarshal_message json_Unmarshal_candidate
                  json_Unmarshal_answer s m rs x) as (-> & _) end.
    by rewrite (proj1 (signalRoom_spec fails _ _)).
Qed.
End RegistryChange.

(** ** The read loop, the callbacks and the ticker *)

Lemma RoomState_eq r r' :
  main.PeerConnections r = main.PeerConnections r' →
  main.TrackLocals r = main.TrackLocals r' →
  main.TrackNames r = main.TrackNames r' →
  main.StreamNames r = main.StreamNames r' → r = r'.
Proof. destruct r, r'. cbn. by intros -> -> -> ->. Qed.

Lemma registry_wf_same sv sv' :
  main.rooms sv' = main.rooms sv → main.nextRoom sv' = main.nextRoom sv →
  registry_wf sv → registry_wf sv'.
Proof.
  intros Hr Hn. apply registry_wf_submap; [lia|]. by rewrite Hr.
Qed.

Section Callbacks.
Variable fails : nat -> bool.
Variable json_Unmarshal_message : ws.WebsocketMessage -> string -> option ws.WebsocketMessage.
Variable json_Unmarshal_joinData : string -> option main.joinData.t.
Variable json_Unmarshal_candidate : string -> option string.
Variable json_Unmarshal_answer : string -> option webrtc.SessionDescription.

#[local] Abbreviation readLoop' :=
  (main.readLoop fails json_Unmarshal_message json_Unmarshal_candidate
     json_Unmarshal_answer).
#[local] Abbreviation websocketHandler' :=
  (main.websocketHandler fails json_Unmarshal_message json_Unmarshal_joinData
     json_Unmarshal_candidate json_Unmarshal_answer).


(** X18.  The candidate callback touches neither the registry, the
    rooms nor the peer-connections.  For a nil candidate it does nothing
    at all.  Otherwise it writes at most one message, a [candidate]
    message with that candidate to the websocket of the session (none when
    marshalling fails), and whether the write succeeds changes nothing
    else. *)
Theorem onICECandidate_writes_at_most_one_message s i sv :
  let sv' := main.onICECandidate fails s i sv in
  main.rooms sv' = main.rooms sv ∧ main.heap sv' = main.heap sv
  ∧ pcs (main.world sv') = pcs (main.world sv)
  ∧ (i = None → sv' = sv)
  ∧ (trace (main.world sv') = trace (main.world sv)
     ∨ ∃ candidate ok,
         i = Some candidate
         ∧ trace (main.world sv')
           = trace (main.world sv)
               ++ [EvWriteJSON (main.c s) "candidate" (DataText candidate) ok]).
Proof.
  cbn zeta. unfold main.onICECandidate, main.fallible, peer.fallible.
  destruct i as [candidate|]; [|by split_and!; [..|left]]. cbn [fst snd].
  destruct (fails _); [by split_and!; [..|left]|].
  cbn. split_and!; try done. right. by eexists _, _.
Qed.

(** The loop of the ticker over a list of rooms. *)
Lemma keyframeRooms_effect (l : list (string * nat)) sv :
  let sv' :=
    foldl (fun sv kv =>
             let ptr := kv.2 in
             let sv := main.log [EvRLock (roomLock ptr); EvRUnlock (roomLock ptr)] sv in
             main.set_world (peer.DispatchKeyFrame fails (roomLock ptr)
                               (main.PeerConnections (main.room_at sv ptr))
                               (main.world sv)) sv) sv l in
  main.rooms sv' = main.rooms sv ∧ main.heap sv' = main.heap sv
  ∧ main.nextRoom sv' = main.nextRoom sv ∧ main.nextPC sv' = main.nextPC sv
  ∧ pcs (main.world sv') = pcs (main.world sv)
  ∧ ∃ es, trace (main.world sv') = trace (main.world sv) ++ es
          ∧ Forall (fun e => is_lock_event e ∨ is_rtcp_write e) es
          ∧ rtcp_writes es
            = flat_map (fun kv =>
                flat_map (fun p => pli_for (PeerConnection p)
                                     (webrtc.receivers
                                        (pc_at (main.world sv) (PeerConnection p))))
                  (slice.elems (main.PeerConnections (main.room_at sv kv.2)))) l.
Proof.
  cbn zeta. revert sv. induction l as [|[id ptr] l IH]; intros sv.
  - cbn. split_and!; try done. exists []. by rewrite app_nil_r.
  - cbn [foldl snd].
    set (sv0 := main.log [EvRLock (roomLock ptr); EvRUnlock (roomLock ptr)] sv).
    set (ps := main.PeerConnections (main.room_at sv0 ptr)).
    destruct (keyFramePeers_trace fails (slice.elems ps)
                (emit (EvLock (roomLock ptr)) (main.world sv0)))
      as (mid & Ht & Hp & Hw & Ha). cbn zeta in Ht, Hp, Hw.
    set (sv1 := main.set_world (peer.DispatchKeyFrame fails (roomLock ptr) ps
                                  (main.world sv0)) sv0).
    assert (pcs (main.world sv1) = pcs (main.world sv)) as Hpcs1.
    { unfold sv1, peer.DispatchKeyFrame. cbn [main.world main.set_world].
      change (pcs (emit ?e ?x)) with (pcs x). by rewrite Hp. }
    assert (trace (main.world sv1)
            = trace (main.world sv)
                ++ [EvRLock (roomLock ptr); EvRUnlock (roomLock ptr); EvLock (roomLock ptr)]
                ++ mid ++ [EvUnlock (roomLock ptr)]) as Ht1.
    { unfold sv1, peer.DispatchKeyFrame. cbn [main.world main.set_world].
      change (trace (emit ?e ?x)) with (trace x ++ [e]). rewrite Ht.
      change (trace (emit ?e ?x)) with (trace x ++ [e]).
      unfold sv0. rewrite log_trace, <- !app_assoc. done. }
    destruct (IH sv1) as (-> & -> & -> & -> & -> & es & -> & Hes & Hwr).
    split_and!; try done.
    exists ([EvRLock (roomLock ptr); EvRUnlock (roomLock ptr); EvLock (roomLock ptr)]
            ++ mid ++ [EvUnlock (roomLock ptr)] ++ es).
    split_and!.
    + rewrite Ht1, <- !app_assoc. done.
    + repeat (constructor; [left; exact I|]).
      apply Forall_app. split; [eapply Forall_impl; [exact Ha|]; by right|].
      constructor; [left; exact I|done].
    + unfold rtcp_writes in *.
      rewrite !omap_app, Hw, Hwr. cbn [omap list_omap flat_map app snd].
      f_equal. apply flat_map_ext. intros kv. apply flat_map_ext. intros p.
      unfold pc_at. by rewrite Hpcs1.
Qed.

(** X19.  One tick of the keyframe ticker changes neither the registry,
    the rooms, the counters nor any peer-connection, whatever the writes
    return.  It performs lock operations and RTCP writes only, and the
    writes are, room by room as the registry enumerates them and peer by
    peer, one Picture Loss Indication per receiver that has a track. *)
Theorem keyframeTick_changes_no_state sv :
  let sv' := main.keyframeTick fails sv in
  main.rooms sv' = main.rooms sv ∧ main.heap sv' = main.heap sv
  ∧ main.nextRoom sv' = main.nextRoom sv ∧ main.nextPC sv' = main.nextPC sv
  ∧ pcs (main.world sv') = pcs (main.world sv)
  ∧ ∃ es, trace (main.world sv') = trace (main.world sv) ++ es
          ∧ Forall (fun e => is_lock_event e ∨ is_rtcp_write e) es
          ∧ rtcp_writes es
            = flat_map (fun kv =>
                flat_map (fun p => pli_for (PeerConnection p)
                                     (webrtc.receivers
                                        (pc_at (main.world sv) (PeerConnection p))))
                  (slice.elems (main.PeerConnections (main.room_at sv kv.2))))
                (map_to_list (main.rooms sv)).
Proof.
  cbn zeta. unfold main.keyframeTick.
  set (sv0 := main.log [EvRLock roomsLock; EvRUnlock roomsLock] sv).
  destruct (keyframeRooms_effect (map_to_list (main.rooms sv0)) sv0)
    as (H1 & H2 & H3 & H4 & H5 & es & H6 & Hes & Hwr).
  split_and!; [exact H1|exact H2|exact H3|exact H4|exact H5|].
  exists ([EvRLock roomsLock; EvRUnlock roomsLock] ++ es). split_and!.
  - etrans; [exact H6|]. unfold sv0. rewrite log_trace, <- app_assoc. done.
  - repeat (constructor; [left; exact I|]). done.
  - exact Hwr.
Qed.
End Callbacks.

Section IngestLoop.
Variable fails : nat -> bool.
Variable rtp_Unmarshal : rtp.Packet -> list Z -> option rtp.Packet.

End IngestLoop.

(** X21.  When the identifier and the stream identifier of an inbound
    track have no label in the room, recording the labels (lines 336-343)
    and deleting them again (lines 358-361) leaves every room exactly as it
    was, changes neither the registry nor the peer-connections, and
    performs lock operations only. *)
Theorem onTrack_unlabel_undoes_onTrack_label s t sv :
  main.TrackNames (main.room_at sv (main.room s)) !! webrtc.tr_id t = None →
  main.StreamNames (main.room_at sv (main.room s)) !! webrtc.tr_streamID t = None →
  let sv' := main.onTrack_unlabel s t (main.onTrack_label s t sv).2 in
  (∀ ptr, main.room_at sv' ptr = main.room_at sv ptr)
  ∧ main.rooms sv' = main.rooms sv
  ∧ pcs (main.world sv') = pcs (main.world sv)
  ∧ tick (main.world sv') = tick (main.world sv)
  ∧ ∃ es, trace (main.world sv') = trace (main.world sv) ++ es ∧ Forall is_lock_event es.
Proof.
  intros Htn Hsn. cbn zeta. unfold main.onTrack_unlabel, main.onTrack_label. cbn [snd].
  split_and!.
  - intros ptr. destruct (decide (ptr = main.room s)) as [->|Hne].
    + simpl_room_at. apply RoomState_eq; cbn; try done.
      * by rewrite delete_insert_id.
      * by rewrite delete_insert_id.
    + simpl_room_at. done.
  - done.
  - done.
  - done.
  - repeat first [rewrite log_trace | progress cbn [main.world main.set_room]].
    rewrite <- !app_assoc. eexists. split; [reflexivity|]. by repeat constructor.
Qed.

(** X22.  The deferred deletion of the labels (lines 358-361) deletes
    the labels under the identifier and the stream identifier of the
    inbound track and nothing else: a label recorded under the identifier
    of the forwarding track, when that one is different (lines 349-355),
    is still there afterwards. *)
Theorem local_label_survives_the_unlabelling s t name trackLocal sv :
  webrtc.tl_id trackLocal ≠ webrtc.tr_id t →
  let sv' := main.onTrack_unlabel s t (main.onTrack_labelLocal s t name trackLocal sv) in
  main.TrackNames (main.room_at sv' (main.room s)) !! webrtc.tl_id trackLocal = Some name
  ∧ main.TrackNames (main.room_at sv' (main.room s)) !! webrtc.tr_id t = None
  ∧ main.StreamNames (main.room_at sv' (main.room s)) !! webrtc.tr_streamID t = None.
Proof.
  intros Hne. cbn zeta. unfold main.onTrack_unlabel, main.onTrack_labelLocal.
  apply String.eqb_neq in Hne as Hneb. rewrite Hneb. cbn [negb].
  simpl_room_at. cbn [main.TrackNames main.StreamNames main.set_TrackNames
                        main.set_StreamNames].
  split_and!.
  - rewrite lookup_delete_ne by done. by rewrite lookup_insert_eq.
  - by rewrite lookup_delete_eq.
  - by rewrite lookup_delete_eq.
Qed.

(** ** The registry stays well formed *)

Section Registry.
Variable fails : nat -> bool.
Variable json_Unmarshal_message : ws.WebsocketMessage -> string -> option ws.WebsocketMessage.
Variable json_Unmarshal_joinData : string -> option main.joinData.t.
Variable json_Unmarshal_candidate : string -> option string.
Variable json_Unmarshal_answer : string -> option webrtc.SessionDescription.

Lemma teardown_registry_wf roomID peerConnection c sv :
  registry_wf sv → registry_wf (main.teardown roomID peerConnection c sv).
Proof.
  intros Hwf. unfold main.teardown.
  eapply registry_wf_same; [| |apply removePeerFromRoom_registry_wf]; [done|done|].
  eapply registry_wf_same; [| |exact Hwf]; done.
Qed.

Lemma signalRoom_registry_wf ptr sv :
  registry_wf sv → registry_wf (main.signalRoom fails ptr sv).
Proof.
  apply registry_wf_same; [apply signalRoom_spec|apply signalRoom_world].
Qed.

(** X23.  The registry stays well formed (every registered room is an
    allocated one, and no two identifiers name the same room) across a
    whole handler call, the candidate callback, the connection-state
    callback, the recording and the deletion of labels, and a tick of the
    keyframe ticker. *)
Theorem registry_stays_well_formed c reads s i p t name trackLocal sv :
  registry_wf sv →
  registry_wf (main.websocketHandler fails json_Unmarshal_message json_Unmarshal_joinData
                 json_Unmarshal_candidate json_Unmarshal_answer c reads sv)
  ∧ registry_wf (main.onICECandidate fails s i sv)
  ∧ registry_wf (main.onConnectionStateChange fails s p sv)
  ∧ registry_wf (main.onTrack_label s t sv).2
  ∧ registry_wf (main.onTrack_labelLocal s t name trackLocal sv)
  ∧ registry_wf (main.onTrack_unlabel s t sv)
  ∧ registry_wf (main.keyframeTick fails sv).
Proof.
  intros Hwf. split_and!.
  - unfold main.websocketHandler.
    set (first := match reads with [] => None | first :: _ => first end).
    pose proof (handshake_effect fails json_Unmarshal_message json_Unmarshal_joinData
                  c first sv) as Heff.
    destruct (main.handshake _ _ _ c first sv) as [sv1|s1 sv1].
    + destruct Heff as [->|[(r & w & -> & _)|(r & svT & -> & Hr & _ & Hn & _)]].
      * by apply (registry_wf_same sv).
      * eapply registry_wf_same; [| |apply (getOrCreateRoom_registry_wf r), Hwf]; done.
      * apply teardown_registry_wf.
        eapply registry_wf_same; [| |apply (getOrCreateRoom_registry_wf r), Hwf]; done.
    + cbn zeta in Heff. destruct Heff as (_ & _ & _ & _ & _ & Hr & Hn & _).
      apply teardown_registry_wf.
      match goal with |- registry_wf (main.readLoop _ _ _ _ ?s ?m ?rs ?x) =>
        destruct (readLoop_frame fails json_Unmarshal_message json_Unmarshal_candidate
                    json_Unmarshal_answer s m rs x) as (Hr3 & _ & Hn3 & _) end.
      eapply registry_wf_same; [exact Hr3|exact Hn3|].
      apply signalRoom_registry_wf.
      eapply registry_wf_same;
        [exact Hr|exact Hn|apply (getOrCreateRoom_registry_wf (main.roomID s1)), Hwf].
  - eapply registry_wf_same; [apply onICECandidate_rooms| |exact Hwf].
    unfold main.onICECandidate, main.fallible, peer.fallible. destruct i; [|done]. cbn.
    by destruct (fails _).
  - destruct p; try done. by apply signalRoom_registry_wf.
  - by apply (registry_wf_same sv).
  - unfold main.onTrack_labelLocal. destruct (negb _); [|done].
    by apply (registry_wf_same sv).
  - by apply (registry_wf_same sv).
  - destruct (keyframeRooms_effect fails
                (map_to_list (main.rooms (main.log [EvRLock roomsLock; EvRUnlock roomsLock] sv)))
                (main.log [EvRLock roomsLock; EvRUnlock roomsLock] sv))
      as (Hr & _ & Hn & _).
    eapply registry_wf_same; [exact Hr|exact Hn|].
    by apply (registry_wf_same sv).
Qed.
End Registry.

(** ** The offers of an attempt *)

Lemma offers_app es1 es2 : offers (es1 ++ es2) = offers es1 ++ offers es2.
Proof. apply omap_app. Qed.

Lemma offers_track_changes es : Forall is_track_change es → offers es = [].
Proof.
  induction 1 as [|e es He _ IH]; [done|]. destruct e; try done; exact IH.
Qed.

Section AttemptOffers.
Variable fails : nat -> bool.
Variable trackLocals : gmap string webrtc.TrackLocalStaticRTP.
Variables trackNames streamNames : gmap string string.

(** The body of the loop, when it gets through, has written one offer, to
    the websocket of its peer. *)
Lemma syncPeer_offers p w :
  let r := peer.syncPeer fails trackLocals trackNames streamNames p w in
  r.1 = false →
  ∃ es, trace r.2 = trace w ++ es
        ∧ offers es
          = [(Websocket p,
              webrtc.sd_tracks (peer.offerOf (pc_at r.2 (PeerConnection p))),
              trackNames, streamNames)].
Proof.
  cbn zeta. unfold peer.syncPeer. set (h := PeerConnection p).
  destruct (scanSenders_trace fails trackLocals h (webrtc.senders (pc_at w h)) 0 ∅ w)
    as (e1 & H1 & F1%offers_track_changes).
  destruct (peer.scanSenders _ _ _ _ _ _ _) as [[r ex] w2]. cbn [fst snd] in *.
  destruct r; [done|].
  match goal with |- context [peer.addTracks fails h ?ex ?todo w2] =>
    destruct (addTracks_trace fails h ex todo w2) as (e2 & H2 & F2%offers_track_changes) end.
  destruct (peer.addTracks _ _ _ _ _) as [r w3]. cbn [fst snd] in *.
  destruct r; [done|].
  destruct (sendOffer_spec fails trackNames streamNames p w3) as (_ & _ & Hoffer).
  intros Hr. destruct (Hoffer Hr) as [Ht _].
  eexists (e1 ++ e2 ++ [_; _; _]). split.
  - rewrite Ht, H2, H1, <- !app_assoc. reflexivity.
  - rewrite !offers_app, F1, F2. reflexivity.
Qed.

(** X24.  An attempt that does not ask for a retry gives the list back
    as it was and has written exactly one offer message per peer of the
    list, in the order of the list, each to the websocket of its peer and
    carrying the labels [trackNames] and [streamNames]; besides, it made
    signaling calls only. *)
Theorem attemptSync_without_retry_offers_each_peer_once s w s1 w1 :
  peer.attemptSync fails trackLocals trackNames streamNames s w = (false, s1, w1) →
  s1 = s
  ∧ ∃ es, trace w1 = trace w ++ es
          ∧ Forall is_sync_step es
          ∧ Forall2 (fun o p => o.1.1.1 = Websocket p
                                ∧ o.1.2 = trackNames ∧ o.2 = streamNames)
              (offers es) (slice.elems s).
Proof.
  unfold peer.attemptSync. generalize 0. generalize (slice.elems s) as todo.
  intros todo. revert w. induction todo as [|p todo IH]; intros w i.
  - cbn. intros [= <- <-]. split; [done|]. exists []. rewrite app_nil_r.
    split_and!; [done|constructor|constructor].
  - cbn [peer.scanPeers]. case_decide; [done|].
    pose proof (syncPeer_offers p w) as Hp. cbn zeta in Hp.
    destruct (syncPeer_trace fails trackLocals trackNames streamNames p w) as (e0 & Ht0 & F0).
    destruct (peer.syncPeer _ _ _ _ _ _) as [r w2]. cbn [fst snd] in *.
    destruct r; [done|]. destruct (Hp eq_refl) as (e1 & Ht1 & Ho1).
    assert (e0 = e1) as -> by (rewrite Ht0 in Ht1; by apply app_inv_head in Ht1).
    intros Hscan. destruct (IH _ _ Hscan) as (-> & es & Ht & Hsteps & Hall).
    split; [done|]. exists (e1 ++ es). split_and!.
    + by rewrite Ht, Ht1, <- app_assoc.
    + by apply Forall_app.
    + rewrite offers_app, Ho1. cbn [app]. constructor; [done|exact Hall].
Qed.
End AttemptOffers.

Section Addressed.
Variable fails : nat -> bool.
Variable trackLocals : gmap string webrtc.TrackLocalStaticRTP.
Variables trackNames streamNames : gmap string string.

Lemma scanSenders_addressed p ss j ex w :
  ∃ es, trace (peer.scanSenders fails trackLocals (PeerConnection p) j ss ex w).2
        = trace w ++ es
        ∧ Forall (addressed p) es.
Proof.
  revert j ex w. induction ss as [|[t|] ss IH]; intros j ex w; cbn.
  - exists []. by rewrite app_nil_r.
  - destruct (trackLocals !! webrtc.tl_id t); [apply IH|].
    destruct (fails (tick w)); cbn.
    + eexists [_]. split; [done|]. by repeat constructor.
    + edestruct IH as (es & -> & Hes). cbn. eexists (_ :: es).
      rewrite <- app_assoc. split; [done|]. by constructor.
  - apply IH.
Qed.

Lemma addTracks_addressed p ex todo w :
  ∃ es, trace (peer.addTracks fails (PeerConnection p) ex todo w).2 = trace w ++ es
        ∧ Forall (addressed p) es.
Proof.
  revert w. induction todo as [|[id t] todo IH]; intros w; cbn.
  - exists []. by rewrite app_nil_r.
  - case_decide; [apply IH|].
    destruct (fails (tick w)); cbn.
    + eexists [_]. split; [done|]. by repeat constructor.
    + edestruct IH as (es & -> & Hes). cbn. eexists (_ :: es).
      rewrite <- app_assoc. split; [done|]. by constructor.
Qed.

Lemma sendOffer_addressed p w :
  ∃ es, trace (peer.sendOffer fails p trackNames streamNames w).2 = trace w ++ es
        ∧ Forall (addressed p) es.
Proof.
  unfold peer.sendOffer, peer.fallible. cbn.
  repeat (match goal with |- context [fails ?n] => destruct (fails n) end; cbn);
    rewrite <- ?app_assoc; eexists; (split; [reflexivity|]); by repeat constructor.
Qed.

Lemma syncPeer_addressed p w :
  ∃ es, trace (peer.syncPeer fails trackLocals trackNames streamNames p w).2 = trace w ++ es
        ∧ Forall (addressed p) es.
Proof.
  unfold peer.syncPeer.
  destruct (scanSenders_addressed p (webrtc.senders (pc_at w (PeerConnection p))) 0 ∅ w)
    as (e1 & H1 & F1).
  destruct (peer.scanSenders _ _ _ _ _ _ _) as [[r ex] w1]. cbn in H1.
  destruct r; [by exists e1|].
  destruct (addTracks_addressed p
              (peer.scanReceivers (webrtc.receivers (pc_at w1 (PeerConnection p))) ex)
              (map_to_list trackLocals) w1) as (e2 & H2 & F2).
  destruct (peer.addTracks _ _ _ _ _) as [r w2]. cbn in H2.
  destruct r.
  - exists (e1 ++ e2). cbn. rewrite H2, H1, <- app_assoc. split; [done|]. by apply Forall_app.
  - destruct (sendOffer_addressed p w2) as (e3 & H3 & F3).
    exists (e1 ++ e2 ++ e3). rewrite H3, H2, H1, <- !app_assoc. split; [done|].
    by rewrite !Forall_app.
Qed.

Lemma scanPeers_addressed s i todo w :
  ∃ es, trace (peer.scanPeers fails trackLocals trackNames streamNames s i todo w).2
        = trace w ++ es
        ∧ Forall (fun e => ∃ p, p ∈ todo
                                ∧ webrtc.connectionState (pc_at w (PeerConnection p))
                                  ≠ webrtc.PeerConnectionStateClosed
                                ∧ addressed p e) es.
Proof.
  revert i w. induction todo as [|p todo IH]; intros i w; cbn [peer.scanPeers].
  - exists []. by rewrite app_nil_r.
  - case_decide as Hopen; [exists []; by rewrite app_nil_r|].
    destruct (syncPeer_addressed p w) as (e1 & H1 & F1).
    pose proof (syncPeer_media fails trackLocals trackNames streamNames p w) as Hm1.
    destruct (peer.syncPeer _ _ _ _ _ _) as [r w1]. cbn [fst snd] in *.
    assert (Forall (fun e => ∃ q, q ∈ p :: todo
                                  ∧ webrtc.connectionState (pc_at w (PeerConnection q))
                                    ≠ webrtc.PeerConnectionStateClosed
                                  ∧ addressed q e) e1) as F1'.
    { eapply Forall_impl; [exact F1|]. intros e He. exists p. split_and!; [by left|done|done]. }
    destruct r; [by exists e1|].
    destruct (IH (S i) w1) as (e2 & H2 & F2).
    exists (e1 ++ e2). rewrite H2, H1, <- app_assoc. split; [done|].
    apply Forall_app. split; [done|].
    eapply Forall_impl; [exact F2|]. intros e (q & Hq & Hopenq & He).
    exists q. split_and!; [by right| |done]. by rewrite <- (proj1 (Hm1 _)).
Qed.

Lemma syncLoop_addressed listLock w0 l0 fuel k s w exit s' w' :
  peer.syncLoop fails fuel listLock trackLocals trackNames streamNames k s w
    = Some (exit, s', w') →
  media_unchanged w0 w → slice.len s ≤ length (slice.backing s) →
  slice.elems s ⊆ l0 →
  ∃ es, trace w' = trace w ++ es
        ∧ Forall (fun e => is_sync_step e →
                           ∃ p, p ∈ l0
                                ∧ webrtc.connectionState (pc_at w0 (PeerConnection p))
                                  ≠ webrtc.PeerConnectionStateClosed
                                ∧ addressed p e) es.
Proof.
  revert k s w. induction fuel as [|fuel IH]; intros k s w; [done|].
  cbn [peer.syncLoop]. case_decide.
  { intros [= <- <- <-] _ _ _. eexists [_]. split; [done|]. by repeat constructor. }
  unfold peer.attemptSync.
  destruct (scanPeers_addressed s 0 (slice.elems s) w) as (e1 & H1 & F1).
  destruct (scanPeers_slice fails trackLocals trackNames streamNames s 0 (slice.elems s) w)
    as (Hm1 & _ & Hsl).
  destruct (peer.scanPeers _ _ _ _ _ _ _ _) as [[again s1] w1]. cbn [fst snd] in *.
  intros Hloop Hm Hwf Hsub.
  assert (Forall (fun e => is_sync_step e →
                           ∃ p, p ∈ l0
                                ∧ webrtc.connectionState (pc_at w0 (PeerConnection p))
                                  ≠ webrtc.PeerConnectionStateClosed
                                ∧ addressed p e) e1) as F1'.
  { eapply Forall_impl; [exact F1|]. intros e (p & Hp & Hopen & He) _.
    exists p. split_and!; [by apply Hsub| |done]. by rewrite <- (proj1 (Hm _)). }
  destruct again.
  - apply IH in Hloop as (es & -> & Hes).
    + exists (e1 ++ EvAttemptSync k true :: es). cbn. rewrite H1, <- !app_assoc.
      split; [done|]. apply Forall_app. split; [done|]. by constructor.
    + intros h. change (pc_at (emit ?e ?x) ?y) with (pc_at x y).
      apply (media_unchanged_trans _ _ _ Hm Hm1).
    + destruct Hsl as [->|(j & p & Hj & _ & ->)]; [done|].
      apply lookup_lt_Some in Hj as Hlt. unfold slice.elems in Hlt.
      rewrite length_take in Hlt.
      rewrite length_backing_remove_at by lia. cbn. lia.
    + destruct Hsl as [->|(j & p & Hj & _ & ->)]; [done|].
      apply lookup_lt_Some in Hj as Hlt. unfold slice.elems in Hlt.
      rewrite length_take in Hlt.
      rewrite elems_remove_at by lia. intros x Hx. apply Hsub.
      eapply elem_of_sublist; [exact Hx|apply sublist_delete].
  - injection Hloop as <- <- <-. exists (e1 ++ [EvAttemptSync k false]). cbn.
    rewrite H1, <- app_assoc. split; [done|]. apply Forall_app. split; [done|].
    by repeat constructor.
Qed.

(** X25.  Whatever the faults and however the call ends, every
    signaling step of the call (a call of [RemoveTrack], [AddTrack],
    [CreateOffer] or [SetLocalDescription], or a message written to a
    websocket) addresses a peer of the given list whose connection is not
    closed: nothing is attached to, detached from or offered to a closed
    peer. *)
Theorem SignalPeerConnections_signals_open_peers_only fuel listLock s w exit s' w' :
  slice.len s ≤ length (slice.backing s) →
  peer.SignalPeerConnections fails fuel listLock trackLocals s trackNames streamNames w
    = Some (exit, s', w') →
  Forall (fun e => is_sync_step e →
                   ∃ p, p ∈ slice.elems s
                        ∧ webrtc.connectionState (pc_at w (PeerConnection p))
                          ≠ webrtc.PeerConnectionStateClosed
                        ∧ addressed p e)
    (drop (length (trace w)) (trace w')).
Proof.
  intros Hwf (w1 & Hloop & _ & scan & Ht & Hscan)%SignalPeerConnections_loop.
  destruct (syncLoop_addressed listLock w (slice.elems s) _ _ _ _ _ _ _ Hloop)
    as (es & Hes & Hall); [by intros h|done|done|].
  rewrite Ht, Hes. cbn. rewrite <- !app_assoc, drop_app_length.
  constructor; [done|]. apply Forall_app. split; [done|].
  constructor; [done|]. constructor; [done|].
  apply Forall_app. split; [|by repeat constructor].
  eapply Forall_impl; [exact Hscan|]. intros e. by destruct e.
Qed.
End Addressed.

(** ** A client alone in a new room *)

Section LoneClient.
Variable fails : nat -> bool.
Variable json_Unmarshal_message : ws.WebsocketMessage -> string -> option ws.WebsocketMessage.
Variable json_Unmarshal_joinData : string -> option main.joinData.t.
Variable json_Unmarshal_candidate : string -> option string.
Variable json_Unmarshal_answer : string -> option webrtc.SessionDescription.

(** The list of a room after a call of the synchronizer on that room: as
    long as before, and made of records it held before. *)
Lemma signalRoom_list ptr sv :
  let l := main.PeerConnections (main.room_at sv ptr) in
  let l' := main.PeerConnections (main.room_at (main.signalRoom fails ptr sv) ptr) in
  slice.len l ≤ length (slice.backing l) →
  slice.len l' = slice.len l ∧ slice.len l' ≤ length (slice.backing l')
  ∧ ∀ x, x ∈ slice.elems l' → x ∈ slice.elems l.
Proof.
  cbn zeta. intros Hwf. unfold main.signalRoom.
  destruct (peer.SignalPeerConnections _ _ _ _ _ _ _ _) as [[[exit theirs] w]|] eqn:Hsig;
    [|done].
  apply SignalPeerConnections_loop in Hsig as (w1 & Hloop & _).
  destruct (syncLoop_slice _ _ _ _ _ (main.world sv)
              (slice.len (main.PeerConnections (main.room_at sv ptr)))
              _ _ _ _ _ _ _ Hloop)
    as (_ & _ & Hcap & _ & _ & _ & Hview & _); [by intros h|done|done|].
  change (main.room_at (main.set_world ?w ?x) ptr) with (main.room_at x ptr).
  rewrite room_at_set_room_eq. cbn. split_and!; [done|done|exact Hview].
Qed.

(** X26.  A client alone in a new room.  When the first message asks to
    join a room, under an identifier that is not empty and not
    registered, then once the handler has returned (nothing interleaving,
    whatever else the client sent and whatever failed later) the registry
    is as it was before, except when the peer-connection could not be
    constructed: then the room created for the join, which is empty, stays
    registered. *)
Theorem lone_client_leaves_the_registry_as_found c raw rest r n sv :
  main.joins json_Unmarshal_message json_Unmarshal_joinData raw r n →
  r ≠ "" →
  main.rooms sv !! r = None →
  main.rooms (main.websocketHandler fails json_Unmarshal_message json_Unmarshal_joinData
                json_Unmarshal_candidate json_Unmarshal_answer c (Some raw :: rest) sv)
  = if fails (tick (main.world sv))
    then <[r := main.nextRoom sv]> (main.rooms sv)
    else main.rooms sv.
Proof.
  intros (m & Hm & He & Hd) Hr Hnone.
  unfold main.websocketHandler, main.handshake.
  rewrite Hm, He. rewrite String.eqb_refl. cbn [negb].
  rewrite Hd. cbn [main.joinData.RoomID main.joinData.Name].
  apply String.eqb_neq in Hr as Hrb. rewrite Hrb.
  destruct (getOrCreateRoom_world r sv) as (_ & Htick & _).
  pose proof (getOrCreateRoom_cases r sv) as Hc. cbn zeta in Hc.
  destruct Hc as [(Hsome & _)|(_ & Hg1 & Hg2 & Hheap)]; [congruence|].
  destruct (main.getOrCreateRoom r sv) as [room sv0]. cbn [fst snd] in *. subst room.
  unfold main.fallible, peer.fallible. cbn [fst snd]. rewrite Htick.
  destruct (fails (tick (main.world sv))); [done|].
  assert (∀ pc sv1,
            main.rooms sv1 = <[r := main.nextRoom sv]> (main.rooms sv) →
            slice.elems (main.PeerConnections (main.room_at sv1 (main.nextRoom sv)))
              `sublist_of` [pc] →
            slice.len (main.PeerConnections (main.room_at sv1 (main.nextRoom sv)))
              ≤ length (slice.backing
                          (main.PeerConnections (main.room_at sv1 (main.nextRoom sv)))) →
            main.TrackLocals (main.room_at sv1 (main.nextRoom sv)) = ∅ →
            main.rooms (main.teardown r (PeerConnection pc) c sv1) = main.rooms sv)
    as Hteardown.
  { intros pc sv1 Hrooms Hlist Hwf Htl. unfold main.teardown.
    change (main.rooms (main.log ?es ?x)) with (main.rooms x).
    destruct (closePeerConnection_effect (PeerConnection pc) sv1) as (Hr1 & Hh1 & _).
    set (sv2 := main.closePeerConnection (PeerConnection pc) sv1) in *.
    assert (main.rooms sv2 !! r = Some (main.nextRoom sv)) as Hlk
      by (by rewrite Hr1, Hrooms, lookup_insert_eq).
    assert (main.room_at sv2 (main.nextRoom sv) = main.room_at sv1 (main.nextRoom sv))
      as Hroom by (unfold main.room_at; by rewrite Hh1).
    destruct (removePeerFromRoom_registry r (PeerConnection pc) sv2) as (_ & _ & Hreg).
    pose proof (removePeerFromRoom_deletes_iff r (PeerConnection pc) sv2 _ Hlk) as Hiff.
    rewrite Hroom, Htl in Hiff.
    assert (slice.len (main.splicePeer (PeerConnection pc)
                         (main.PeerConnections (main.room_at sv1 (main.nextRoom sv)))) = 0)
      as Hlen.
    { set (l := main.PeerConnections (main.room_at sv1 (main.nextRoom sv))) in *.
      assert (length (slice.elems l) = slice.len l) as Hlenl.
      { unfold slice.elems. rewrite length_take. lia. }
      apply sublist_cons_r in Hlist as [Hnil|(l2 & Hel & Hnil)].
      - apply sublist_nil_r in Hnil. rewrite Hnil in Hlenl. cbn in Hlenl.
        rewrite splicePeer_absent; [done|]. rewrite Hnil. by intros q ?%elem_of_nil.
      - apply sublist_nil_r in Hnil as ->.
        destruct (splicePeer_present (PeerConnection pc) l [] pc [] Hwf Hel eq_refl)
          as [-> _]; [constructor|].
        rewrite Hel in Hlenl. cbn in *. lia. }
    destruct Hreg as [Hreg|Hreg].
    - exfalso. assert (main.rooms (main.removePeerFromRoom r (PeerConnection pc) sv2) !! r
                       = None) as Hgone by (apply Hiff; by rewrite map_size_empty).
      rewrite Hreg, Hlk in Hgone. done.
    - rewrite Hreg, Hr1, Hrooms. by apply delete_insert_id. }
  cbn [main.world main.set_world tick next_tick emit set_pc main.nextPC].
  assert (main.room_at sv0 (main.nextRoom sv) = main.newRoom) as Hnew.
  { unfold main.room_at. by rewrite Hheap, lookup_total_insert_eq. }
  destruct (fails _).
  { match goal with |- main.rooms (main.teardown r ?h c ?x) = _ =>
      apply (Hteardown {| PeerConnection := h; Websocket := c; Name := "" |} x) end.
    - done.
    - change (main.room_at ?x (main.nextRoom sv))
        with (main.room_at sv0 (main.nextRoom sv)). rewrite Hnew. cbn.
      apply sublist_nil_l.
    - change (main.room_at ?x (main.nextRoom sv))
        with (main.room_at sv0 (main.nextRoom sv)). rewrite Hnew. cbn. lia.
    - change (main.room_at ?x (main.nextRoom sv))
        with (main.room_at sv0 (main.nextRoom sv)). by rewrite Hnew. }
  cbn [main.roomID main.peerConnection main.room].
  match goal with |- context [main.signalRoom fails (main.nextRoom sv) ?x] =>
    set (sv1 := x) end.
  set (record := {| PeerConnection := main.nextPC sv0; Websocket := c;
                    Name := if String.eqb n "" then "Anonymous" else n |}).
  assert (main.PeerConnections (main.room_at sv1 (main.nextRoom sv))
          = {| slice.backing := [record]; slice.len := 1 |}) as Hlist1.
  { unfold sv1. simpl_room_at.
    change (main.room_at ?x (main.nextRoom sv))
      with (main.room_at sv0 (main.nextRoom sv)). rewrite Hnew. done. }
  assert (main.TrackLocals (main.room_at sv1 (main.nextRoom sv)) = ∅) as Htl1.
  { unfold sv1. simpl_room_at.
    change (main.room_at ?x (main.nextRoom sv))
      with (main.room_at sv0 (main.nextRoom sv)). by rewrite Hnew. }
  destruct (signalRoom_list (main.nextRoom sv) sv1) as (Hlen2 & Hwf2 & Hin2).
  { rewrite Hlist1. cbn. lia. }
  destruct (signalRoom_spec fails (main.nextRoom sv) sv1) as [Hrooms2 Hsig2].
  destruct (Hsig2 (main.nextRoom sv)) as (Htl2 & _).
  set (sv2 := main.signalRoom fails (main.nextRoom sv) sv1) in *.
  match goal with |- context [main.readLoop _ _ _ _ ?s ?msg ?rs sv2] =>
    destruct (readLoop_frame fails json_Unmarshal_message json_Unmarshal_candidate
                json_Unmarshal_answer s msg rs sv2) as (Hrooms3 & Hheap3 & _);
    set (sv3 := main.readLoop fails json_Unmarshal_message json_Unmarshal_candidate
                  json_Unmarshal_answer s msg rs sv2) in * end.
  cbn zeta in Hrooms3, Hheap3.
  assert (main.room_at sv3 (main.nextRoom sv) = main.room_at sv2 (main.nextRoom sv))
    as Hroom3 by (unfold main.room_at; by rewrite Hheap3).
  apply (Hteardown record sv3).
  - rewrite Hrooms3, Hrooms2. unfold sv1. done.
  - rewrite Hroom3. rewrite Hlist1 in Hin2, Hlen2. cbn in Hin2, Hlen2.
    set (l := main.PeerConnections (main.room_at sv2 (main.nextRoom sv))) in *.
    assert (length (slice.elems l) = 1) as Hone.
    { unfold slice.elems. rewrite length_take. lia. }
    destruct (slice.elems l) as [|x [|y xs]] eqn:Hel; try done.
    assert (x = record) as ->.
    { by apply list_elem_of_singleton, Hin2, list_elem_of_here. }
    done.
  - by rewrite Hroom3.
  - by rewrite Hroom3, Htl2.
Qed.
End LoneClient.

(** ** The properties above on the examples *)

(** The room ["r"] on the server that has just started. *)
Lemma room_created_for_a_join_is_removed_with_its_peer_witness :
  main.rooms (main.removePeerFromRoom "r" 0 (main.getOrCreateRoom "r" main.boot).2)
  = main.rooms main.boot.
Proof.
  apply (room_created_for_a_join_is_removed_with_its_peer "r" 0 main.boot).
  reflexivity.
Defined.

(** Bob, Alice, and Alice once more: the first Alice goes. *)
Lemma splicePeer_removes_the_first_match_only_witness :
  let s := {| slice.backing := [example.bob; example.alice; example.alice];
              slice.len := 3 |} in
  slice.elems (main.splicePeer 1 s) = [example.bob] ++ [example.alice]
  ∧ slice.len (main.splicePeer 1 s) = slice.len s - 1
  ∧ length (slice.backing (main.splicePeer 1 s)) = length (slice.backing s)
  ∧ slice.elems (slice.caller_view s (main.splicePeer 1 s))
    = [example.bob] ++ [example.alice]
        ++ [default example.alice (last [example.alice])].
Proof.
  apply (splicePeer_removes_the_first_match_only 1
           {| slice.backing := [example.bob; example.alice; example.alice];
              slice.len := 3 |}
           [example.bob] example.alice [example.alice]).
  - cbn. lia.
  - reflexivity.
  - reflexivity.
  - repeat constructor. cbn. lia.
Defined.

(** Alice, alone in the room ["r"], leaves. *)
Lemma teardown_releases_the_session_witness :
  let sv := main.server example.alice_joined in
  let sv' := main.teardown "r" 0 11 sv in
  slice.elems (main.PeerConnections (main.room_at sv' 0)) = [] ++ []
  ∧ Forall (fun q' => PeerConnection q' ≠ 0)
      (slice.elems (main.PeerConnections (main.room_at sv' 0)))
  ∧ webrtc.connectionState (pc_at (main.world sv') 0) = webrtc.PeerConnectionStateClosed
  ∧ (∀ h, h ≠ 0 → pc_at (main.world sv') h = pc_at (main.world sv) h)
  ∧ (main.rooms sv' !! "r" = None
     ↔ [] ++ [] = ([] : list PeerConnectionState)
       ∧ main.TrackLocals (main.room_at sv 0) = ∅)
  ∧ ∃ locks,
      trace (main.world sv')
      = trace (main.world sv) ++ [EvClosePeerConnection 0] ++ locks
          ++ [EvCloseWebsocket 11]
      ∧ Forall is_lock_event locks.
Proof.
  apply (teardown_releases_the_session "r" 0 11 (main.server example.alice_joined) 0
           [] {| PeerConnection := 0; Websocket := 11; Name := "Alice" |} []).
  - vm_compute. reflexivity.
  - vm_compute. lia.
  - vm_compute. reflexivity.
  - reflexivity.
  - constructor.
Defined.


Lemma SignalPeerConnections_leaves_the_callers_length_witness :
  let s' := (example.synced example.bob_closed).1 in
  slice.len s' ≤ slice.len example.both
  ∧ length (slice.elems (slice.caller_view example.both s'))
    = length (slice.elems example.both)
  ∧ take (slice.len s') (slice.elems (slice.caller_view example.both s')) = slice.elems s'
  ∧ (∀ x, x ∈ slice.elems (slice.caller_view example.both s') →
          x ∈ slice.elems example.both)
  ∧ (∀ x, x ∈ slice.elems example.both →
          webrtc.connectionState (pc_at example.bob_closed (PeerConnection x))
            ≠ webrtc.PeerConnectionStateClosed →
          x ∈ slice.elems (slice.caller_view example.both s')).
Proof.
  apply (SignalPeerConnections_leaves_the_callers_length example.never example.tracks
           example.names example.streams 26 (roomLock 0) example.both example.bob_closed
           peer.SyncDone _ (example.synced example.bob_closed).2).
  - cbn. lia.
  - vm_compute. reflexivity.
Defined.

(** A second round on the room of Alice and Bob, right after the first. *)
Lemma SignalPeerConnections_steady_state_witness :
  let w := (example.synced example.fresh).2 in
  let s' := (example.synced w).1 in
  let w' := (example.synced w).2 in
  s' = example.both ∧ senders_unchanged w w' ∧ media_unchanged w w'
  ∧ ∃ es, trace w' = trace w ++ es ∧ Forall (fun e => ¬ is_track_change e) es.
Proof.
  apply (SignalPeerConnections_steady_state example.never example.tracks
           example.names example.streams 26 (roomLock 0) example.both
           (example.synced example.fresh).2 peer.SyncDone).
  - assert (slice.elems example.both = [example.alice; example.bob]) as -> by reflexivity.
    intros p [->|[->|[]%elem_of_nil]%elem_of_cons]%elem_of_cons.
    + split; [vm_compute; discriminate|]. unfold in_sync. apply set_eq. intros x.
      vm_compute. tauto.
    + split; [vm_compute; discriminate|]. unfold in_sync. apply set_eq. intros x.
      vm_compute. tauto.
  - vm_compute. reflexivity.
Defined.

(** A round on the room of Alice and Bob before anything is attached. *)
Lemma SignalPeerConnections_keeps_room_senders_and_adds_no_loopback_witness :
  let w' := (example.synced example.fresh).2 in
  senders_between example.tracks example.fresh w'
  ∧ ∀ h, loopback_free example.tracks (pc_at example.fresh h) →
         loopback_free example.tracks (pc_at w' h).
Proof.
  apply (SignalPeerConnections_keeps_room_senders_and_adds_no_loopback example.never
           example.tracks example.names example.streams
           ltac:(unfold keyed_by_id, example.tracks;
                 intros k t [<- <-]%lookup_singleton_Some; reflexivity)
           26 (roomLock 0) example.both example.fresh peer.SyncDone
           (example.synced example.fresh).1).
  vm_compute. reflexivity.
Defined.

(** A client without a name joins ["r"] on the server that has just
    started. *)
Lemma join_registers_one_record_witness :
  let s := example.anonymous_session in
  let sv' := example.after_anonymous_join in
  let g := main.getOrCreateRoom (main.roomID s) main.boot in
  let record := {| PeerConnection := main.nextPC main.boot; Websocket := 11;
                   Name := main.userName s |} in
  main.rooms sv' !! main.roomID s = Some (main.room s)
  ∧ main.peerConnection s = main.nextPC main.boot
  ∧ main.nextPC sv' = S (main.nextPC main.boot)
  ∧ main.roomID s ≠ "" ∧ main.userName s ≠ ""
  ∧ slice.elems (main.PeerConnections (main.room_at sv' (main.room s)))
    = slice.elems (main.PeerConnections (main.room_at g.2 (main.room s))) ++ [record]
  ∧ main.TrackLocals (main.room_at sv' (main.room s))
    = main.TrackLocals (main.room_at g.2 (main.room s))
  ∧ (∀ ptr, ptr ≠ main.room s → main.room_at sv' ptr = main.room_at g.2 ptr)
  ∧ pc_at (main.world sv') (main.peerConnection s)
    = {| webrtc.connectionState := webrtc.PeerConnectionStateNew;
         webrtc.senders := []; webrtc.receivers := [None];
         webrtc.localDescription := None; webrtc.remoteDescription := None |}
  ∧ (∀ h, h ≠ main.peerConnection s →
          pc_at (main.world sv') h = pc_at (main.world main.boot) h)
  ∧ tick (main.world sv') = tick (main.world main.boot) + 2.
Proof.
  apply (join_registers_one_record example.never example.decode_message
           example.decode_join 11 (Some "join:r/") main.boot
           example.anonymous_session example.after_anonymous_join).
  - intros ptr. unfold main.room_at, main.boot. cbn. rewrite lookup_total_empty. cbn. lia.
  - vm_compute. reflexivity.
Defined.

(** Carol asks to join ["r2"] and her peer-connection cannot be
    constructed. *)
Lemma failed_join_registers_no_peer_witness :
  let sv' := main.server example.carol_refused in
  (∀ id ptr, main.rooms main.boot !! id = Some ptr →
             main.room_at sv' ptr = main.room_at main.boot ptr)
  ∧ (∀ id ptr, main.rooms sv' !! id = Some ptr →
               main.rooms main.boot !! id = Some ptr
               ∨ (main.rooms main.boot !! id = None
                  ∧ main.room_at sv' ptr = main.newRoom))
  ∧ (main.nextPC sv' = main.nextPC main.boot
     ∧ pcs (main.world sv') = pcs (main.world main.boot)
     ∨ main.nextPC sv' = S (main.nextPC main.boot)
       ∧ webrtc.connectionState (pc_at (main.world sv') (main.nextPC main.boot))
         = webrtc.PeerConnectionStateClosed
       ∧ ∀ h, h ≠ main.nextPC main.boot →
              pc_at (main.world sv') h = pc_at (main.world main.boot) h)
  ∧ last (trace (main.world sv')) = Some (EvCloseWebsocket 11).
Proof.
  apply (failed_join_registers_no_peer example.first_fails example.decode_message
           example.decode_join 11 (Some "join:r2/Carol") main.boot
           (main.server example.carol_refused)).
  - split.
    + intros id ptr Hlk. cbn in Hlk. by rewrite lookup_empty in Hlk.
    + intros id1 id2 ptr Hlk. cbn in Hlk. by rewrite lookup_empty in Hlk.
  - intros id ptr q Hlk. cbn in Hlk. by rewrite lookup_empty in Hlk.
  - vm_compute. reflexivity.
Defined.

(** Alice's track ["t-A"] in the room she has just joined. *)
Lemma onTrack_unlabel_undoes_onTrack_label_witness :
  let sv := main.server example.alice_joined in
  let sv' := main.onTrack_unlabel example.alice_session example.remote_tA
               (main.onTrack_label example.alice_session example.remote_tA sv).2 in
  (∀ ptr, main.room_at sv' ptr = main.room_at sv ptr)
  ∧ main.rooms sv' = main.rooms sv
  ∧ pcs (main.world sv') = pcs (main.world sv)
  ∧ tick (main.world sv') = tick (main.world sv)
  ∧ ∃ es, trace (main.world sv') = trace (main.world sv) ++ es ∧ Forall is_lock_event es.
Proof.
  apply (onTrack_unlabel_undoes_onTrack_label example.alice_session example.remote_tA
           (main.server example.alice_joined)).
  - vm_compute. reflexivity.
  - vm_compute. reflexivity.
Defined.

(** The server that has just started. *)
Lemma registry_stays_well_formed_witness :
  registry_wf (main.websocketHandler example.never example.decode_message
                 example.decode_join example.decode_candidate example.decode_answer
                 11 [Some "join:r/Alice"] main.boot)
  ∧ registry_wf (main.onICECandidate example.never example.alice_session None main.boot)
  ∧ registry_wf (main.onConnectionStateChange example.never example.alice_session
                   webrtc.PeerConnectionStateClosed main.boot)
  ∧ registry_wf (main.onTrack_label example.alice_session example.remote_tA main.boot).2
  ∧ registry_wf (main.onTrack_labelLocal example.alice_session example.remote_tA "Alice"
                   example.local_copy main.boot)
  ∧ registry_wf (main.onTrack_unlabel example.alice_session example.remote_tA main.boot)
  ∧ registry_wf (main.keyframeTick example.never main.boot).
Proof.
  apply (registry_stays_well_formed example.never example.decode_message
           example.decode_join example.decode_candidate example.decode_answer
           11 [Some "join:r/Alice"] example.alice_session None
           webrtc.PeerConnectionStateClosed example.remote_tA "Alice" example.local_copy
           main.boot).
  split.
  - intros id ptr Hlk. cbn in Hlk. by rewrite lookup_empty in Hlk.
  - intros id1 id2 ptr Hlk. cbn in Hlk. by rewrite lookup_empty in Hlk.
Defined.

(** Bob after a round on the room of Alice and Bob. *)
Lemma completed_SignalPeerConnections_leaves_current_offers_witness :
  let w' := (example.synced example.fresh).2 in
  webrtc.localDescription (pc_at w' (PeerConnection example.bob))
  = Some (peer.offerOf (pc_at w' (PeerConnection example.bob)))
  ∧ webrtc.sd_tracks (peer.offerOf (pc_at w' (PeerConnection example.bob)))
    = omap (fmap webrtc.tl_id) (webrtc.senders (pc_at w' (PeerConnection example.bob))).
Proof.
  apply (completed_SignalPeerConnections_leaves_current_offers example.never
           example.tracks example.names example.streams 26 (roomLock 0) example.both
           example.fresh (example.synced example.fresh).1 (example.synced example.fresh).2).
  - vm_compute. reflexivity.
  - apply (list_elem_of_lookup_2 _ 1). vm_compute. reflexivity.
Defined.

(** The room of Alice and Bob when Bob's connection is closed: only
    Alice's track is asked for a keyframe. *)
Lemma completed_SignalPeerConnections_requests_keyframes_of_open_peers_witness :
  rtcp_writes (drop (length (trace example.bob_closed))
                 (trace (example.synced example.bob_closed).2))
  = flat_map (fun p => pli_for (PeerConnection p)
                         (webrtc.receivers (pc_at example.bob_closed (PeerConnection p))))
      (open_peers example.bob_closed (slice.elems example.both)).
Proof.
  apply (completed_SignalPeerConnections_requests_keyframes_of_open_peers example.never
           example.tracks example.names example.streams 26 (roomLock 0) example.both
           example.bob_closed (example.synced example.bob_closed).1).
  - cbn. lia.
  - vm_compute. reflexivity.
Defined.

(** A forwarding track of Alice's track with an identifier of its own. *)
Lemma local_label_survives_the_unlabelling_witness :
  let sv' := main.onTrack_unlabel example.alice_session example.remote_tA
               (main.onTrack_labelLocal example.alice_session example.remote_tA "Alice"
                  example.local_copy (main.server example.alice_joined)) in
  main.TrackNames (main.room_at sv' (main.room example.alice_session))
    !! webrtc.tl_id example.local_copy = Some "Alice"
  ∧ main.TrackNames (main.room_at sv' (main.room example.alice_session))
      !! webrtc.tr_id example.remote_tA = None
  ∧ main.StreamNames (main.room_at sv' (main.room example.alice_session))
      !! webrtc.tr_streamID example.remote_tA = None.
Proof.
  apply (local_label_survives_the_unlabelling example.alice_session example.remote_tA
           "Alice" example.local_copy (main.server example.alice_joined)).
  vm_compute. discriminate.
Defined.

(** Alice and Bob, connected, before anything is attached. *)
Lemma attemptSync_without_retry_offers_each_peer_once_witness :
  let r := peer.attemptSync example.never example.tracks example.names example.streams
             example.both example.fresh in
  r.1.2 = example.both
  ∧ ∃ es, trace r.2 = trace example.fresh ++ es
          ∧ Forall is_sync_step es
          ∧ Forall2 (fun o p => o.1.1.1 = Websocket p
                                ∧ o.1.2 = example.names ∧ o.2 = example.streams)
              (offers es) (slice.elems example.both).
Proof.
  apply (attemptSync_without_retry_offers_each_peer_once example.never example.tracks
           example.names example.streams example.both example.fresh).
  vm_compute. reflexivity.
Defined.

(** The room of Alice and Bob when Bob's connection is closed. *)
Lemma SignalPeerConnections_signals_open_peers_only_witness :
  Forall (fun e => is_sync_step e →
                   ∃ p, p ∈ slice.elems example.both
                        ∧ webrtc.connectionState (pc_at example.bob_closed (PeerConnection p))
                          ≠ webrtc.PeerConnectionStateClosed
                        ∧ addressed p e)
    (drop (length (trace example.bob_closed))
       (trace (example.synced example.bob_closed).2)).
Proof.
  apply (SignalPeerConnections_signals_open_peers_only example.never example.tracks
           example.names example.streams 26 (roomLock 0) example.both example.bob_closed
           peer.SyncDone (example.synced example.bob_closed).1).
  - cbn. lia.
  - vm_compute. reflexivity.
Defined.

(** Carol joins ["r2"] on the server that has just started, and leaves. *)
Lemma lone_client_leaves_the_registry_as_found_witness :
  main.rooms (main.websocketHandler example.never example.decode_message
                example.decode_join example.decode_candidate example.decode_answer
                11 (Some "join:r2/Carol" :: [Some "candidate:c"]) main.boot)
  = if example.never (tick (main.world main.boot))
    then <["r2" := main.nextRoom main.boot]> (main.rooms main.boot)
    else main.rooms main.boot.
Proof.
  apply (lone_client_leaves_the_registry_as_found example.never example.decode_message
           example.decode_join example.decode_candidate example.decode_answer
           11 "join:r2/Carol" [Some "candidate:c"] "r2" "Carol" main.boot).
  - eexists. split_and!; vm_compute; reflexivity.
  - discriminate.
  - reflexivity.
Defined.
